(** * The 2048 game engine: Board, MoveProcessor and GameEngine

    A shallow embedding of the game-state core of the repository
    (classes [Board], [MoveProcessor] and [GameEngine]) and the proofs
    of the properties its specification states.

    Conventions of the embedding.
    - A JavaScript number held in a cell, a score or a counter is an
      integer [Z]; tile values stay far below 2^53, where the
      arithmetic of the source is exact.
    - An array is a [list]; [this.grid] is a list of rows.  The rows
      of a board are created by [initialize] and never handed out
      ([getGrid] copies them), so a board owns its rows and a [Board]
      value stands for the whole object.
    - A method that mutates [this] takes the object and returns the
      new object (state passing).  Where object identity matters
      ([clone], [canMove]) the objects live in a store indexed by
      references: module [Store] has the methods in that form, and
      section [StoreFacts] relates the two forms.
    - [for (let i = 0; i < n; i++) body] is [for_range n body]; a
      [return] or [throw] inside a loop is a state that the remaining
      iterations leave as it is.
    - The random numbers a method draws are arguments of its model. *)

From stdpp Require Import gmap strings list.
From Stdlib Require Import ZArith Lia.

(** [for_range n body s] runs [body 0], [body 1], ..., [body (n-1)]
    on the state [s], in that order. *)
Definition for_range {S : Type} (n : nat) (body : nat → S → S) (s : S) : S :=
  fold_left (λ s i, body i s) (seq 0 n) s.

(** ** Board *)

Module Board.

(** [size] is fixed by the constructor; [grid] is the array of rows. *)
Record Board := mk { size : nat; grid : list (list Z) }.

(** The representation invariant the constructor establishes and every
    method keeps: [grid] is [size] rows of [size] cells. *)
Definition wf (b : Board) : Prop :=
  length (grid b) = size b ∧ Forall (λ r, length r = size b) (grid b).

(** [g[row][col]] for indices inside a [size]×[size] grid.  The
    default is never read on a grid that satisfies [wf]. *)
Definition cellAt (g : list (list Z)) (row col : nat) : Z :=
  default 0%Z (g !! row ≫= λ r, r !! col).

(** [g[row][col] = value]. *)
Definition storeAt (g : list (list Z)) (row col : nat) (value : Z) : list (list Z) :=
  alter (λ r, <[col := value]> r) row g.

(** [this.grid = Array(size).fill(null).map(() => Array(size).fill(0))] *)
Definition initialize (b : Board) : Board :=
  {| size := size b; grid := replicate (size b) (replicate (size b) 0%Z) |}.

(** [new Board(size)] *)
Definition new (size : nat) : Board :=
  initialize {| size := size; grid := [] |}.

(** The guard of [getCell]:
    [row < 0 || row >= this.size || col < 0 || col >= this.size]. *)
Definition outOfBounds (b : Board) (row col : Z) : bool :=
  (row <? 0)%Z || (Z.of_nat (size b) <=? row)%Z ||
  (col <? 0)%Z || (Z.of_nat (size b) <=? col)%Z.

(** [getCell(row, col)]; [None] is the [null] the source returns for
    indices outside the board. *)
Definition getCell (b : Board) (row col : Z) : option Z :=
  if outOfBounds b row col then None
  else Some (cellAt (grid b) (Z.to_nat row) (Z.to_nat col)).

(** [setCell(row, col, value)] *)
Definition setCell (b : Board) (row col : Z) (value : Z) : Board :=
  if (0 <=? row)%Z && (row <? Z.of_nat (size b))%Z &&
     (0 <=? col)%Z && (col <? Z.of_nat (size b))%Z
  then {| size := size b;
          grid := storeAt (grid b) (Z.to_nat row) (Z.to_nat col) value |}
  else b.

(** The number read by [getCell] at loop indices.  Every loop of the
    source that passes the result of [getCell] on runs its indices
    below [size], where [getCell] returns a number (lemma
    [getCell_inside]); the [null] branch is not reached there. *)
Definition numberOf (v : option Z) : Z :=
  match v with Some n => n | None => 0%Z end.

(** [getEmptyCells()]: the positions holding 0, in row-major order. *)
Definition getEmptyCells (b : Board) : list (nat * nat) :=
  for_range (size b) (λ row emptyCells,
    for_range (size b) (λ col emptyCells,
      if (cellAt (grid b) row col =? 0)%Z
      then emptyCells ++ [(row, col)]
      else emptyCells) emptyCells) [].

Definition isEmpty (b : Board) : bool :=
  length (getEmptyCells b) =? size b * size b.

Definition isFull (b : Board) : bool :=
  length (getEmptyCells b) =? 0.

(** [addRandomTile()].  The two calls of [Math.random()] are the
    arguments: [pick] stands for the first draw, of which the source
    uses [Math.floor(draw * emptyCells.length)], an index below
    [emptyCells.length] (here [pick mod length]); [small] tells
    whether the second draw is below 0.9. *)
Definition addRandomTile (b : Board) (pick : nat) (small : bool) : Board * bool :=
  let emptyCells := getEmptyCells b in
  if length emptyCells =? 0 then (b, false)
  else
    match emptyCells !! (pick mod length emptyCells) with
    | Some (row, col) =>
        let value := if small then 2%Z else 4%Z in
        (setCell b (Z.of_nat row) (Z.of_nat col) value, true)
    | None => (b, true)
    end.

(** [clone()]: a new board of the same size, filled cell by cell. *)
Definition clone (b : Board) : Board :=
  for_range (size b) (λ row newBoard,
    for_range (size b) (λ col newBoard,
      setCell newBoard (Z.of_nat row) (Z.of_nat col)
        (numberOf (getCell b (Z.of_nat row) (Z.of_nat col)))) newBoard)
    (new (size b)).

(** [equals(otherBoard)]; [None] is a missing [otherBoard]. *)
Definition equals (b : Board) (otherBoard : option Board) : bool :=
  match otherBoard with
  | None => false
  | Some other =>
      if negb (size other =? size b) then false
      else
        for_range (size b) (λ row same,
          for_range (size b) (λ col same,
            same && bool_decide (getCell b (Z.of_nat row) (Z.of_nat col)
                                 = getCell other (Z.of_nat row) (Z.of_nat col)))
            same) true
  end.

(** [clear()] *)
Definition clear (b : Board) : Board :=
  for_range (size b) (λ row b,
    for_range (size b) (λ col b,
      {| size := size b; grid := storeAt (grid b) row col 0%Z |}) b) b.

(** [getGrid()]: a copy of the rows. *)
Definition getGrid (b : Board) : list (list Z) :=
  map (λ row, row) (grid b).

End Board.

(** ** MoveProcessor *)

Module MoveProcessor.
Import Board.

Record MergeResult := mkMerge { line : list Z; lineScore : Z }.
Record MoveResult := mkMove { moved : bool; score : Z }.

(** The [while] loop of [mergeLine] as it is written, with the index
    [i] and the accumulators [merged] and [score].  [fuel] bounds the
    number of iterations; [None] means the bound was reached before
    the loop ended.  Lemma [mergeLoopAt_mergeLoop] shows that
    [line.length + 1] iterations always suffice and that the result is
    the one of [mergeLoop] below, which the rest of the development
    uses. *)
Fixpoint mergeLoopAt (fuel : nat) (line : list Z) (i : nat)
    (merged : list Z) (score : Z) : option MergeResult :=
  match fuel with
  | 0 => None
  | S fuel =>
      if i <? length line then
        if (i <? length line - 1)
           && (nth i line 0%Z =? nth (i + 1) line 0%Z)%Z
        then
          let mergedValue := (nth i line 0%Z * 2)%Z in
          mergeLoopAt fuel line (i + 2) (merged ++ [mergedValue])
            (score + mergedValue)%Z
        else mergeLoopAt fuel line (i + 1) (merged ++ [nth i line 0%Z]) score
      else Some {| line := merged; lineScore := score |}
  end.

(** The same loop, by recursion on the part of the line not yet
    read.  [rest] is the part of [line] from index [i] on:
    [i < line.length] holds when [rest] is not empty,
    [i < line.length - 1] when it has a second element, [line[i]] and
    [line[i + 1]] are its first two elements, and [i += 2], [i++]
    drop two elements or one. *)
Fixpoint mergeLoop (rest merged : list Z) (score : Z) : MergeResult :=
  match rest with
  | [] => {| line := merged; lineScore := score |}
  | x :: tail =>
      match tail with
      | y :: tail' =>
          if (x =? y)%Z then
            let mergedValue := (x * 2)%Z in
            mergeLoop tail' (merged ++ [mergedValue]) (score + mergedValue)%Z
          else mergeLoop tail (merged ++ [x]) score
      | [] => mergeLoop tail (merged ++ [x]) score
      end
  end.

(** [mergeLine(line)].  The score is added in [Z]: this is the
    [score += mergedValue] of the source as long as the numbers stay
    in the range of [Notions.exactLine], where the numbers of
    JavaScript are exact integers. *)
Definition mergeLine (line : list Z) : MergeResult :=
  mergeLoop line [] 0%Z.

(** The first loop of a row in [moveLeft]: the non-zero values of the
    row, left to right. *)
Definition collectLine (board : Board) (row : nat) : list Z :=
  for_range (size board) (λ col line,
    let value := numberOf (getCell board (Z.of_nat row) (Z.of_nat col)) in
    if (value =? 0)%Z then line else line ++ [value]) [].

(** The second loop of a row in [moveLeft]: write the merged line
    back, padded with 0, and record whether a cell changed. *)
Definition writeLine (row : nat) (mergedLine : list Z)
    (st : Board * bool) : Board * bool :=
  for_range (size (st.1)) (λ col '(board, moved),
    let newValue :=
      if col <? length mergedLine then nth col mergedLine 0%Z else 0%Z in
    if bool_decide (getCell board (Z.of_nat row) (Z.of_nat col) ≠ Some newValue)
    then (setCell board (Z.of_nat row) (Z.of_nat col) newValue, true)
    else (board, moved)) st.

(** [moveLeft(board)]: the board after the move and the result. *)
Definition moveLeft (board : Board) : Board * MoveResult :=
  let '(board', moved, score) :=
    for_range (size board) (λ row '(board, moved, score),
      let line := collectLine board row in
      let merged := mergeLine line in
      let score := (score + lineScore merged)%Z in
      let '(board, moved) := writeLine row (MoveProcessor.line merged) (board, moved) in
      (board, moved, score)) (board, false, 0%Z) in
  (board', {| moved := moved; score := score |}).

(** The columns [col] with [col < board.size / 2]; the division of
    the source is exact, so for an odd size the middle column is
    included. *)
Definition halfCols (size : nat) : nat := (size + 1) / 2.

(** [reverseRows(board)] *)
Definition reverseRows (board : Board) : Board :=
  for_range (size board) (λ row board,
    for_range (halfCols (size board)) (λ col board,
      let other := (Z.of_nat (size board) - 1 - Z.of_nat col)%Z in
      let temp := numberOf (getCell board (Z.of_nat row) (Z.of_nat col)) in
      let board := setCell board (Z.of_nat row) (Z.of_nat col)
                     (numberOf (getCell board (Z.of_nat row) other)) in
      setCell board (Z.of_nat row) other temp) board) board.

(** [transpose(board)]; the inner loop runs [col] from [row + 1]. *)
Definition transpose (board : Board) : Board :=
  for_range (size board) (λ row board,
    fold_left (λ board col,
      let temp := numberOf (getCell board (Z.of_nat row) (Z.of_nat col)) in
      let board := setCell board (Z.of_nat row) (Z.of_nat col)
                     (numberOf (getCell board (Z.of_nat col) (Z.of_nat row))) in
      setCell board (Z.of_nat col) (Z.of_nat row) temp)
      (seq (row + 1) (size board - (row + 1))) board) board.

(** [moveRight(board)] *)
Definition moveRight (board : Board) : Board * MoveResult :=
  let board := reverseRows board in
  let '(board, result) := moveLeft board in
  let board := reverseRows board in
  (board, result).

(** [moveUp(board)] *)
Definition moveUp (board : Board) : Board * MoveResult :=
  let board := transpose board in
  let '(board, result) := moveLeft board in
  let board := transpose board in
  (board, result).

(** [moveDown(board)] *)
Definition moveDown (board : Board) : Board * MoveResult :=
  let board := transpose board in
  let '(board, result) := moveRight board in
  let board := transpose board in
  (board, result).

(** The [switch (direction)] shared by [canMove] and
    [GameEngine.move]: the move function of a direction, [None] for
    the [default] case. *)
Definition moveOf (direction : string) : option (Board → Board * MoveResult) :=
  if String.eqb direction "left" then Some moveLeft
  else if String.eqb direction "right" then Some moveRight
  else if String.eqb direction "up" then Some moveUp
  else if String.eqb direction "down" then Some moveDown
  else None.

(** [canMove(board, direction)] as a function of the contents of
    [board]: the move runs on the clone.  The version on references,
    which shows what happens to [board] itself, is [Store.canMove]. *)
Definition canMove (board : Board) (direction : string) : bool :=
  let testBoard := clone board in
  match moveOf direction with
  | Some move => moved (move testBoard).2
  | None => false
  end.

End MoveProcessor.

(** ** GameEngine *)

Module GameEngine.
Import Board.

(** The engine owns its board: no other object holds a reference to
    it while a method runs, so the field [board] is the contents of
    the board.

    A [try] block either runs to its end or throws; [Throws] is the
    transfer of control to the [catch] clause of the method
    ([handleError] and the recovery methods), which this development
    does not follow further.  Theorems [reachable_valid] and
    [move_returns] show that [move] does not get there on an engine
    built by the constructor and driven by [initializeGame] and
    [move]. *)
Inductive outcome (A : Type) : Type :=
  | Returns (a : A)
  | Throws (message : string).
Arguments Returns {A} a.
Arguments Throws {A} message.

(** The object kept in [previousState] by [saveState]. *)
Record SavedState := mkSaved {
  savedBoard : Board;
  savedScore : Z;
  savedIsWin : bool;
  savedIsGameOver : bool;
  savedMoveCount : Z
}.

Record GameEngine := mk {
  size : nat;
  board : Board;
  score : Z;
  isWin : bool;
  isGameOver : bool;
  moveCount : Z;
  previousState : option SavedState;
  errorCount : Z;
  maxErrors : Z;
  lastError : option string
}.

(** The argument of [move]: a string, or a value of another type. *)
Inductive argument : Type :=
  | Str (s : string)
  | NotAString.

(** [validateSize(size)]: [true] when it does not throw. *)
Definition validateSize (size : Z) : bool :=
  negb ((size <? 2)%Z || (10 <? size)%Z).

(** [new GameEngine(size)] for an integer [size]. *)
Definition new (size : Z) : outcome GameEngine :=
  if validateSize size then
    Returns {| size := Z.to_nat size; board := Board.new (Z.to_nat size);
               score := 0; isWin := false; isGameOver := false;
               moveCount := 0; previousState := None;
               errorCount := 0; maxErrors := 10; lastError := None |}
  else Throws "Invalid grid size".

Definition withBoard (e : GameEngine) (b : Board) : GameEngine :=
  {| size := size e; board := b; score := score e; isWin := isWin e;
     isGameOver := isGameOver e; moveCount := moveCount e;
     previousState := previousState e; errorCount := errorCount e;
     maxErrors := maxErrors e; lastError := lastError e |}.

Definition withScore (e : GameEngine) (s : Z) : GameEngine :=
  {| size := size e; board := board e; score := s; isWin := isWin e;
     isGameOver := isGameOver e; moveCount := moveCount e;
     previousState := previousState e; errorCount := errorCount e;
     maxErrors := maxErrors e; lastError := lastError e |}.

Definition withMoveCount (e : GameEngine) (n : Z) : GameEngine :=
  {| size := size e; board := board e; score := score e; isWin := isWin e;
     isGameOver := isGameOver e; moveCount := n;
     previousState := previousState e; errorCount := errorCount e;
     maxErrors := maxErrors e; lastError := lastError e |}.

Definition withIsWin (e : GameEngine) (w : bool) : GameEngine :=
  {| size := size e; board := board e; score := score e; isWin := w;
     isGameOver := isGameOver e; moveCount := moveCount e;
     previousState := previousState e; errorCount := errorCount e;
     maxErrors := maxErrors e; lastError := lastError e |}.

Definition withIsGameOver (e : GameEngine) (g : bool) : GameEngine :=
  {| size := size e; board := board e; score := score e; isWin := isWin e;
     isGameOver := g; moveCount := moveCount e;
     previousState := previousState e; errorCount := errorCount e;
     maxErrors := maxErrors e; lastError := lastError e |}.

Definition withPreviousState (e : GameEngine) (p : option SavedState) : GameEngine :=
  {| size := size e; board := board e; score := score e; isWin := isWin e;
     isGameOver := isGameOver e; moveCount := moveCount e;
     previousState := p; errorCount := errorCount e;
     maxErrors := maxErrors e; lastError := lastError e |}.

(** [validateGameState()].  The board is always present, so the
    method does not throw; a negative score or move count is reset. *)
Definition validateGameState (e : GameEngine) : GameEngine :=
  let e := if (score e <? 0)%Z then withScore e 0 else e in
  if (moveCount e <? 0)%Z then withMoveCount e 0 else e.

(** [validateInitialization()]: the number of tiles counted so far,
    or the error thrown. *)
Definition validateInitialization (e : GameEngine) : outcome unit :=
  let counted :=
    for_range (size e) (λ row st,
      for_range (size e) (λ col st,
        match st with
        | Throws m => Throws m
        | Returns tileCount =>
            match getCell (board e) (Z.of_nat row) (Z.of_nat col) with
            | Some value =>
                if (value =? 0)%Z then Returns tileCount
                else if (value =? 2)%Z || (value =? 4)%Z
                     then Returns (S tileCount)
                     else Throws "Invalid initial tile value"
            | None => Throws "Invalid initial tile value"
            end
        end) st) (Returns 0) in
  match counted with
  | Throws m => Throws m
  | Returns tileCount =>
      if tileCount =? 2 then Returns tt
      else Throws "Invalid initial tile count"
  end.

(** The [try] block of [initializeGame()].  The four last arguments
    are the random draws of the two calls of [addRandomTile]. *)
Definition initializeGame (e : GameEngine)
    (pick1 : nat) (small1 : bool) (pick2 : nat) (small2 : bool)
    : outcome GameEngine :=
  let e := validateGameState e in
  let e := withBoard e (Board.initialize (board e)) in
  let e := {| size := size e; board := board e; score := 0;
              isWin := false; isGameOver := false; moveCount := 0;
              previousState := None; errorCount := 0;
              maxErrors := maxErrors e; lastError := None |} in
  let e := withBoard e (addRandomTile (board e) pick1 small1).1 in
  let e := withBoard e (addRandomTile (board e) pick2 small2).1 in
  match validateInitialization e with
  | Returns _ => Returns e
  | Throws m => Throws m
  end.

(** [restart()] *)
Definition restart := initializeGame.

(** [validateDirection(direction)] *)
Definition validateDirection (direction : argument) : bool :=
  match direction with
  | Str s => bool_decide (s ∈ ["left"; "right"; "up"; "down"])
  | NotAString => false
  end.

(** [validateMoveResult(result)]: [true] when it does not throw. *)
Definition validateMoveResult (result : MoveProcessor.MoveResult) : bool :=
  negb (MoveProcessor.score result <? 0)%Z.

(** [saveState()] *)
Definition saveState (e : GameEngine) : GameEngine :=
  withPreviousState e
    (Some {| savedBoard := Board.clone (board e); savedScore := score e;
             savedIsWin := isWin e; savedIsGameOver := isGameOver e;
             savedMoveCount := moveCount e |}).

(** [checkWinCondition()] *)
Definition checkWinCondition (e : GameEngine) : GameEngine :=
  if isWin e then e
  else
    let found :=
      for_range (size e) (λ row found,
        for_range (size e) (λ col found,
          found || bool_decide (getCell (board e) (Z.of_nat row) (Z.of_nat col)
                                = Some 2048%Z)) found) false in
    if found then withIsWin e true else e.

(** [canMove(direction)] *)
Definition canMove (e : GameEngine) (direction : string) : bool :=
  MoveProcessor.canMove (board e) direction.

(** [checkGameOverCondition()] *)
Definition checkGameOverCondition (e : GameEngine) : GameEngine :=
  if isWin e then e
  else if negb (Board.isFull (board e)) then e
  else if existsb (λ direction, MoveProcessor.canMove (board e) direction)
            ["left"; "right"; "up"; "down"]
       then e
       else withIsGameOver e true.

(** The [try] block of [move(direction)]: the engine afterwards and
    the value returned.  [pick] and [small] are the random draws of
    [addRandomTile]. *)
Definition move (e : GameEngine) (direction : argument)
    (pick : nat) (small : bool) : outcome (GameEngine * bool) :=
  if negb (validateDirection direction) then Returns (e, false)
  else if isGameOver e || isWin e then Returns (e, false)
  else
    let e := validateGameState e in
    let e := saveState e in
    match direction with
    | NotAString => Returns (e, false)
    | Str d =>
        match MoveProcessor.moveOf d with
        | None => Returns (e, false)
        | Some moveDirection =>
            let '(b, result) := moveDirection (board e) in
            let e := withBoard e b in
            if MoveProcessor.moved result then
              if validateMoveResult result then
                let e := withScore e (score e + MoveProcessor.score result)%Z in
                let e := withMoveCount e (moveCount e + 1)%Z in
                let e := withBoard e (addRandomTile (board e) pick small).1 in
                let e := checkWinCondition e in
                let e := checkGameOverCondition e in
                Returns (e, true)
              else Throws "Invalid move result score"
            else Returns (e, false)
        end
    end.

Definition getScore (e : GameEngine) : Z := score e.
Definition getBoard (e : GameEngine) : Board := board e.
Definition isGameOverState (e : GameEngine) : bool := isGameOver e.
Definition isWinState (e : GameEngine) : bool := isWin e.
Definition getMoveCount (e : GameEngine) : Z := moveCount e.

End GameEngine.

(** ** Boards as objects in a store

    [clone] and [MoveProcessor.canMove] create a board and mutate it
    while the caller still holds the board it passed.  Here boards are
    objects in a store and the methods receive references, so that a
    write through one reference is seen through every alias of it.
    A reference the program holds designates an object of the store;
    [σ !!! r] is that object. *)

Module Store.
Import Board.

(** References are numbers. *)
Abbreviation ref := nat (only parsing).

Global Instance Board_inhabited : Inhabited Board := populate (Board.new 0).

(** [new Board(size)]: a reference that is not in use. *)
Definition alloc (σ : gmap nat Board) (size : nat) : gmap nat Board * ref :=
  let r := fresh (dom σ) in (<[r := Board.new size]> σ, r).

(** [r.size] *)
Definition size (σ : gmap nat Board) (r : ref) : nat := Board.size (σ !!! r).

(** [r.getCell(row, col)] *)
Definition getCell (σ : gmap nat Board) (r : ref) (row col : Z) : option Z :=
  Board.getCell (σ !!! r) row col.

(** [r.setCell(row, col, value)] *)
Definition setCell (σ : gmap nat Board) (r : ref) (row col value : Z)
    : gmap nat Board :=
  alter (λ b, Board.setCell b row col value) r σ.

(** [this.clone()] *)
Definition clone (σ : gmap nat Board) (this : ref) : gmap nat Board * ref :=
  let '(σ, newBoard) := alloc σ (size σ this) in
  (for_range (size σ this) (λ row σ,
     for_range (size σ this) (λ col σ,
       setCell σ newBoard (Z.of_nat row) (Z.of_nat col)
         (numberOf (getCell σ this (Z.of_nat row) (Z.of_nat col)))) σ) σ,
   newBoard).

(** [r.equals(other)] *)
Definition equals (σ : gmap nat Board) (r other : ref) : bool :=
  Board.equals (σ !!! r) (σ !! other).

(** *** MoveProcessor on references

    The methods of [MoveProcessor] once more, as the source has them:
    they receive a reference and reach the board through [getCell]
    and [setCell] only.  Section [StoreFacts] shows that each of them
    does to the object what the function of the same name in module
    [MoveProcessor] does to its contents, and touches no other
    object. *)

Definition collectLine (σ : gmap nat Board) (board : ref) (row : nat)
    : list Z :=
  for_range (size σ board) (λ col line,
    let value := numberOf (getCell σ board (Z.of_nat row) (Z.of_nat col)) in
    if (value =? 0)%Z then line else line ++ [value]) [].

Definition writeLine (board : ref) (row : nat) (mergedLine : list Z)
    (st : gmap nat Board * bool) : gmap nat Board * bool :=
  for_range (size st.1 board) (λ col '(σ, moved),
    let newValue :=
      if col <? length mergedLine then nth col mergedLine 0%Z else 0%Z in
    if bool_decide (getCell σ board (Z.of_nat row) (Z.of_nat col)
                    ≠ Some newValue)
    then (setCell σ board (Z.of_nat row) (Z.of_nat col) newValue, true)
    else (σ, moved)) st.

(** [MoveProcessor.moveLeft(board)] *)
Definition moveLeft (σ : gmap nat Board) (board : ref)
    : gmap nat Board * MoveProcessor.MoveResult :=
  let '(σ', moved, score) :=
    for_range (size σ board) (λ row '(σ, moved, score),
      let line := collectLine σ board row in
      let merged := MoveProcessor.mergeLine line in
      let score := (score + MoveProcessor.lineScore merged)%Z in
      let '(σ, moved) :=
        writeLine board row (MoveProcessor.line merged) (σ, moved) in
      (σ, moved, score)) (σ, false, 0%Z) in
  (σ', {| MoveProcessor.moved := moved; MoveProcessor.score := score |}).

(** [MoveProcessor.reverseRows(board)] *)
Definition reverseRows (σ : gmap nat Board) (board : ref) : gmap nat Board :=
  for_range (size σ board) (λ row σ,
    for_range (MoveProcessor.halfCols (size σ board)) (λ col σ,
      let other := (Z.of_nat (size σ board) - 1 - Z.of_nat col)%Z in
      let temp := numberOf (getCell σ board (Z.of_nat row) (Z.of_nat col)) in
      let σ := setCell σ board (Z.of_nat row) (Z.of_nat col)
                 (numberOf (getCell σ board (Z.of_nat row) other)) in
      setCell σ board (Z.of_nat row) other temp) σ) σ.

(** [MoveProcessor.transpose(board)] *)
Definition transpose (σ : gmap nat Board) (board : ref) : gmap nat Board :=
  for_range (size σ board) (λ row σ,
    fold_left (λ σ col,
      let temp := numberOf (getCell σ board (Z.of_nat row) (Z.of_nat col)) in
      let σ := setCell σ board (Z.of_nat row) (Z.of_nat col)
                 (numberOf (getCell σ board (Z.of_nat col) (Z.of_nat row))) in
      setCell σ board (Z.of_nat col) (Z.of_nat row) temp)
      (seq (row + 1) (size σ board - (row + 1))) σ) σ.

(** [MoveProcessor.moveRight(board)] *)
Definition moveRight (σ : gmap nat Board) (board : ref)
    : gmap nat Board * MoveProcessor.MoveResult :=
  let σ := reverseRows σ board in
  let '(σ, result) := moveLeft σ board in
  let σ := reverseRows σ board in
  (σ, result).

(** [MoveProcessor.moveUp(board)] *)
Definition moveUp (σ : gmap nat Board) (board : ref)
    : gmap nat Board * MoveProcessor.MoveResult :=
  let σ := transpose σ board in
  let '(σ, result) := moveLeft σ board in
  let σ := transpose σ board in
  (σ, result).

(** [MoveProcessor.moveDown(board)] *)
Definition moveDown (σ : gmap nat Board) (board : ref)
    : gmap nat Board * MoveProcessor.MoveResult :=
  let σ := transpose σ board in
  let '(σ, result) := moveRight σ board in
  let σ := transpose σ board in
  (σ, result).

(** The [switch (direction)] of [canMove]. *)
Definition moveOf (direction : string)
    : option (gmap nat Board → ref
              → gmap nat Board * MoveProcessor.MoveResult) :=
  if String.eqb direction "left" then Some moveLeft
  else if String.eqb direction "right" then Some moveRight
  else if String.eqb direction "up" then Some moveUp
  else if String.eqb direction "down" then Some moveDown
  else None.

(** [MoveProcessor.canMove(board, direction)] *)
Definition canMove (σ : gmap nat Board) (board : ref) (direction : string)
    : gmap nat Board * bool :=
  let '(σ, testBoard) := clone σ board in
  match moveOf direction with
  | Some move =>
      let '(σ, result) := move σ testBoard in
      (σ, MoveProcessor.moved result)
  | None => (σ, false)
  end.

End Store.

(** * Notions used to state the properties

    These are not code of the repository: they describe lines, rows
    and grids as values, and the proofs below relate the loops of the
    source to them. *)

Module Notions.
Import Board MoveProcessor.

(** The sum of a list of numbers. *)
Definition sumZ (l : list Z) : Z := foldr Z.add 0%Z l.

(** The total of all tile values of a board. *)
Definition boardTotal (b : Board) : Z := sumZ (map sumZ (grid b)).

(** The non-zero values of a row, in order. *)
Definition nonZero (r : list Z) : list Z := filter (λ v, v ≠ 0%Z) r.

(** A line written back into a row of [n] cells: cell [col] receives
    [col < line.length ? line[col] : 0]. *)
Definition padLine (n : nat) (l : list Z) : list Z :=
  map (λ col, if col <? length l then nth col l 0%Z else 0%Z) (seq 0 n).

(** A row after a move to the left. *)
Definition slideRow (n : nat) (r : list Z) : list Z :=
  padLine n (line (mergeLine (nonZero r))).

(** The score a row earns in a move to the left. *)
Definition rowScore (r : list Z) : Z := lineScore (mergeLine (nonZero r)).

(** The transposed grid: cell (row, col) holds the old cell (col, row). *)
Definition transposed (n : nat) (g : list (list Z)) : list (list Z) :=
  map (λ row, map (λ col, cellAt g col row) (seq 0 n)) (seq 0 n).

(** Two equal neighbours, both non-zero, somewhere in a row. *)
Fixpoint hasEqualNeighbours (r : list Z) : bool :=
  match r with
  | x :: tail =>
      match tail with
      | y :: _ => ((x =? y)%Z && negb (x =? 0)%Z) || hasEqualNeighbours tail
      | [] => false
      end
  | [] => false
  end.

(** The values [mergeLine] produces by merging two equal neighbours:
    scanning left to right, a pair of equal neighbours yields their
    double and is passed over, any other element is passed over alone. *)
Fixpoint mergedValues (l : list Z) : list Z :=
  match l with
  | x :: tail =>
      match tail with
      | y :: tail' =>
          if (x =? y)%Z then (x * 2)%Z :: mergedValues tail'
          else mergedValues tail
      | [] => []
      end
  | [] => []
  end.

(** The number of non-zero cells of a board. *)
Definition tileCount (b : Board) : nat :=
  length (filter (λ v, v ≠ 0%Z) (concat (grid b))).

(** No cell of the board holds a negative number. *)
Definition nonNegative (b : Board) : Prop :=
  Forall (Forall (λ v, (0 ≤ v)%Z)) (grid b).

(** What the proofs need of a move function: on a well-formed board
    it keeps the shape, reports [moved = false] exactly when it leaves
    the board as it was, and keeps the total of the tiles; on a board
    without negative cells it leaves such a board and a score that is
    not negative. *)
Definition soundMove (move : Board → Board * MoveResult) : Prop :=
  ∀ b, wf b →
    wf (move b).1 ∧ size (move b).1 = size b
    ∧ (moved (move b).2 = false ↔ (move b).1 = b)
    ∧ boardTotal (move b).1 = boardTotal b
    ∧ (nonNegative b →
       nonNegative (move b).1 ∧ (0 ≤ score (move b).2)%Z).

(** What the proofs need of a transform of the board: it keeps the
    shape and the total, undoes itself, and brings in no negative
    cell. *)
Definition soundTransform (T : Board → Board) : Prop :=
  ∀ b, wf b →
    wf (T b) ∧ size (T b) = size b ∧ T (T b) = b
    ∧ boardTotal (T b) = boardTotal b
    ∧ (nonNegative b → nonNegative (T b)).

(** Every tile of the board is a 2 or a 4. *)
Definition freshTiles (b : Board) : Prop :=
  ∀ row col, row < size b → col < size b →
    cellAt (grid b) row col ≠ 0%Z →
    cellAt (grid b) row col = 2%Z ∨ cellAt (grid b) row col = 4%Z.

(** Some cell of the board holds [v]. *)
Definition holds (b : Board) (v : Z) : Prop :=
  ∃ row col, row < size b ∧ col < size b ∧ cellAt (grid b) row col = v.

(** The invariant of an engine: its size is the size of its board,
    the board is well formed, and the counters are not negative.  The
    constructor establishes it; [initializeGame] and [move] keep it. *)
Definition valid (e : GameEngine.GameEngine) : Prop :=
  GameEngine.size e = size (GameEngine.board e)
  ∧ wf (GameEngine.board e)
  ∧ (0 ≤ GameEngine.score e)%Z ∧ (0 ≤ GameEngine.moveCount e)%Z.

(** [movesFrom e inputs e' results]: calling [move] with the inputs
    one after the other, from the engine [e], returns [results] and
    leaves the engine [e']. *)
Inductive movesFrom :
    GameEngine.GameEngine → list (GameEngine.argument * nat * bool) →
    GameEngine.GameEngine → list bool → Prop :=
  | movesFrom_nil e : movesFrom e [] e []
  | movesFrom_cons e direction pick small e1 result inputs e2 results :
      GameEngine.move e direction pick small = GameEngine.Returns (e1, result) →
      movesFrom e1 inputs e2 results →
      movesFrom e ((direction, pick, small) :: inputs) e2 (result :: results).

(** The engines a program obtains from the constructor by calls of
    [initializeGame] (or [restart]) and [move] that return. *)
Inductive reachable : GameEngine.GameEngine → Prop :=
  | reachable_new size e :
      GameEngine.new size = GameEngine.Returns e → reachable e
  | reachable_initializeGame e pick1 small1 pick2 small2 e' :
      reachable e →
      GameEngine.initializeGame e pick1 small1 pick2 small2
      = GameEngine.Returns e' →
      reachable e'
  | reachable_move e direction pick small e' result :
      reachable e →
      GameEngine.move e direction pick small = GameEngine.Returns (e', result) →
      reachable e'.

(** The four directions. *)
Definition directions : list string := ["left"; "right"; "up"; "down"].

(** The range in which the numbers of the source are the integers of
    the model.  A JavaScript number holds every integer of magnitude
    below 2^53, and adds two of them exactly when the sum is below
    2^53 in magnitude as well; above that, [score += mergedValue]
    rounds.  When the magnitudes of the values of a line add up to
    less than 2^53, every value of the line, every double that
    [mergeLine] forms and every partial sum of its score stays in
    that range. *)
Definition exactLine (l : list Z) : Prop :=
  (sumZ (map Z.abs l) < 2 ^ 53)%Z.

(** The same bound for all the cells of a board together. *)
Definition exactBoard (b : Board) : Prop :=
  (sumZ (map sumZ (map (map Z.abs) (grid b))) < 2 ^ 53)%Z.

End Notions.

(** * Sample boards and engines

    Concrete inputs on which the statements below are exercised. *)

Module Samples.
Import Board MoveProcessor.

(** A board of size 4 whose first row is [r] and whose other rows are
    empty. *)
Definition firstRow (r : list Z) : Board :=
  {| size := 4; grid := [r; [0; 0; 0; 0]; [0; 0; 0; 0]; [0; 0; 0; 0]]%Z |}.

(** A board of size 4 whose row [k] is [r] and whose other rows are
    empty. *)
Definition onlyRow (k : nat) (r : list Z) : Board :=
  {| size := 4; grid := <[k := r]> (replicate 4 [0; 0; 0; 0]%Z) |}.

(** A board one move away from the end of the game. *)
Definition lastMove : Board :=
  {| size := 4;
     grid := [[2; 4; 2; 4]; [4; 2; 4; 2]; [2; 4; 2; 4]; [8; 16; 32; 0]]%Z |}.

(** An engine of size 4 in play on the board [b]. *)
Definition playing (b : Board) : GameEngine.GameEngine :=
  {| GameEngine.size := 4; GameEngine.board := b; GameEngine.score := 0;
     GameEngine.isWin := false; GameEngine.isGameOver := false;
     GameEngine.moveCount := 0; GameEngine.previousState := None;
     GameEngine.errorCount := 0; GameEngine.maxErrors := 10;
     GameEngine.lastError := None |}.

(** The engine a call of [move] leaves, when it returns. *)
Definition after (e : GameEngine.GameEngine) (direction : string)
    (pick : nat) (small : bool) : GameEngine.GameEngine :=
  match GameEngine.move e (GameEngine.Str direction) pick small with
  | GameEngine.Returns (e', _) => e'
  | GameEngine.Throws _ => e
  end.

(** The engine [initializeGame] leaves, when it returns. *)
Definition initialized (e : GameEngine.GameEngine)
    (pick1 : nat) (small1 : bool) (pick2 : nat) (small2 : bool)
    : GameEngine.GameEngine :=
  match GameEngine.initializeGame e pick1 small1 pick2 small2 with
  | GameEngine.Returns e' => e'
  | GameEngine.Throws _ => e
  end.

End Samples.

(** * The code around the core

    The recovery methods of [GameEngine], the leaderboard of
    [ScoreManager], the way [InputHandler] turns keys and swipes into
    directions, and the search of [GameUI] for the place a tile went
    to. *)

(** ** GameEngine: the recovery methods *)

Module Recovery.
Import Board.

(** [restoreState()].  In the source [this.board] becomes the very
    object kept in [this.previousState]; the model copies its
    contents, which is what a reader of [board] sees.  The next call
    of [move] replaces [previousState] by a new clone before it
    writes to the board. *)
Definition restoreState (e : GameEngine.GameEngine) : GameEngine.GameEngine :=
  match GameEngine.previousState e with
  | Some previous =>
      {| GameEngine.size := GameEngine.size e;
         GameEngine.board := GameEngine.savedBoard previous;
         GameEngine.score := GameEngine.savedScore previous;
         GameEngine.isWin := GameEngine.savedIsWin previous;
         GameEngine.isGameOver := GameEngine.savedIsGameOver previous;
         GameEngine.moveCount := GameEngine.savedMoveCount previous;
         GameEngine.previousState := GameEngine.previousState e;
         GameEngine.errorCount := GameEngine.errorCount e;
         GameEngine.maxErrors := GameEngine.maxErrors e;
         GameEngine.lastError := GameEngine.lastError e |}
  | None => e
  end.

(** The [try] block of [attemptMoveRecovery()]; with the board
    present, [validateGameState] does not throw and neither does the
    block. *)
Definition attemptMoveRecovery (e : GameEngine.GameEngine)
    : GameEngine.GameEngine :=
  match GameEngine.previousState e with
  | Some _ => restoreState e
  | None => GameEngine.validateGameState e
  end.

(** The [try] block of [attemptRecovery()].  The board is present, so
    it is not replaced, and nothing in the block throws.  The four
    last arguments are the random draws of the two calls of
    [addRandomTile]. *)
Definition attemptRecovery (e : GameEngine.GameEngine)
    (pick1 : nat) (small1 : bool) (pick2 : nat) (small2 : bool)
    : GameEngine.GameEngine :=
  let e := GameEngine.withBoard e (Board.initialize (GameEngine.board e)) in
  let e := GameEngine.withScore e (Z.max 0 (GameEngine.score e)) in
  let e := GameEngine.withMoveCount e (Z.max 0 (GameEngine.moveCount e)) in
  let e := GameEngine.withIsWin e false in
  let e := GameEngine.withIsGameOver e false in
  let e := GameEngine.withBoard e
             (addRandomTile (GameEngine.board e) pick1 small1).1 in
  GameEngine.withBoard e (addRandomTile (GameEngine.board e) pick2 small2).1.

End Recovery.

(** ** ScoreManager

    The leaderboard kept in [this.scores].  Writing it to
    [localStorage] ([saveScores]) and showing it ([updateDisplay],
    [highlightNewScore]) do not change [this.scores] and cannot throw
    into the caller, and are left out.  The date of a new record,
    [new Date().toLocaleDateString('zh-TW')], is the argument
    [today]. *)

Module ScoreManager.

Record Score := mkScore { value : Z; date : string }.

Record ScoreManager := mk { maxScores : nat; scores : list Score }.

(** The default leaderboard of [loadScores] and [clearScores]:
    [Array(this.maxScores).fill(null).map(() => ({value: 0, date}))]. *)
Definition emptyScores (maxScores : nat) (today : string) : list Score :=
  replicate maxScores {| value := 0; date := today |}.

(** [loadScores()].  [saved] is the array read from the storage when
    there is an entry that parses to an array of records with a
    numeric [value] and a string [date]; [None] stands for every
    other case (no entry, a parse error, another shape). *)
Definition loadScores (maxScores : nat) (saved : option (list Score))
    (today : string) : list Score :=
  match saved with
  | Some scores => take maxScores scores
  | None => emptyScores maxScores today
  end.

(** [new ScoreManager()] *)
Definition new (saved : option (list Score)) (today : string) : ScoreManager :=
  {| maxScores := 3; scores := loadScores 3 saved today |}.

(** [this.scores[this.maxScores - 1].value]: reading [value] of a
    missing element throws a [TypeError]. *)
Definition lowestScore (m : ScoreManager) : GameEngine.outcome Z :=
  match maxScores m with
  | 0 => GameEngine.Throws "TypeError"
  | S k =>
      match scores m !! k with
      | Some s => GameEngine.Returns (value s)
      | None => GameEngine.Throws "TypeError"
      end
  end.

(** The loop of [checkAndUpdateScore] that looks for the first record
    with a value below [newScore]; [None] is the initial [-1]. *)
Definition findInsertIndex (newScore : Z) (scores : list Score) : option nat :=
  for_range (length scores) (λ i insertIndex,
    match insertIndex, scores !! i with
    | Some _, _ => insertIndex
    | None, Some s => if (value s <? newScore)%Z then Some i else None
    | None, None => None
    end) None.

(** [checkAndUpdateScore(newScore)] for a number [newScore]: the
    manager afterwards and the rank returned ([None] is [null]). *)
Definition checkAndUpdateScore (m : ScoreManager) (newScore : Z)
    (today : string) : GameEngine.outcome (ScoreManager * option nat) :=
  if (newScore <=? 0)%Z then GameEngine.Returns (m, None)
  else
    match lowestScore m with
    | GameEngine.Throws msg => GameEngine.Throws msg
    | GameEngine.Returns lowest =>
        if (newScore <=? lowest)%Z then GameEngine.Returns (m, None)
        else
          let newRecord := {| value := newScore; date := today |} in
          match findInsertIndex newScore (scores m) with
          | Some insertIndex =>
              let spliced :=
                take insertIndex (scores m) ++ newRecord
                  :: drop insertIndex (scores m) in
              GameEngine.Returns
                ({| maxScores := maxScores m;
                    scores := take (maxScores m) spliced |},
                 Some insertIndex)
          | None => GameEngine.Returns (m, None)
          end
    end.

(** [getBestScore()] *)
Definition getBestScore (m : ScoreManager) : Z :=
  match scores m with
  | s :: _ => value s
  | [] => 0%Z
  end.

(** [clearScores()] *)
Definition clearScores (m : ScoreManager) (today : string) : ScoreManager :=
  {| maxScores := maxScores m; scores := emptyScores (maxScores m) today |}.

(** [canEnterLeaderboard(score)] for a number [score]. *)
Definition canEnterLeaderboard (m : ScoreManager) (score : Z)
    : GameEngine.outcome bool :=
  if (score <=? 0)%Z then GameEngine.Returns false
  else
    match lowestScore m with
    | GameEngine.Throws msg => GameEngine.Throws msg
    | GameEngine.Returns lowest => GameEngine.Returns (lowest <? score)%Z
    end.

End ScoreManager.

(** ** InputHandler: from keys and swipes to directions *)

Module InputHandler.

(** The handler of [keydown] installed by [bindKeyboard()]: the
    direction it passes to [handleMove], [None] when it returns
    without calling it. *)
Definition handleKeyboard (inputDisabled isInputBlocked : bool)
    (key : string) : option string :=
  if inputDisabled || isInputBlocked then None
  else if bool_decide (key ∈ ["ArrowLeft"; "a"; "A"]) then Some "left"
  else if bool_decide (key ∈ ["ArrowRight"; "d"; "D"]) then Some "right"
  else if bool_decide (key ∈ ["ArrowUp"; "w"; "W"]) then Some "up"
  else if bool_decide (key ∈ ["ArrowDown"; "s"; "S"]) then Some "down"
  else None.

(** [handleSwipe(deltaX, deltaY)]: the direction it passes to
    [handleMove], [None] when it returns without calling it.  The
    displacements are compared and never added, so whole numbers stand
    for them. *)
Definition handleSwipe (minSwipeDistance deltaX deltaY : Z) : option string :=
  let absDeltaX := Z.abs deltaX in
  let absDeltaY := Z.abs deltaY in
  if (Z.max absDeltaX absDeltaY <? minSwipeDistance)%Z then None
  else
    Some (if (absDeltaY <? absDeltaX)%Z
          then (if (0 <? deltaX)%Z then "right" else "left")
          else (if (0 <? deltaY)%Z then "down" else "up")).

(** [validateDirection(direction)] *)
Definition validateDirection (direction : GameEngine.argument) : bool :=
  match direction with
  | GameEngine.Str s => bool_decide (s ∈ ["left"; "right"; "up"; "down"])
  | GameEngine.NotAString => false
  end.

End InputHandler.

(** ** GameUI: where a tile went *)

Module GameUI.
Import Board.

(** A tile as [captureCurrentTileState] records it. *)
Record TileState := mkTile { row : Z; col : Z; value : Z }.

(** The record [findNewPosition] returns. *)
Record NewPosition := mkPosition {
  newRow : Z; newCol : Z; newValue : Z; isMerged : bool
}.

(** [for (let i = from; i <= to; i++)]: the values of [i]. *)
Definition upTo (from to : Z) : list Z :=
  map (λ k, (from + Z.of_nat k)%Z) (seq 0 (Z.to_nat (to - from + 1))).

(** [for (let i = from; i >= to; i--)]: the values of [i]. *)
Definition downTo (from to : Z) : list Z :=
  map (λ k, (from - Z.of_nat k)%Z) (seq 0 (Z.to_nat (from - to + 1))).

(** [getSearchOrder(startRow, startCol, direction)] *)
Definition getSearchOrder (startRow startCol : Z) (direction : string)
    : list (Z * Z) :=
  if String.eqb direction "left"
  then map (λ col, (startRow, col)) (upTo 0 startCol)
  else if String.eqb direction "right"
  then map (λ col, (startRow, col)) (downTo 3 startCol)
  else if String.eqb direction "up"
  then map (λ row, (row, startCol)) (upTo 0 startRow)
  else if String.eqb direction "down"
  then map (λ row, (row, startCol)) (downTo 3 startRow)
  else [].

(** The test of [findNewPosition] on one position of the search
    order; a [null] cell is not [> 0]. *)
Definition matches (tileState : TileState) (afterBoard : Board)
    (pos : Z * Z) : option NewPosition :=
  match getCell afterBoard pos.1 pos.2 with
  | Some cellValue =>
      if (0 <? cellValue)%Z
         && ((cellValue =? value tileState)%Z
             || (cellValue =? value tileState * 2)%Z)
      then Some {| newRow := pos.1; newCol := pos.2; newValue := cellValue;
                   isMerged := negb (cellValue =? value tileState)%Z |}
      else None
  | None => None
  end.

(** [findNewPosition(tileState, afterBoard, direction)]: the first
    position of the search order that passes the test. *)
Definition findNewPosition (tileState : TileState) (afterBoard : Board)
    (direction : string) : option NewPosition :=
  fold_left (λ found pos,
    match found with
    | Some _ => found
    | None => matches tileState afterBoard pos
    end) (getSearchOrder (row tileState) (col tileState) direction) None.

End GameUI.

(** * Further notions *)

Module MoreNotions.
Import Board MoveProcessor Notions.

(** The positions of a board of size [n], row by row. *)
Definition allPositions (n : nat) : list (nat * nat) :=
  flat_map (λ row, map (λ col, (row, col)) (seq 0 n)) (seq 0 n).

(** Some cell of the board is empty. *)
Definition hasEmpty (b : Board) : Prop :=
  ∃ row col, row < size b ∧ col < size b ∧ cellAt (grid b) row col = 0%Z.

(** Column [col] of a grid of [n] rows, top to bottom. *)
Definition column (n : nat) (g : list (list Z)) (col : nat) : list Z :=
  map (λ row, cellAt g row col) (seq 0 n).

(** Row [row] of a grid of [n] columns, left to right. *)
Definition rowAt (n : nat) (g : list (list Z)) (row : nat) : list Z :=
  map (λ col, cellAt g row col) (seq 0 n).

(** Line [k] of the grid as a move in [direction] meets it, the cell
    at the edge moved to first: a row from the left or from the right,
    a column from the top or from the bottom. *)
Definition lineTowards (n : nat) (g : list (list Z)) (direction : string)
    (k : nat) : list Z :=
  if String.eqb direction "left" then rowAt n g k
  else if String.eqb direction "right" then reverse (rowAt n g k)
  else if String.eqb direction "up" then column n g k
  else if String.eqb direction "down" then reverse (column n g k)
  else [].

(** The lines of the grid as a move in [direction] meets them. *)
Definition linesTowards (n : nat) (g : list (list Z)) (direction : string)
    : list (list Z) :=
  map (lineTowards n g direction) (seq 0 n).

(** [v] is 2, 4, 8, ... *)
Definition powerOfTwo (v : Z) : Prop :=
  ∃ k : nat, 0 < k ∧ v = (2 ^ Z.of_nat k)%Z.

(** Every tile of the board is a power of two. *)
Definition tilesArePowers (b : Board) : Prop :=
  ∀ row col, row < size b → col < size b →
    cellAt (grid b) row col = 0%Z ∨ powerOfTwo (cellAt (grid b) row col).

(** The leaderboard is in descending order of value. *)
Definition descending (scores : list ScoreManager.Score) : Prop :=
  ∀ i j a b, i < j → scores !! i = Some a → scores !! j = Some b →
    (ScoreManager.value b ≤ ScoreManager.value a)%Z.

(** The direction opposite to a direction. *)
Definition opposite (direction : string) : string :=
  if String.eqb direction "left" then "right"
  else if String.eqb direction "right" then "left"
  else if String.eqb direction "up" then "down"
  else if String.eqb direction "down" then "up"
  else direction.

End MoreNotions.

(** * Proofs *)

(** Case analysis on the [decide]s of a statement about cells. *)
Ltac cell_cases :=
  repeat case_decide; simplify_eq; try reflexivity; try (exfalso; lia);
  try (f_equal; lia).

(** ** The definitions on concrete boards *)

Section Examples.
Import Board MoveProcessor Samples.

Example transpose_3 :
  transpose {| size := 3; grid := [[1; 2; 3]; [4; 5; 6]; [7; 8; 9]]%Z |}
  = {| size := 3; grid := [[1; 4; 7]; [2; 5; 8]; [3; 6; 9]]%Z |}.
Proof. reflexivity. Qed.

(** With an odd size the middle column is swapped with itself. *)
Example reverseRows_3 :
  reverseRows {| size := 3; grid := [[1; 2; 3]; [4; 5; 6]; [7; 8; 9]]%Z |}
  = {| size := 3; grid := [[3; 2; 1]; [6; 5; 4]; [9; 8; 7]]%Z |}.
Proof. reflexivity. Qed.

Example moveLeft_gap :
  moveLeft (firstRow [0; 2; 0; 4]%Z)
  = (firstRow [2; 4; 0; 0]%Z, {| moved := true; score := 0 |}).
Proof. reflexivity. Qed.

Example moveDown_column :
  moveDown {| size := 4;
              grid := [[2; 0; 0; 0]; [2; 0; 0; 0];
                       [4; 0; 0; 0]; [4; 0; 0; 0]]%Z |}
  = ({| size := 4;
        grid := [[0; 0; 0; 0]; [0; 0; 0; 0];
                 [4; 0; 0; 0]; [8; 0; 0; 0]]%Z |},
     {| moved := true; score := 12 |}).
Proof. reflexivity. Qed.

Example moveUp_column :
  moveUp {| size := 4;
            grid := [[2; 0; 0; 0]; [2; 0; 0; 0];
                     [2; 0; 0; 0]; [0; 0; 0; 0]]%Z |}
  = ({| size := 4;
        grid := [[4; 0; 0; 0]; [2; 0; 0; 0];
                 [0; 0; 0; 0]; [0; 0; 0; 0]]%Z |},
     {| moved := true; score := 4 |}).
Proof. reflexivity. Qed.

Example canMove_packed :
  canMove (firstRow [2; 4; 0; 0]%Z) "left" = false
  ∧ canMove (firstRow [2; 4; 0; 0]%Z) "right" = true
  ∧ canMove (firstRow [2; 4; 0; 0]%Z) "up" = false
  ∧ canMove (firstRow [2; 4; 0; 0]%Z) "down" = true
  ∧ canMove (firstRow [2; 4; 0; 0]%Z) "sideways" = false.
Proof. repeat split; reflexivity. Qed.

Example getEmptyCells_2 :
  getEmptyCells {| size := 2; grid := [[2; 0]; [0; 4]]%Z |} = [(0, 1); (1, 0)].
Proof. reflexivity. Qed.

Example addRandomTile_2 :
  addRandomTile {| size := 2; grid := [[2; 0]; [0; 4]]%Z |} 3 false
  = ({| size := 2; grid := [[2; 0]; [4; 4]]%Z |}, true)
  ∧ addRandomTile {| size := 2; grid := [[2; 8]; [16; 4]]%Z |} 3 false
    = ({| size := 2; grid := [[2; 8]; [16; 4]]%Z |}, false).
Proof. split; reflexivity. Qed.

Example mergeLoopAt_224 :
  mergeLoopAt 4 [2; 2; 4]%Z 0 [] 0%Z
  = Some {| line := [4; 4]%Z; lineScore := 4 |}.
Proof. reflexivity. Qed.

Example new_engine_sizes :
  GameEngine.new 1 = GameEngine.Throws "Invalid grid size"
  ∧ GameEngine.new 11 = GameEngine.Throws "Invalid grid size"
  ∧ GameEngine.new 4 = GameEngine.Returns (playing (Board.new 4)).
Proof. repeat split; reflexivity. Qed.
End Examples.

(** ** Loops *)

Section Loops.
Context {S : Type}.
Implicit Types (body : nat → S → S) (s : S).

Lemma for_range_0 body s : for_range 0 body s = s.
Proof. reflexivity. Qed.

Lemma for_range_S n body s :
  for_range (Datatypes.S n) body s = body n (for_range n body s).
Proof.
  unfold for_range. rewrite seq_S, fold_left_app. reflexivity.
Qed.

(** The invariant rule of a counted loop. *)
Lemma for_range_inv (P : nat → S → Prop) n body s :
  P 0 s →
  (∀ i s, i < n → P i s → P (Datatypes.S i) (body i s)) →
  P n (for_range n body s).
Proof.
  intros H0 Hstep. induction n as [|n IH].
  - exact H0.
  - rewrite for_range_S. apply Hstep; [lia|]. apply IH.
    intros i s' Hi. apply Hstep. lia.
Qed.

(** Two loops whose bodies agree below the bound are the same. *)
Lemma for_range_ext n body body' s :
  (∀ i s, i < n → body i s = body' i s) →
  for_range n body s = for_range n body' s.
Proof.
  intros H. induction n as [|n IH]; [reflexivity|].
  rewrite !for_range_S, IH by (intros; apply H; lia). apply H. lia.
Qed.

(** A state the body leaves alone is left alone by the loop. *)
Lemma for_range_fixed n body s :
  (∀ i, body i s = s) → for_range n body s = s.
Proof.
  intros H. induction n as [|n IH]; [reflexivity|].
  rewrite for_range_S, IH. apply H.
Qed.
End Loops.

(** A relation between the states of two loops that the bodies keep
    holds between the results. *)
Lemma for_range_sim {S T : Type} (R : S → T → Prop) n
    (body : nat → S → S) (step : nat → T → T) (s : S) (t : T) :
  R s t →
  (∀ i s t, i < n → R s t → R (body i s) (step i t)) →
  R (for_range n body s) (for_range n step t).
Proof.
  intros H0 Hstep. induction n as [|n IH]; [exact H0|].
  rewrite !for_range_S. apply Hstep; [lia|]. apply IH.
  intros i s1 t1 Hi. apply Hstep. lia.
Qed.

Lemma fold_left_sim {S T A : Type} (R : S → T → Prop)
    (f : S → A → S) (g : T → A → T) (l : list A) (s : S) (t : T) :
  R s t →
  (∀ x s t, R s t → R (f s x) (g t x)) →
  R (fold_left f l s) (fold_left g l t).
Proof.
  intros H0 Hstep. revert s t H0.
  induction l as [|x l IH]; intros s t H0; [exact H0|].
  simpl. apply IH, Hstep, H0.
Qed.

(** ** Cells of a board *)

Section Cells.
Import Board.
Implicit Types (b : Board) (g : list (list Z)).

Lemma wf_length b : wf b → length (grid b) = size b.
Proof. intros [H _]. exact H. Qed.

Lemma wf_row b row r : wf b → grid b !! row = Some r → length r = size b.
Proof.
  intros [_ H] Hr. rewrite Forall_forall in H. apply H.
  apply list_elem_of_lookup. eauto.
Qed.

Lemma wf_lookup b row : wf b → row < size b → ∃ r, grid b !! row = Some r.
Proof.
  intros Hwf Hrow. apply lookup_lt_is_Some. rewrite wf_length; assumption.
Qed.

Lemma wf_initialize b : wf (initialize b).
Proof.
  split; simpl.
  - apply length_replicate.
  - apply Forall_forall. intros r Hr.
    apply elem_of_replicate in Hr as [-> _].
    apply length_replicate.
Qed.

Lemma wf_new n : wf (new n).
Proof. apply wf_initialize. Qed.

Lemma size_new n : size (new n) = n.
Proof. reflexivity. Qed.

Lemma cellAt_replicate n m v row col :
  row < n → col < m → cellAt (replicate n (replicate m v)) row col = v.
Proof.
  intros Hr Hc. unfold cellAt.
  rewrite lookup_replicate_2 by assumption. simpl.
  rewrite lookup_replicate_2 by assumption. reflexivity.
Qed.

Lemma size_setCell b row col v : size (setCell b row col v) = size b.
Proof. unfold setCell. case_match; reflexivity. Qed.

Lemma wf_setCell b row col v : wf b → wf (setCell b row col v).
Proof.
  intros [Hlen Hrows]. unfold setCell. case_match; [|split; assumption].
  split; simpl; unfold storeAt.
  - rewrite length_alter. exact Hlen.
  - apply Forall_alter; [exact Hrows|].
    intros r _ Hr. rewrite length_insert. exact Hr.
Qed.

(** Inside the board [getCell] reads the grid. *)
Lemma getCell_inside b row col :
  row < size b → col < size b →
  getCell b (Z.of_nat row) (Z.of_nat col) = Some (cellAt (grid b) row col).
Proof.
  intros Hr Hc. unfold getCell, outOfBounds.
  rewrite !Nat2Z.id.
  replace (Z.of_nat row <? 0)%Z with false by (symmetry; apply Z.ltb_ge; lia).
  replace (Z.of_nat col <? 0)%Z with false by (symmetry; apply Z.ltb_ge; lia).
  replace (Z.of_nat (size b) <=? Z.of_nat row)%Z with false
    by (symmetry; apply Z.leb_gt; lia).
  replace (Z.of_nat (size b) <=? Z.of_nat col)%Z with false
    by (symmetry; apply Z.leb_gt; lia).
  reflexivity.
Qed.

Lemma setCell_inside b row col v :
  row < size b → col < size b →
  setCell b (Z.of_nat row) (Z.of_nat col) v
  = {| size := size b; grid := storeAt (grid b) row col v |}.
Proof.
  intros Hr Hc. unfold setCell. rewrite !Nat2Z.id.
  replace (0 <=? Z.of_nat row)%Z with true by (symmetry; apply Z.leb_le; lia).
  replace (0 <=? Z.of_nat col)%Z with true by (symmetry; apply Z.leb_le; lia).
  replace (Z.of_nat row <? Z.of_nat (size b))%Z with true
    by (symmetry; apply Z.ltb_lt; lia).
  replace (Z.of_nat col <? Z.of_nat (size b))%Z with true
    by (symmetry; apply Z.ltb_lt; lia).
  reflexivity.
Qed.

Lemma cellAt_storeAt_same g row col v r :
  g !! row = Some r → col < length r →
  cellAt (storeAt g row col v) row col = v.
Proof.
  intros Hr Hc. unfold cellAt, storeAt.
  rewrite list_lookup_alter_eq, Hr. simpl.
  rewrite list_lookup_insert_eq by assumption. reflexivity.
Qed.

Lemma cellAt_storeAt_other g row col v row' col' :
  (row', col') ≠ (row, col) →
  cellAt (storeAt g row col v) row' col' = cellAt g row' col'.
Proof.
  intros Hne. unfold cellAt, storeAt.
  destruct (decide (row' = row)) as [->|Hrow].
  - rewrite list_lookup_alter_eq. destruct (g !! row) as [r|]; [|reflexivity].
    simpl. rewrite list_lookup_insert_ne by congruence. reflexivity.
  - rewrite list_lookup_alter_ne by congruence. reflexivity.
Qed.

(** What a cell holds after [setCell] inside the board. *)
Lemma cellAt_setCell b row col v row' col' :
  wf b → row < size b → col < size b →
  cellAt (grid (setCell b (Z.of_nat row) (Z.of_nat col) v)) row' col'
  = if decide (row' = row ∧ col' = col) then v
    else cellAt (grid b) row' col'.
Proof.
  intros Hwf Hr Hc. rewrite setCell_inside by assumption. simpl.
  case_decide as Heq.
  - destruct Heq as [-> ->].
    destruct (wf_lookup b row Hwf Hr) as [r Hrow].
    apply (cellAt_storeAt_same _ _ _ _ r); [exact Hrow|].
    rewrite (wf_row b row r) by assumption. exact Hc.
  - apply cellAt_storeAt_other. intros [= -> ->]. apply Heq. split; reflexivity.
Qed.

(** Two well-formed grids of one size with the same cells are equal. *)
Lemma grid_ext n g1 g2 :
  length g1 = n → Forall (λ r, length r = n) g1 →
  length g2 = n → Forall (λ r, length r = n) g2 →
  (∀ row col, row < n → col < n → cellAt g1 row col = cellAt g2 row col) →
  g1 = g2.
Proof.
  intros L1 F1 L2 F2 H. apply list_eq_same_length with n; try assumption.
  intros row r1 r2 Hrow H1 H2.
  assert (length r1 = n) as Lr1.
  { rewrite Forall_forall in F1. apply F1, list_elem_of_lookup. eauto. }
  assert (length r2 = n) as Lr2.
  { rewrite Forall_forall in F2. apply F2, list_elem_of_lookup. eauto. }
  apply list_eq_same_length with n; try assumption.
  intros col x y Hcol Hx Hy.
  specialize (H row col Hrow Hcol). unfold cellAt in H.
  rewrite H1, H2 in H. simpl in H. rewrite Hx, Hy in H. exact H.
Qed.

Lemma board_ext b1 b2 :
  wf b1 → wf b2 → size b1 = size b2 →
  (∀ row col, row < size b1 → col < size b1 →
     cellAt (grid b1) row col = cellAt (grid b2) row col) →
  b1 = b2.
Proof.
  destruct b1 as [n1 g1], b2 as [n2 g2]. unfold wf. simpl.
  intros [L1 F1] [L2 F2] <- H. f_equal.
  apply (grid_ext n1); assumption.
Qed.
End Cells.

(** ** The loops of [moveLeft] *)

Section MoveLeft.
Import Board MoveProcessor Notions.
Implicit Types (b : Board) (r : list Z).

Lemma cellAt_row g row r col :
  g !! row = Some r → cellAt g row col = default 0%Z (r !! col).
Proof. intros H. unfold cellAt. rewrite H. reflexivity. Qed.

Lemma nonZero_snoc r x :
  nonZero (r ++ [x]) = if decide (x = 0%Z) then nonZero r else nonZero r ++ [x].
Proof.
  unfold nonZero. rewrite filter_app. cbn.
  case_decide; case_decide; try contradiction;
    rewrite ?app_nil_r; reflexivity.
Qed.

(** The first loop collects the non-zero values of the row. *)
Lemma collectLine_spec b row r :
  wf b → grid b !! row = Some r → collectLine b row = nonZero r.
Proof.
  intros Hwf Hr.
  assert (row < size b) as Hrow.
  { rewrite <- (wf_length b Hwf). eapply lookup_lt_Some; eassumption. }
  assert (length r = size b) as Hlen by (eapply wf_row; eassumption).
  unfold collectLine.
  rewrite <- (take_ge r (size b)) by lia.
  apply (for_range_inv (λ k l, l = nonZero (take k r))).
  - reflexivity.
  - intros k l Hk ->.
    rewrite getCell_inside by assumption. simpl.
    rewrite (cellAt_row _ _ r) by assumption.
    destruct (lookup_lt_is_Some_2 r k) as [x Hx]; [lia|].
    rewrite Hx. simpl.
    rewrite (take_S_r _ _ x) by assumption.
    rewrite nonZero_snoc.
    destruct (Z.eqb_spec x 0); case_decide; try contradiction; reflexivity.
Qed.

(** What the write-back loop does to the cells and to [moved]. *)
Lemma writeLine_spec b row l mv :
  wf b → row < size b →
  let newValue col := if col <? length l then nth col l 0%Z else 0%Z in
  ∃ b', writeLine row l (b, mv)
        = (b', mv || existsb (λ col, bool_decide
                                (cellAt (grid b) row col ≠ newValue col))
                       (seq 0 (size b)))
    ∧ wf b' ∧ size b' = size b
    ∧ ∀ row' col', row' < size b → col' < size b →
        cellAt (grid b') row' col'
        = if decide (row' = row) then newValue col'
          else cellAt (grid b) row' col'.
Proof.
  intros Hwf Hrow newValue. unfold writeLine. simpl.
  pose (P := λ k (st : Board * bool),
    wf st.1 ∧ size st.1 = size b
    ∧ st.2 = mv || existsb (λ col, bool_decide
                          (cellAt (grid b) row col ≠ newValue col)) (seq 0 k)
    ∧ ∀ row' col', row' < size b → col' < size b →
        cellAt (grid st.1) row' col'
        = if decide (row' = row ∧ col' < k) then newValue col'
          else cellAt (grid b) row' col').
  match goal with |- ∃ b', for_range ?n ?body ?s = _ ∧ _ =>
    assert (P (size b) (for_range n body s)) as HP end.
  { apply for_range_inv.
    - repeat split; simpl; try assumption; try apply Hwf.
      + rewrite orb_false_r. reflexivity.
      + intros row' col' _ _. case_decide as H; [lia|reflexivity].
    - intros k [b1 mv1] Hk (Hwf1 & Hs1 & Hmv & Hcells). simpl in *.
      rewrite getCell_inside by lia.
      rewrite Hcells by lia.
      rewrite decide_False by lia.
      fold (newValue k).
      case_bool_decide as Hne; unfold P; cbn [fst snd];
        rewrite seq_S, existsb_app; cbn [existsb Nat.add]; rewrite orb_false_r.
      + rewrite bool_decide_true by (intros Hx; apply Hne; rewrite Hx; reflexivity).
        repeat split; simpl.
        * apply wf_setCell, Hwf1.
        * apply wf_setCell, Hwf1.
        * rewrite size_setCell. exact Hs1.
        * rewrite orb_true_r, orb_true_r. reflexivity.
        * intros row' col' Hr' Hc'.
          rewrite cellAt_setCell by (try assumption; lia).
          case_decide as Heq.
          -- destruct Heq as [-> ->]. rewrite decide_True by lia. reflexivity.
          -- rewrite Hcells by assumption.
             repeat case_decide; try reflexivity; exfalso; intuition lia.
      + assert (cellAt (grid b) row k = newValue k) as Hsame.
        { injection Hne as Hne. exact Hne. }
        rewrite bool_decide_false by (intros Hx; apply Hx, Hsame).
        repeat split; simpl; try apply Hwf1; try assumption.
        * rewrite orb_false_r. exact Hmv.
        * intros row' col' Hr' Hc'. rewrite Hcells by assumption.
          destruct (decide (row' = row ∧ col' = k)) as [[-> ->]|Hother].
          -- rewrite decide_False by lia. rewrite decide_True by lia.
             exact Hsame.
          -- repeat case_decide; try reflexivity; exfalso; intuition lia. }
  destruct (for_range _ _ _) as [b' mv'].
  destruct HP as (Hwf' & Hs' & Hmv' & Hcells'). simpl in *.
  exists b'. repeat split; try assumption; try apply Hwf'.
  - congruence.
  - intros row' col' Hr' Hc'. rewrite Hcells' by assumption.
    case_decide as H1; case_decide as H2; try reflexivity.
    + destruct H1. contradiction.
    + exfalso. apply H1. split; assumption.
Qed.

Lemma length_padLine n l : length (padLine n l) = n.
Proof. unfold padLine. rewrite length_map, length_seq. reflexivity. Qed.

Lemma lookup_padLine n l col :
  col < n →
  padLine n l !! col = Some (if col <? length l then nth col l 0%Z else 0%Z).
Proof.
  intros H. unfold padLine. rewrite list_lookup_fmap, lookup_seq_lt by assumption.
  reflexivity.
Qed.

Lemma sumZ_app l1 l2 : sumZ (l1 ++ l2) = (sumZ l1 + sumZ l2)%Z.
Proof. unfold sumZ. induction l1 as [|x l1 IH]; simpl; lia. Qed.

(** A row differs from the values [f 0 .. f (n-1)] exactly when one
    of its cells does. *)
Lemma existsb_differs (f : nat → Z) r n :
  length r = n →
  existsb (λ col, bool_decide (default 0%Z (r !! col) ≠ f col)) (seq 0 n)
  = bool_decide (map f (seq 0 n) ≠ r).
Proof.
  intros Hlen. destruct (existsb _ _) eqn:E; symmetry.
  - apply bool_decide_eq_true. intros Heq.
    apply existsb_exists in E as (col & Hin & Hne). apply in_seq in Hin.
    apply bool_decide_eq_true in Hne. apply Hne.
    rewrite <- Heq, list_lookup_fmap, lookup_seq_lt by lia. reflexivity.
  - apply bool_decide_eq_false. intros Hne. apply Hne.
    apply list_eq_same_length with n;
      [assumption|rewrite length_map, length_seq; reflexivity|].
    intros col x y Hcol Hx Hy.
    rewrite list_lookup_fmap, lookup_seq_lt in Hx by assumption.
    injection Hx as <-.
    destruct (decide (f col = y)) as [|Hxy]; [assumption|].
    apply not_true_iff_false in E. destruct E.
    apply existsb_exists. exists col. split; [apply in_seq; lia|].
    apply bool_decide_eq_true. rewrite Hy. simpl. congruence.
Qed.

Lemma wf_insert_row b row r :
  wf b → length r = size b →
  wf {| size := size b; grid := <[row := r]> (grid b) |}.
Proof.
  intros [Hlen Hrows] Hr. split; simpl.
  - rewrite length_insert. exact Hlen.
  - apply Forall_insert; assumption.
Qed.

Lemma cellAt_insert_row g row r row' col' :
  row < length g →
  cellAt (<[row := r]> g) row' col'
  = if decide (row' = row) then default 0%Z (r !! col') else cellAt g row' col'.
Proof.
  intros Hrow. unfold cellAt. case_decide as H.
  - subst. rewrite list_lookup_insert_eq by assumption. reflexivity.
  - rewrite list_lookup_insert_ne by congruence. reflexivity.
Qed.

(** One iteration of the row loop of [moveLeft]: the row is replaced
    by the slid row, [moved] records whether that changes it. *)
Lemma moveLeft_row b row r mv :
  wf b → grid b !! row = Some r →
  writeLine row (line (mergeLine (collectLine b row))) (b, mv)
  = ({| size := size b; grid := <[row := slideRow (size b) r]> (grid b) |},
     mv || bool_decide (slideRow (size b) r ≠ r)).
Proof.
  intros Hwf Hr.
  assert (row < size b) as Hrow.
  { rewrite <- (wf_length b Hwf). eapply lookup_lt_Some; eassumption. }
  assert (length r = size b) as Hlen by (eapply wf_row; eassumption).
  rewrite (collectLine_spec b row r) by assumption.
  destruct (writeLine_spec b row (line (mergeLine (nonZero r))) mv Hwf Hrow)
    as (b' & -> & Hwf' & Hs' & Hcells).
  f_equal.
  - apply board_ext; [assumption| |assumption|].
    + apply wf_insert_row; [assumption|apply length_padLine].
    + intros row' col' Hr' Hc'. rewrite Hs' in Hr', Hc'.
      rewrite Hcells by assumption. simpl.
      rewrite cellAt_insert_row by (rewrite (wf_length b Hwf); assumption).
      case_decide; [|reflexivity].
      unfold slideRow. rewrite lookup_padLine by assumption. reflexivity.
  - f_equal. unfold slideRow, padLine.
    rewrite <- (existsb_differs _ r (size b)) by assumption.
    unfold cellAt. rewrite Hr. reflexivity.
Qed.

Lemma length_slideRow n r : length (slideRow n r) = n.
Proof. apply length_padLine. Qed.

(** The board while the row loop runs: the first [k] rows are slid. *)
Lemma wf_partly_slid b k :
  wf b →
  wf {| size := size b;
        grid := map (slideRow (size b)) (take k (grid b)) ++ drop k (grid b) |}.
Proof.
  intros [Hlen Hrows]. split; simpl.
  - rewrite length_app, length_map, length_take, length_drop. lia.
  - apply Forall_app. split.
    + apply Forall_forall. intros r Hr.
      apply list_elem_of_In, in_map_iff in Hr as (r0 & <- & _).
      apply length_slideRow.
    + apply Forall_drop. exact Hrows.
Qed.

Lemma differs_snoc (l1 l2 : list (list Z)) r1 r2 :
  length l1 = length l2 →
  bool_decide (l1 ++ [r1] ≠ l2 ++ [r2])
  = bool_decide (l1 ≠ l2) || bool_decide (r1 ≠ r2).
Proof.
  intros Hlen. apply eq_true_iff_eq.
  rewrite orb_true_iff, !bool_decide_eq_true. split.
  - intros Hne. destruct (decide (l1 = l2)) as [->|]; [right|left; assumption].
    congruence.
  - intros [Hne|Hne] Heq; apply app_inj_1 in Heq as [? ?];
      try assumption; apply Hne; congruence.
Qed.

(** [moveLeft] slides every row; [moved] tells whether the grid
    changed; the score is the sum of the scores of the rows. *)
Theorem moveLeft_spec b :
  wf b →
  moveLeft b
  = ({| size := size b; grid := map (slideRow (size b)) (grid b) |},
     {| moved := bool_decide (map (slideRow (size b)) (grid b) ≠ grid b);
        score := sumZ (map rowScore (grid b)) |}).
Proof.
  intros Hwf. unfold moveLeft.
  pose (state := λ k : nat,
    ({| size := size b;
        grid := map (slideRow (size b)) (take k (grid b)) ++ drop k (grid b) |},
     bool_decide (map (slideRow (size b)) (take k (grid b)) ≠ take k (grid b)),
     sumZ (map rowScore (take k (grid b))))).
  match goal with |- context [for_range ?n ?body ?s] =>
    assert (for_range n body s = state n) as -> end.
  { apply (for_range_inv (λ k st, st = state k)).
    - unfold state. simpl. rewrite drop_0. destruct b; reflexivity.
    - intros k st Hk ->. unfold state at 1.
      destruct (wf_lookup b k Hwf Hk) as [r Hr].
      assert (length (take k (grid b)) = k) as Hlk.
      { rewrite length_take, (wf_length b Hwf). lia. }
      pose proof (wf_partly_slid b k Hwf) as Hwfk.
      assert (grid {| size := size b;
                      grid := map (slideRow (size b)) (take k (grid b))
                              ++ drop k (grid b) |} !! k = Some r) as Hrk.
      { simpl. rewrite lookup_app_r by (rewrite length_map; lia).
        rewrite length_map, Hlk, Nat.sub_diag, lookup_drop, Nat.add_0_r.
        exact Hr. }
      rewrite (moveLeft_row _ k r _ Hwfk Hrk), (collectLine_spec _ k r Hwfk Hrk).
      unfold state. simpl.
      rewrite (take_S_r _ _ r) by assumption.
      rewrite !map_app. simpl.
      rewrite insert_app_r_alt by (rewrite length_map; lia).
      rewrite length_map, Hlk, Nat.sub_diag.
      rewrite (drop_S _ r k) by assumption. simpl.
      rewrite <- app_assoc. simpl.
      rewrite differs_snoc by (rewrite length_map; reflexivity).
      rewrite sumZ_app. simpl. rewrite Z.add_0_r. reflexivity. }
  unfold state.
  rewrite take_ge, drop_ge, app_nil_r by (rewrite (wf_length b Hwf); lia).
  reflexivity.
Qed.
End MoveLeft.




(** ** The geometric transforms: [reverseRows] and [transpose] *)

Section Transforms.
Import Board MoveProcessor Notions.
Implicit Types (b : Board).

Lemma halfCols_bounds n : n ≤ 2 * halfCols n ≤ n + 1.
Proof.
  unfold halfCols. pose proof (Nat.div_mod_eq (n + 1) 2) as H.
  pose proof (Nat.mod_upper_bound (n + 1) 2). lia.
Qed.

(** The inner loop of [reverseRows] mirrors one row. *)
Lemma reverseRows_row b row :
  wf b → row < size b →
  ∃ b',
    for_range (halfCols (size b)) (λ col board,
      let other := (Z.of_nat (size board) - 1 - Z.of_nat col)%Z in
      let temp := numberOf (getCell board (Z.of_nat row) (Z.of_nat col)) in
      let board := setCell board (Z.of_nat row) (Z.of_nat col)
                     (numberOf (getCell board (Z.of_nat row) other)) in
      setCell board (Z.of_nat row) other temp) b = b'
    ∧ wf b' ∧ size b' = size b
    ∧ ∀ r c, r < size b → c < size b →
        cellAt (grid b') r c
        = if decide (r = row) then cellAt (grid b) row (size b - 1 - c)
          else cellAt (grid b) r c.
Proof.
  intros Hwf Hrow. eexists. split; [reflexivity|].
  pose proof (halfCols_bounds (size b)) as Hh.
  set (n := size b) in *.
  assert (∀ h, h ≤ halfCols n →
    let b' := for_range h (λ col board,
      let other := (Z.of_nat (size board) - 1 - Z.of_nat col)%Z in
      let temp := numberOf (getCell board (Z.of_nat row) (Z.of_nat col)) in
      let board := setCell board (Z.of_nat row) (Z.of_nat col)
                     (numberOf (getCell board (Z.of_nat row) other)) in
      setCell board (Z.of_nat row) other temp) b in
    wf b' ∧ size b' = n
    ∧ ∀ r c, r < n → c < n →
        cellAt (grid b') r c
        = if decide (r = row ∧ (c < h ∨ n - 1 - c < h))
          then cellAt (grid b) row (n - 1 - c)
          else cellAt (grid b) r c) as Hinv.
  { induction h as [|j IH]; intros Hj; cbn zeta.
    - rewrite for_range_0. repeat split; try apply Hwf.
      intros r c Hr Hc. cell_cases.
    - rewrite for_range_S. specialize (IH ltac:(lia)). cbn zeta in IH.
      destruct IH as (Hwf1 & Hs1 & Hcells).
      set (b1 := for_range j _ b) in *. cbn zeta. rewrite Hs1.
      replace (Z.of_nat n - 1 - Z.of_nat j)%Z with (Z.of_nat (n - 1 - j)) by lia.
      rewrite !getCell_inside by lia. simpl.
      assert (wf (setCell b1 (Z.of_nat row) (Z.of_nat j)
                    (cellAt (grid b1) row (n - 1 - j)))) as Hwf2
        by apply wf_setCell, Hwf1.
      repeat split.
      + apply wf_setCell, Hwf2.
      + apply wf_setCell, Hwf2.
      + rewrite !size_setCell. exact Hs1.
      + intros r c Hr Hc.
        rewrite cellAt_setCell by (rewrite ?size_setCell; try assumption; lia).
        rewrite cellAt_setCell by (try assumption; lia).
        rewrite !Hcells by lia.
        cell_cases. }
  specialize (Hinv (halfCols n) ltac:(lia)). cbn zeta in Hinv.
  destruct Hinv as (Hwf' & Hs' & Hcells). repeat split; try assumption; try apply Hwf'.
  intros r c Hr Hc. rewrite Hcells by assumption. cell_cases.
Qed.

Lemma cellAt_map_reverse g r c n :
  length g = n → Forall (λ row, length row = n) g → r < n → c < n →
  cellAt (map reverse g) r c = cellAt g r (n - 1 - c).
Proof.
  intros Hlen Hrows Hr Hc. unfold cellAt.
  change (map reverse g) with (reverse <$> g). rewrite list_lookup_fmap.
  destruct (lookup_lt_is_Some_2 g r) as [row Hrow]; [lia|].
  rewrite Hrow. simpl.
  assert (length row = n) as Hl.
  { rewrite Forall_forall in Hrows. apply Hrows, list_elem_of_lookup. eauto. }
  rewrite reverse_lookup by lia. f_equal. f_equal. lia.
Qed.

Lemma wf_map_reverse b :
  wf b → wf {| size := size b; grid := map reverse (grid b) |}.
Proof.
  intros [Hlen Hrows]. split; simpl.
  - rewrite length_map. exact Hlen.
  - apply Forall_forall. intros r Hr.
    apply list_elem_of_In, in_map_iff in Hr as (r0 & <- & Hin).
    rewrite length_reverse. rewrite Forall_forall in Hrows.
    apply Hrows, list_elem_of_In, Hin.
Qed.

(** [reverseRows] reverses every row. *)
Theorem reverseRows_spec b :
  wf b → reverseRows b = {| size := size b; grid := map reverse (grid b) |}.
Proof.
  intros Hwf. unfold reverseRows.
  assert (∀ k, k ≤ size b →
    let b' := for_range k (λ row board,
      for_range (halfCols (size board)) (λ col board,
        let other := (Z.of_nat (size board) - 1 - Z.of_nat col)%Z in
        let temp := numberOf (getCell board (Z.of_nat row) (Z.of_nat col)) in
        let board := setCell board (Z.of_nat row) (Z.of_nat col)
                       (numberOf (getCell board (Z.of_nat row) other)) in
        setCell board (Z.of_nat row) other temp) board) b in
    wf b' ∧ size b' = size b
    ∧ ∀ r c, r < size b → c < size b →
        cellAt (grid b') r c
        = if decide (r < k) then cellAt (grid b) r (size b - 1 - c)
          else cellAt (grid b) r c) as Hinv.
  { induction k as [|k IH]; intros Hk; cbn zeta.
    - rewrite for_range_0. repeat split; try apply Hwf.
    - rewrite for_range_S. specialize (IH ltac:(lia)). cbn zeta in IH.
      destruct IH as (Hwf1 & Hs1 & Hcells).
      set (b1 := for_range k _ b) in *.
      destruct (reverseRows_row b1 k Hwf1 ltac:(lia))
        as (b2 & Heq & Hwf2 & Hs2 & Hcells2).
      cbn zeta in Heq. rewrite Heq.
      repeat split; try apply Hwf2; try congruence.
      intros r c Hr Hc. rewrite Hcells2 by lia.
      rewrite Hs1, !Hcells by lia. cell_cases. }
  specialize (Hinv (size b) ltac:(lia)). cbn zeta in Hinv.
  destruct Hinv as (Hwf' & Hs' & Hcells).
  apply board_ext; [assumption|apply wf_map_reverse, Hwf|assumption|].
  intros r c Hr Hc. rewrite Hs' in Hr, Hc. rewrite Hcells by assumption.
  simpl. destruct Hwf as [Hlen Hrows].
  rewrite (cellAt_map_reverse _ _ _ (size b)) by assumption.
  cell_cases.
Qed.

(** The inner loop of [transpose] swaps the part of row [row] right
    of the diagonal with the part of column [row] below it. *)
Lemma transpose_row b row m :
  wf b → row < size b → m ≤ size b - (row + 1) →
  ∃ b',
    fold_left (λ board col,
      let temp := numberOf (getCell board (Z.of_nat row) (Z.of_nat col)) in
      let board := setCell board (Z.of_nat row) (Z.of_nat col)
                     (numberOf (getCell board (Z.of_nat col) (Z.of_nat row))) in
      setCell board (Z.of_nat col) (Z.of_nat row) temp)
      (seq (row + 1) m) b = b'
    ∧ wf b' ∧ size b' = size b
    ∧ ∀ r c, r < size b → c < size b →
        cellAt (grid b') r c
        = if decide ((r = row ∧ row < c < row + 1 + m)
                     ∨ (c = row ∧ row < r < row + 1 + m))
          then cellAt (grid b) c r
          else cellAt (grid b) r c.
Proof.
  intros Hwf Hrow. induction m as [|m IH]; intros Hm.
  - exists b. repeat split; try apply Hwf.
    intros r c Hr Hc. cell_cases.
  - destruct (IH ltac:(lia)) as (b1 & Heq & Hwf1 & Hs1 & Hcells).
    eexists. split; [reflexivity|].
    rewrite seq_S, fold_left_app. cbn zeta in Heq. cbn zeta. rewrite Heq.
    cbn [fold_left].
    rewrite !getCell_inside by lia. simpl.
    assert (wf (setCell b1 (Z.of_nat row) (Z.of_nat (row + 1 + m))
                  (cellAt (grid b1) (row + 1 + m) row))) as Hwf2
      by apply wf_setCell, Hwf1.
    repeat split.
    + apply wf_setCell, Hwf2.
    + apply wf_setCell, Hwf2.
    + rewrite !size_setCell. exact Hs1.
    + intros r c Hr Hc.
      rewrite cellAt_setCell by (rewrite ?size_setCell; try assumption; lia).
      rewrite cellAt_setCell by (try assumption; lia).
      rewrite !Hcells by lia.
      cell_cases.
Qed.

Lemma cellAt_transposed n g r c :
  r < n → c < n → cellAt (transposed n g) r c = cellAt g c r.
Proof.
  intros Hr Hc. unfold transposed, cellAt at 1.
  change (map ?f ?l) with (f <$> l).
  rewrite list_lookup_fmap, lookup_seq_lt by assumption. simpl.
  rewrite list_lookup_fmap, lookup_seq_lt by assumption. reflexivity.
Qed.

Lemma wf_transposed n g :
  wf {| size := n; grid := transposed n g |}.
Proof.
  split; simpl; unfold transposed.
  - rewrite length_map, length_seq. reflexivity.
  - apply Forall_forall. intros r Hr.
    apply list_elem_of_In, in_map_iff in Hr as (r0 & <- & _).
    rewrite length_map, length_seq. reflexivity.
Qed.

(** [transpose] transposes the grid. *)
Theorem transpose_spec b :
  wf b →
  transpose b = {| size := size b; grid := transposed (size b) (grid b) |}.
Proof.
  intros Hwf. unfold transpose.
  assert (∀ k, k ≤ size b →
    let b' := for_range k (λ row board,
      fold_left (λ board col,
        let temp := numberOf (getCell board (Z.of_nat row) (Z.of_nat col)) in
        let board := setCell board (Z.of_nat row) (Z.of_nat col)
                       (numberOf (getCell board (Z.of_nat col) (Z.of_nat row))) in
        setCell board (Z.of_nat col) (Z.of_nat row) temp)
        (seq (row + 1) (size board - (row + 1))) board) b in
    wf b' ∧ size b' = size b
    ∧ ∀ r c, r < size b → c < size b →
        cellAt (grid b') r c
        = if decide (r < k ∨ c < k) then cellAt (grid b) c r
          else cellAt (grid b) r c) as Hinv.
  { induction k as [|k IH]; intros Hk; cbn zeta.
    - rewrite for_range_0. repeat split; try apply Hwf.
    - rewrite for_range_S. specialize (IH ltac:(lia)). cbn zeta in IH.
      destruct IH as (Hwf1 & Hs1 & Hcells).
      set (b1 := for_range k _ b) in *.
      destruct (transpose_row b1 k (size b1 - (k + 1)) Hwf1 ltac:(lia) ltac:(lia))
        as (b2 & Heq & Hwf2 & Hs2 & Hcells2).
      cbn zeta in Heq. rewrite Heq.
      repeat split; try apply Hwf2; try congruence.
      intros r c Hr Hc. rewrite Hcells2 by lia.
      rewrite Hs1, !Hcells by lia. cell_cases. }
  specialize (Hinv (size b) ltac:(lia)). cbn zeta in Hinv.
  destruct Hinv as (Hwf' & Hs' & Hcells).
  apply board_ext; [assumption|apply wf_transposed|assumption|].
  intros r c Hr Hc. rewrite Hs' in Hr, Hc. rewrite Hcells by assumption.
  simpl. rewrite cellAt_transposed by assumption.
  cell_cases.
Qed.

(** Both transforms undo themselves. *)
Lemma map_reverse_involutive (g : list (list Z)) :
  map reverse (map reverse g) = g.
Proof.
  rewrite map_map. rewrite <- (map_id g) at 2. apply map_ext.
  intros r. apply reverse_involutive.
Qed.

Lemma transposed_involutive n g :
  length g = n → Forall (λ r, length r = n) g →
  transposed n (transposed n g) = g.
Proof.
  intros Hlen Hrows.
  pose proof (wf_transposed n (transposed n g)) as [L1 F1]. simpl in *.
  apply (grid_ext n); try assumption.
  intros r c Hr Hc. rewrite !cellAt_transposed by assumption. reflexivity.
Qed.
End Transforms.


(** ** Merging a line *)

Section MergeLine.
Import Board MoveProcessor Notions.
Implicit Types (l merged : list Z).

Lemma mergeLoop_two x y t merged score :
  mergeLoop (x :: y :: t) merged score
  = if (x =? y)%Z
    then mergeLoop t (merged ++ [(x * 2)%Z]) (score + x * 2)%Z
    else mergeLoop (y :: t) (merged ++ [x]) score.
Proof. reflexivity. Qed.

(** The loop with the index and the loop on the rest of the line are
    the same loop. *)
Lemma mergeLoopAt_rest rest : ∀ read merged score fuel,
  length rest < fuel →
  mergeLoopAt fuel (read ++ rest) (length read) merged score
  = Some (mergeLoop rest merged score).
Proof.
  induction rest as [rest IH] using (induction_ltof1 _ (@length Z)).
  unfold ltof in IH. intros read merged score fuel Hfuel.
  destruct fuel as [|fuel]; [lia|]. cbn [mergeLoopAt].
  rewrite length_app.
  destruct rest as [|x [|y t]].
  - simpl. rewrite Nat.add_0_r, Nat.ltb_irrefl. reflexivity.
  - cbn [length mergeLoop].
    destruct (Nat.ltb_spec (length read) (length read + 1)); [|lia].
    destruct (Nat.ltb_spec (length read) (length read + 1 - 1)); [lia|].
    cbn [andb]. rewrite app_nth2, Nat.sub_diag by lia. cbn [nth].
    replace (length read + 1) with (length (read ++ [x]))
      by (rewrite length_app; reflexivity).
    rewrite <- (app_nil_r (read ++ [x])) at 1.
    apply IH; simpl in *; lia.
  - rewrite mergeLoop_two. cbn [length].
    destruct (Nat.ltb_spec (length read) (length read + S (S (length t)))); [|lia].
    destruct (Nat.ltb_spec (length read) (length read + S (S (length t)) - 1)); [|lia].
    cbn [andb]. rewrite !app_nth2, Nat.sub_diag by lia.
    replace (length read + 1 - length read) with 1 by lia. cbn [nth].
    destruct (x =? y)%Z.
    + replace (length read + 2) with (length (read ++ [x; y]))
        by (rewrite length_app; reflexivity).
      replace (read ++ x :: y :: t) with ((read ++ [x; y]) ++ t)
        by (rewrite <- app_assoc; reflexivity).
      apply IH; simpl in *; lia.
    + replace (length read + 1) with (length (read ++ [x]))
        by (rewrite length_app; reflexivity).
      replace (read ++ x :: y :: t) with ((read ++ [x]) ++ y :: t)
        by (rewrite <- app_assoc; reflexivity).
      apply IH; simpl in *; lia.
Qed.

(** The [while] loop of [mergeLine] ends within [line.length + 1]
    iterations, with the result of [mergeLine]. *)
Theorem mergeLoopAt_mergeLoop l :
  mergeLoopAt (S (length l)) l 0 [] 0%Z = Some (mergeLine l).
Proof. apply (mergeLoopAt_rest l [] [] 0%Z). lia. Qed.

(** The accumulators of the loop only grow: the loop started on
    [merged] and [score] appends to them what it does from scratch. *)
Lemma mergeLoop_acc l : ∀ merged score,
  mergeLoop l merged score
  = {| line := merged ++ line (mergeLoop l [] 0%Z);
       lineScore := (score + lineScore (mergeLoop l [] 0%Z))%Z |}.
Proof.
  induction l as [l IH] using (induction_ltof1 _ (@length Z)).
  unfold ltof in IH. intros merged score.
  destruct l as [|x [|y t]].
  - simpl. rewrite app_nil_r, Z.add_0_r. reflexivity.
  - simpl. rewrite Z.add_0_r. reflexivity.
  - rewrite !mergeLoop_two. destruct (x =? y)%Z.
    + rewrite (IH t) by (simpl; lia). symmetry.
      rewrite (IH t) by (simpl; lia). cbn [line lineScore].
      f_equal; try lia; rewrite <- ?app_assoc; reflexivity.
    + rewrite (IH (y :: t)) by (simpl; lia). symmetry.
      rewrite (IH (y :: t)) by (simpl; lia). cbn [line lineScore].
      f_equal; try lia; rewrite <- ?app_assoc; reflexivity.
Qed.

Lemma mergeLine_nil : mergeLine [] = {| line := []; lineScore := 0 |}.
Proof. reflexivity. Qed.

Lemma mergeLine_one x : mergeLine [x] = {| line := [x]; lineScore := 0 |}.
Proof. reflexivity. Qed.

(** Two equal neighbours at the front merge and are both consumed. *)
Lemma mergeLine_merge x t :
  mergeLine (x :: x :: t)
  = {| line := (x * 2)%Z :: line (mergeLine t);
       lineScore := (x * 2 + lineScore (mergeLine t))%Z |}.
Proof.
  unfold mergeLine. rewrite mergeLoop_two, Z.eqb_refl, mergeLoop_acc.
  reflexivity.
Qed.

(** Otherwise the first element is kept and the scan moves on by one. *)
Lemma mergeLine_keep x y t :
  x ≠ y →
  mergeLine (x :: y :: t)
  = {| line := x :: line (mergeLine (y :: t));
       lineScore := lineScore (mergeLine (y :: t)) |}.
Proof.
  intros Hne. unfold mergeLine. rewrite mergeLoop_two.
  destruct (Z.eqb_spec x y) as [|_]; [contradiction|].
  rewrite mergeLoop_acc. reflexivity.
Qed.

(** Induction along the scan of [mergeLine]. *)
Lemma merge_ind (P : list Z → Prop) :
  P [] → (∀ x, P [x]) →
  (∀ x t, P t → P (x :: x :: t)) →
  (∀ x y t, x ≠ y → P (y :: t) → P (x :: y :: t)) →
  ∀ l, P l.
Proof.
  intros Hnil Hone Hmerge Hkeep l.
  induction l as [l IH] using (induction_ltof1 _ (@length Z)).
  unfold ltof in IH. destruct l as [|x [|y t]]; [apply Hnil|apply Hone|].
  destruct (decide (x = y)) as [<-|Hne].
  - apply Hmerge, IH. simpl. lia.
  - apply Hkeep; [assumption|]. apply IH. simpl. lia.
Qed.

Lemma mergeLine_sum l : sumZ (line (mergeLine l)) = sumZ l.
Proof.
  induction l as [| |x t IH|x y t Hne IH] using merge_ind.
  - reflexivity.
  - reflexivity.
  - rewrite mergeLine_merge. simpl in *. lia.
  - rewrite mergeLine_keep by assumption. simpl in *. lia.
Qed.

Lemma mergeLine_score l : lineScore (mergeLine l) = sumZ (mergedValues l).
Proof.
  induction l as [| |x t IH|x y t Hne IH] using merge_ind.
  - reflexivity.
  - reflexivity.
  - rewrite mergeLine_merge. simpl. rewrite Z.eqb_refl. simpl. lia.
  - rewrite mergeLine_keep by assumption. simpl.
    destruct (Z.eqb_spec x y) as [|_]; [contradiction|]. exact IH.
Qed.

Lemma mergeLine_length l : length (line (mergeLine l)) ≤ length l.
Proof.
  induction l as [| |x t IH|x y t Hne IH] using merge_ind.
  - reflexivity.
  - reflexivity.
  - rewrite mergeLine_merge. simpl. lia.
  - rewrite mergeLine_keep by assumption. simpl in *. lia.
Qed.

Lemma mergeLine_nonzero l :
  Forall (λ v, v ≠ 0%Z) l → Forall (λ v, v ≠ 0%Z) (line (mergeLine l)).
Proof.
  induction l as [| |x t IH|x y t Hne IH] using merge_ind; intros H.
  - constructor.
  - exact H.
  - rewrite mergeLine_merge. simpl.
    inversion H as [|? ? Hx H']; subst. inversion H'; subst.
    constructor; [lia|]. apply IH. assumption.
  - rewrite mergeLine_keep by assumption. simpl.
    inversion H; subst. constructor; [assumption|]. apply IH. assumption.
Qed.

(** Every merged value is in the returned line, in order, and is the
    double of a value of the input. *)
Lemma mergedValues_sublist l : sublist (mergedValues l) (line (mergeLine l)).
Proof.
  induction l as [| |x t IH|x y t Hne IH] using merge_ind.
  - constructor.
  - apply sublist_nil_l.
  - rewrite mergeLine_merge. simpl. rewrite Z.eqb_refl.
    apply sublist_skip, IH.
  - rewrite mergeLine_keep by assumption. simpl.
    destruct (Z.eqb_spec x y) as [|_]; [contradiction|].
    apply sublist_cons, IH.
Qed.

Lemma mergedValues_doubles l :
  Forall (λ v, ∃ x, x ∈ l ∧ v = (x * 2)%Z) (mergedValues l).
Proof.
  induction l as [| |x t IH|x y t Hne IH] using merge_ind.
  - constructor.
  - constructor.
  - simpl. rewrite Z.eqb_refl. constructor.
    + exists x. split; [left|reflexivity].
    + eapply Forall_impl; [exact IH|]. intros v (z & Hz & ->).
      exists z. split; [do 2 right; exact Hz|reflexivity].
  - simpl. destruct (Z.eqb_spec x y) as [|_]; [contradiction|].
    eapply Forall_impl; [exact IH|]. intros v (z & Hz & ->).
    exists z. split; [right; exact Hz|reflexivity].
Qed.

(** A line without zeros is returned as it is exactly when it has no
    two equal neighbours. *)
Lemma mergeLine_fixed l :
  Forall (λ v, v ≠ 0%Z) l →
  line (mergeLine l) = l ↔ hasEqualNeighbours l = false.
Proof.
  induction l as [| |x t IH|x y t Hne IH] using merge_ind; intros Hnz.
  - split; reflexivity.
  - split; reflexivity.
  - inversion Hnz as [|? ? Hx _]; subst. split.
    + intros Heq. exfalso.
      pose proof (mergeLine_length t) as Hlen.
      rewrite mergeLine_merge in Heq. simpl in Heq.
      apply (f_equal length) in Heq. simpl in Heq. lia.
    + simpl. rewrite Z.eqb_refl.
      destruct (Z.eqb_spec x 0) as [|_]; [contradiction|]. discriminate.
  - inversion Hnz as [|? ? Hx Hnz']; subst.
    rewrite mergeLine_keep by assumption. cbn [line hasEqualNeighbours].
    destruct (Z.eqb_spec x y) as [|_]; [contradiction|]. cbn [andb orb].
    rewrite <- (IH Hnz'). split; [intros [= ->]|intros ->]; reflexivity.
Qed.
End MergeLine.

(** ** The four moves *)

Section Moves.
Import Board MoveProcessor Notions.
Implicit Types (b : Board) (r l : list Z).

Lemma padLine_short n l :
  length l ≤ n → padLine n l = l ++ replicate (n - length l) 0%Z.
Proof.
  intros Hlen. apply list_eq_same_length with n.
  - rewrite length_app, length_replicate. lia.
  - apply length_padLine.
  - intros col x y Hcol Hx Hy. rewrite lookup_padLine in Hx by assumption.
    injection Hx as <-.
    destruct (Nat.ltb_spec col (length l)) as [Hlt|Hge].
    + rewrite lookup_app_l in Hy by assumption.
      rewrite nth_lookup, Hy. reflexivity.
    + rewrite lookup_app_r in Hy by assumption.
      apply lookup_replicate in Hy as [-> _]. reflexivity.
Qed.

Lemma nonZero_zeros k : nonZero (replicate k 0%Z) = [].
Proof.
  induction k as [|k IH]; [reflexivity|]. simpl. unfold nonZero in *.
  rewrite filter_cons_False by (intros H; apply H; reflexivity). exact IH.
Qed.

Lemma nonZero_id l : Forall (λ v, v ≠ 0%Z) l → nonZero l = l.
Proof.
  induction 1 as [|x l Hx _ IH]; [reflexivity|]. unfold nonZero in *.
  rewrite filter_cons_True by assumption. rewrite IH. reflexivity.
Qed.

Lemma nonZero_Forall r : Forall (λ v, v ≠ 0%Z) (nonZero r).
Proof.
  apply Forall_forall. intros x Hx. apply list_elem_of_filter in Hx. apply Hx.
Qed.

Lemma nonZero_length r : length (nonZero r) ≤ length r.
Proof. apply length_filter. Qed.

Lemma nonZero_padLine n l :
  Forall (λ v, v ≠ 0%Z) l → length l ≤ n → nonZero (padLine n l) = l.
Proof.
  intros Hnz Hlen. rewrite padLine_short by assumption.
  unfold nonZero. rewrite filter_app.
  fold (nonZero l). fold (nonZero (replicate (n - length l) 0%Z)).
  rewrite nonZero_zeros, nonZero_id, app_nil_r by assumption. reflexivity.
Qed.

Lemma sumZ_nonZero r : sumZ (nonZero r) = sumZ r.
Proof.
  induction r as [|x r IH]; [reflexivity|]. unfold nonZero in *.
  destruct (decide (x = 0%Z)) as [->|Hx].
  - rewrite filter_cons_False by (intros H; apply H; reflexivity).
    simpl. exact IH.
  - rewrite filter_cons_True by assumption. simpl in *. lia.
Qed.

Lemma sumZ_zeros k : sumZ (replicate k 0%Z) = 0%Z.
Proof. induction k as [|k IH]; simpl in *; lia. Qed.

Lemma sumZ_reverse r : sumZ (reverse r) = sumZ r.
Proof.
  induction r as [|x r IH]; [reflexivity|].
  rewrite reverse_cons, sumZ_app. simpl in *. lia.
Qed.

(** The merged line of a row of [n] cells fits into the row. *)
Lemma merged_fits n r :
  length r = n → length (line (mergeLine (nonZero r))) ≤ n.
Proof.
  intros <-. etransitivity; [apply mergeLine_length|apply nonZero_length].
Qed.

Lemma slideRow_sum n r : length r = n → sumZ (slideRow n r) = sumZ r.
Proof.
  intros Hlen. unfold slideRow.
  rewrite padLine_short by (apply merged_fits; assumption).
  rewrite sumZ_app, sumZ_zeros, mergeLine_sum, sumZ_nonZero. lia.
Qed.

Lemma hasEqualNeighbours_zeros k : hasEqualNeighbours (replicate k 0%Z) = false.
Proof.
  induction k as [|k IH]; [reflexivity|].
  destruct k as [|k]; [reflexivity|]. simpl in *. exact IH.
Qed.

Lemma hasEqualNeighbours_padded l k :
  Forall (λ v, v ≠ 0%Z) l →
  hasEqualNeighbours (l ++ replicate k 0%Z) = hasEqualNeighbours l.
Proof.
  induction 1 as [|x l Hx Hl IH].
  - apply hasEqualNeighbours_zeros.
  - destruct l as [|y l].
    + destruct k as [|k]; [reflexivity|].
      change (hasEqualNeighbours ([x] ++ replicate (S k) 0%Z))
        with (((x =? 0)%Z && negb (x =? 0)%Z)
              || hasEqualNeighbours (replicate (S k) 0%Z)).
      rewrite hasEqualNeighbours_zeros.
      destruct (x =? 0)%Z; reflexivity.
    + change (hasEqualNeighbours ((x :: y :: l) ++ replicate k 0%Z))
        with (((x =? y)%Z && negb (x =? 0)%Z)
              || hasEqualNeighbours ((y :: l) ++ replicate k 0%Z)).
      rewrite IH. reflexivity.
Qed.

(** A row that was slid stays as it is under a second slide exactly
    when it has no two equal neighbours. *)
Lemma slideRow_twice n r :
  length r = n →
  slideRow n (slideRow n r) = slideRow n r
  ↔ hasEqualNeighbours (slideRow n r) = false.
Proof.
  intros Hlen.
  pose proof (merged_fits n r Hlen) as Hfit.
  pose proof (mergeLine_nonzero _ (nonZero_Forall r)) as Hnz.
  set (m := line (mergeLine (nonZero r))) in *.
  assert (slideRow n r = padLine n m) as -> by reflexivity.
  unfold slideRow. rewrite nonZero_padLine by assumption.
  rewrite (padLine_short n m) at 2 by assumption.
  rewrite hasEqualNeighbours_padded by assumption.
  rewrite <- mergeLine_fixed by assumption.
  split.
  - intros Heq. apply (f_equal nonZero) in Heq.
    rewrite !nonZero_padLine in Heq; try assumption.
    + apply mergeLine_nonzero, Hnz.
    + etransitivity; [apply mergeLine_length|assumption].
  - intros ->. reflexivity.
Qed.

Lemma hasEqualNeighbours_true r :
  hasEqualNeighbours r = true
  ↔ ∃ col x, r !! col = Some x ∧ r !! S col = Some x ∧ x ≠ 0%Z.
Proof.
  induction r as [|x r IH]; [split; [discriminate|intros (c & y & H & _); discriminate]|].
  destruct r as [|y r].
  - split; [discriminate|]. intros (c & z & _ & H & _). destruct c; discriminate.
  - change (hasEqualNeighbours (x :: y :: r))
      with (((x =? y)%Z && negb (x =? 0)%Z) || hasEqualNeighbours (y :: r)).
    rewrite orb_true_iff, andb_true_iff, negb_true_iff, IH, Z.eqb_eq, Z.eqb_neq.
    split.
    + intros [[-> Hx]|(c & z & H1 & H2 & Hz)].
      * exists 0, y. repeat split; assumption.
      * exists (S c), z. repeat split; assumption.
    + intros (c & z & H1 & H2 & Hz). destruct c as [|c].
      * left. simpl in H1, H2. injection H1 as ->. injection H2 as ->.
        split; [reflexivity|assumption].
      * right. exists c, z. repeat split; assumption.
Qed.

Lemma cellAt_nonNegative g row col :
  Forall (Forall (λ v, (0 ≤ v)%Z)) g → (0 ≤ cellAt g row col)%Z.
Proof.
  intros H. unfold cellAt.
  destruct (g !! row) as [r|] eqn:Hr; [|reflexivity]. simpl.
  destruct (r !! col) as [v|] eqn:Hv; [|reflexivity]. simpl.
  rewrite Forall_forall in H.
  assert (Forall (λ v, (0 ≤ v)%Z) r) as Hrow
    by (apply H, list_elem_of_lookup; eauto).
  rewrite Forall_forall in Hrow. apply Hrow, list_elem_of_lookup. eauto.
Qed.

Lemma boardTotal_slide n g :
  Forall (λ r, length r = n) g →
  sumZ (map sumZ (map (slideRow n) g)) = sumZ (map sumZ g).
Proof.
  induction 1 as [|r g Hr _ IH]; [reflexivity|].
  simpl. rewrite slideRow_sum by assumption. simpl in IH. lia.
Qed.

Lemma boardTotal_reverse (g : list (list Z)) :
  sumZ (map sumZ (map reverse g)) = sumZ (map sumZ g).
Proof.
  induction g as [|r g IH]; [reflexivity|].
  simpl. rewrite sumZ_reverse. simpl in IH. lia.
Qed.

Lemma sumZ_map_add {A} (f h : A → Z) (l : list A) :
  sumZ (map (λ x, (f x + h x)%Z) l) = (sumZ (map f l) + sumZ (map h l))%Z.
Proof. induction l as [|x l IH]; simpl in *; lia. Qed.

Lemma sumZ_map_zero {A} (l : list A) : sumZ (map (λ _, 0%Z) l) = 0%Z.
Proof. induction l as [|x l IH]; simpl in *; lia. Qed.

(** A double sum can be taken in either order. *)
Lemma sumZ_exchange {A B} (f : A → B → Z) (l1 : list A) (l2 : list B) :
  sumZ (map (λ x, sumZ (map (λ y, f x y) l2)) l1)
  = sumZ (map (λ y, sumZ (map (λ x, f x y) l1)) l2).
Proof.
  induction l1 as [|a l1 IH]; simpl.
  - rewrite sumZ_map_zero. reflexivity.
  - rewrite sumZ_map_add. simpl in IH. rewrite IH. reflexivity.
Qed.

Lemma sumZ_map_ext_seq (f h : nat → Z) n :
  (∀ i, i < n → f i = h i) → sumZ (map f (seq 0 n)) = sumZ (map h (seq 0 n)).
Proof.
  intros H. f_equal. apply map_ext_in. intros i Hi. apply in_seq in Hi.
  apply H. lia.
Qed.

Lemma boardTotal_transposed n g :
  length g = n → Forall (λ r, length r = n) g →
  sumZ (map sumZ (transposed n g)) = sumZ (map sumZ g).
Proof.
  intros Hlen Hrows.
  rewrite <- (transposed_involutive n g Hlen Hrows) at 2.
  unfold transposed at 1 2. rewrite !map_map.
  rewrite (sumZ_exchange (λ row col, cellAt g col row)).
  apply sumZ_map_ext_seq. intros r Hr. cbn beta.
  apply sumZ_map_ext_seq. intros c Hc. cbn beta.
  rewrite cellAt_transposed by assumption. reflexivity.
Qed.

Lemma mergeLine_nonNegative l :
  Forall (λ v, (0 ≤ v)%Z) l →
  Forall (λ v, (0 ≤ v)%Z) (line (mergeLine l))
  ∧ (0 ≤ lineScore (mergeLine l))%Z.
Proof.
  induction l as [| |x t IH|x y t Hne IH] using merge_ind; intros H.
  - split; [constructor|reflexivity].
  - split; [exact H|reflexivity].
  - rewrite mergeLine_merge. simpl.
    inversion H as [|? ? Hx H']; subst. inversion H'; subst.
    destruct IH as [IH1 IH2]; [assumption|].
    split; [constructor; [lia|assumption]|lia].
  - rewrite mergeLine_keep by assumption. simpl.
    inversion H; subst. destruct IH as [IH1 IH2]; [assumption|].
    split; [constructor; assumption|assumption].
Qed.

Lemma slideRow_nonNegative n r :
  Forall (λ v, (0 ≤ v)%Z) r →
  Forall (λ v, (0 ≤ v)%Z) (slideRow n r) ∧ (0 ≤ rowScore r)%Z.
Proof.
  intros H.
  assert (Forall (λ v, (0 ≤ v)%Z) (nonZero r)) as Hnz.
  { rewrite Forall_forall in H. apply Forall_forall. intros x Hx.
    apply list_elem_of_filter in Hx as [_ Hx]. apply H, Hx. }
  destruct (mergeLine_nonNegative _ Hnz) as [Hline Hscore].
  split; [|exact Hscore].
  unfold slideRow, padLine. apply Forall_forall. intros v Hv.
  apply list_elem_of_In, in_map_iff in Hv as (col & <- & _).
  destruct (Nat.ltb_spec col (length (line (mergeLine (nonZero r)))));
    [|reflexivity].
  rewrite Forall_forall in Hline. apply Hline, list_elem_of_In, nth_In.
  assumption.
Qed.

Lemma slide_nonNegative n (g : list (list Z)) :
  Forall (Forall (λ v, (0 ≤ v)%Z)) g →
  Forall (Forall (λ v, (0 ≤ v)%Z)) (map (slideRow n) g)
  ∧ (0 ≤ sumZ (map rowScore g))%Z.
Proof.
  induction 1 as [|r g' Hr _ [IH1 IH2]]; simpl.
  - split; [constructor|reflexivity].
  - destruct (slideRow_nonNegative n r Hr) as [H1 H2].
    split; [constructor; assumption|lia].
Qed.

Lemma soundMove_moveLeft : soundMove moveLeft.
Proof.
  intros b Hwf. rewrite moveLeft_spec by assumption. simpl.
  pose proof (wf_partly_slid b (size b) Hwf) as Hwf'.
  rewrite take_ge, drop_ge, app_nil_r in Hwf'
    by (rewrite (wf_length b Hwf); lia).
  split; [exact Hwf'|]. split; [reflexivity|]. split; [|split].
  - split.
    + intros H. apply bool_decide_eq_false in H.
      destruct b as [n g]. simpl in *. f_equal.
      destruct (decide (map (slideRow n) g = g)); [assumption|contradiction].
    + intros H. apply bool_decide_eq_false. intros Hne. apply Hne.
      rewrite <- H at 3. reflexivity.
  - unfold boardTotal. simpl. apply boardTotal_slide, Hwf.
  - apply slide_nonNegative.
Qed.

Lemma soundTransform_reverseRows : soundTransform reverseRows.
Proof.
  intros b Hwf. pose proof (wf_map_reverse b Hwf) as Hwf'.
  rewrite reverseRows_spec by assumption.
  repeat split; try apply Hwf'.
  - rewrite reverseRows_spec by assumption. simpl.
    rewrite map_reverse_involutive. destruct b; reflexivity.
  - apply boardTotal_reverse.
  - unfold nonNegative. simpl. intros H. apply Forall_forall. intros r Hr.
    apply list_elem_of_In, in_map_iff in Hr as (r0 & <- & Hin).
    apply Forall_reverse. rewrite Forall_forall in H.
    apply H, list_elem_of_In, Hin.
Qed.

Lemma soundTransform_transpose : soundTransform transpose.
Proof.
  intros b Hwf. pose proof (wf_transposed (size b) (grid b)) as Hwf'.
  rewrite transpose_spec by assumption.
  repeat split; try apply Hwf'.
  - rewrite transpose_spec by assumption. simpl.
    rewrite transposed_involutive by apply Hwf. destruct b; reflexivity.
  - apply boardTotal_transposed; apply Hwf.
  - unfold nonNegative, transposed. simpl. intros H.
    apply Forall_forall. intros r Hr.
    apply list_elem_of_In, in_map_iff in Hr as (row & <- & _).
    apply Forall_forall. intros v Hv.
    apply list_elem_of_In, in_map_iff in Hv as (col & <- & _).
    apply cellAt_nonNegative, H.
Qed.

(** A sound move between a sound transform and its undoing is a
    sound move: this is how the source obtains three of the four
    directions. *)
Lemma soundMove_between T move :
  soundTransform T → soundMove move →
  soundMove (λ board,
    let board := T board in
    let '(board, result) := move board in
    let board := T board in
    (board, result)).
Proof.
  intros HT Hmove b Hwf. cbn zeta.
  destruct (HT b Hwf) as (Hwf1 & Hs1 & Hinv1 & Htot1 & Hpos1).
  destruct (Hmove (T b) Hwf1) as (Hwf2 & Hs2 & Hmoved & Htot2 & Hpos2).
  destruct (move (T b)) as [b2 result]. simpl in *.
  destruct (HT b2 Hwf2) as (Hwf3 & Hs3 & Hinv3 & Htot3 & Hpos3).
  split; [exact Hwf3|]. split; [congruence|]. split; [|split].
  - split.
    + intros H. apply Hmoved in H. subst b2. exact Hinv1.
    + intros H. apply Hmoved. rewrite <- H, Hinv3. reflexivity.
  - congruence.
  - intros Hpos. destruct (Hpos2 (Hpos1 Hpos)) as [H1 H2].
    split; [apply Hpos3, H1|exact H2].
Qed.

Lemma soundMove_moveRight : soundMove moveRight.
Proof. apply (soundMove_between reverseRows moveLeft);
         [apply soundTransform_reverseRows|apply soundMove_moveLeft]. Qed.

Lemma soundMove_moveUp : soundMove moveUp.
Proof. apply (soundMove_between transpose moveLeft);
         [apply soundTransform_transpose|apply soundMove_moveLeft]. Qed.

Lemma soundMove_moveDown : soundMove moveDown.
Proof. apply (soundMove_between transpose moveRight);
         [apply soundTransform_transpose|apply soundMove_moveRight]. Qed.

(** The directions the [switch] knows. *)
Lemma moveOf_Some direction move :
  moveOf direction = Some move →
  (direction = "left" ∧ move = moveLeft) ∨ (direction = "right" ∧ move = moveRight)
  ∨ (direction = "up" ∧ move = moveUp) ∨ (direction = "down" ∧ move = moveDown).
Proof.
  unfold moveOf. intros H.
  destruct (String.eqb_spec direction "left"); [left; split; congruence|].
  destruct (String.eqb_spec direction "right"); [right; left; split; congruence|].
  destruct (String.eqb_spec direction "up"); [right; right; left; split; congruence|].
  destruct (String.eqb_spec direction "down"); [right; right; right; split; congruence|].
  discriminate.
Qed.

Lemma soundMove_moveOf direction move :
  moveOf direction = Some move → soundMove move.
Proof.
  intros H. apply moveOf_Some in H as [[_ ->]|[[_ ->]|[[_ ->]|[_ ->]]]].
  - apply soundMove_moveLeft.
  - apply soundMove_moveRight.
  - apply soundMove_moveUp.
  - apply soundMove_moveDown.
Qed.
End Moves.


(** ** [clone] and [equals] *)

Section Clone.
Import Board MoveProcessor Notions.
Implicit Types (b : Board).

(** The clone is a well-formed board with the cells of the original. *)
Lemma clone_cells b :
  wf (clone b) ∧ size (clone b) = size b
  ∧ ∀ r c, r < size b → c < size b →
      cellAt (grid (clone b)) r c = cellAt (grid b) r c.
Proof.
  unfold clone. set (n := size b).
  assert (∀ k, k ≤ n →
    let nb := for_range k (λ row newBoard,
      for_range n (λ col newBoard,
        setCell newBoard (Z.of_nat row) (Z.of_nat col)
          (numberOf (getCell b (Z.of_nat row) (Z.of_nat col)))) newBoard)
      (new n) in
    wf nb ∧ size nb = n
    ∧ ∀ r c, r < n → c < n →
        cellAt (grid nb) r c
        = if decide (r < k) then cellAt (grid b) r c else 0%Z) as Hinv.
  { induction k as [|k IH]; intros Hk; cbn zeta.
    - rewrite for_range_0. repeat split; try apply wf_new.
      intros r c Hr Hc. simpl. apply cellAt_replicate; assumption.
    - rewrite for_range_S. specialize (IH ltac:(lia)). cbn zeta in IH.
      destruct IH as (Hwf1 & Hs1 & Hcells).
      set (b1 := for_range k _ (new n)) in *.
      assert (∀ j, j ≤ n →
        let nb := for_range j (λ col newBoard,
          setCell newBoard (Z.of_nat k) (Z.of_nat col)
            (numberOf (getCell b (Z.of_nat k) (Z.of_nat col)))) b1 in
        wf nb ∧ size nb = n
        ∧ ∀ r c, r < n → c < n →
            cellAt (grid nb) r c
            = if decide (r < k ∨ (r = k ∧ c < j))
              then cellAt (grid b) r c else 0%Z) as Hrow.
      { induction j as [|j IHj]; intros Hj; cbn zeta.
        - rewrite for_range_0. repeat split; try apply Hwf1; try assumption.
          intros r c Hr Hc. rewrite Hcells by assumption. cell_cases.
        - rewrite for_range_S. specialize (IHj ltac:(lia)). cbn zeta in IHj.
          destruct IHj as (Hwf2 & Hs2 & Hcells2).
          set (b2 := for_range j _ b1) in *.
          rewrite (getCell_inside b) by (fold n; lia). simpl.
          repeat split; try (apply wf_setCell, Hwf2).
          + rewrite size_setCell. exact Hs2.
          + intros r c Hr Hc.
            rewrite cellAt_setCell by (try assumption; lia).
            rewrite Hcells2 by assumption. cell_cases. }
      specialize (Hrow n ltac:(lia)). cbn zeta in Hrow.
      destruct Hrow as (Hwf2 & Hs2 & Hcells2).
      repeat split; try apply Hwf2; try assumption.
      intros r c Hr Hc. rewrite Hcells2 by assumption. cell_cases. }
  specialize (Hinv n ltac:(lia)). cbn zeta in Hinv.
  destruct Hinv as (Hwf & Hs & Hcells).
  repeat split; try apply Hwf; try assumption.
  intros r c Hr Hc. rewrite Hcells by assumption. cell_cases.
Qed.

(** For a well-formed board the clone has the same contents. *)
Lemma clone_wf b : wf b → clone b = b.
Proof.
  intros Hwf. destruct (clone_cells b) as (Hwf' & Hs & Hcells).
  apply board_ext; try assumption.
  intros r c Hr Hc. apply Hcells; congruence.
Qed.

(** [equals] compares the sizes and then the cells. *)
Lemma equals_true b other :
  equals b (Some other) = true
  ↔ size other = size b
    ∧ ∀ r c, r < size b → c < size b →
        cellAt (grid b) r c = cellAt (grid other) r c.
Proof.
  unfold equals. destruct (Nat.eqb_spec (size other) (size b)) as [Hs|Hs]; simpl;
    [|split; [discriminate|intros [? _]; contradiction]].
  set (n := size b) in *.
  assert (∀ k, k ≤ n →
    for_range k (λ row same,
      for_range n (λ col same,
        same && bool_decide (getCell b (Z.of_nat row) (Z.of_nat col)
                             = getCell other (Z.of_nat row) (Z.of_nat col)))
        same) true = true
    ↔ ∀ r c, r < k → c < n → cellAt (grid b) r c = cellAt (grid other) r c)
    as Hinv.
  { induction k as [|k IH]; intros Hk.
    - rewrite for_range_0. split; [intros _ r c Hr; lia|reflexivity].
    - rewrite for_range_S. specialize (IH ltac:(lia)).
      set (same0 := for_range k _ true) in *.
      assert (∀ j, j ≤ n →
        for_range j (λ col same,
          same && bool_decide (getCell b (Z.of_nat k) (Z.of_nat col)
                               = getCell other (Z.of_nat k) (Z.of_nat col)))
          same0 = true
        ↔ same0 = true
          ∧ ∀ c, c < j → cellAt (grid b) k c = cellAt (grid other) k c) as Hrow.
      { induction j as [|j IHj]; intros Hj.
        - rewrite for_range_0. split; [intros H; split; [exact H|intros c Hc; lia]|tauto].
        - rewrite for_range_S, andb_true_iff, (IHj ltac:(lia)), bool_decide_eq_true.
          rewrite !getCell_inside by (fold n; lia).
          split.
          + intros [[H0 H1] [= H2]]. split; [exact H0|]. intros c Hc.
            destruct (decide (c = j)) as [->|]; [exact H2|apply H1; lia].
          + intros [H0 H1]. repeat split; [exact H0|intros c Hc; apply H1; lia|].
            f_equal. apply H1. lia. }
      rewrite (Hrow n ltac:(lia)), IH. split.
      + intros [H0 H1] r c Hr Hc.
        destruct (decide (r = k)) as [->|]; [apply H1; assumption|apply H0; lia].
      + intros H. split; [intros r c Hr Hc; apply H; lia|].
        intros c Hc. apply H; lia. }
  rewrite (Hinv n ltac:(lia)). split; [intros H; split; [assumption|exact H]|tauto].
Qed.

Lemma equals_clone b : equals b (Some (clone b)) = true.
Proof.
  destruct (clone_cells b) as (_ & Hs & Hcells).
  apply equals_true. split; [assumption|].
  intros r c Hr Hc. symmetry. apply Hcells; assumption.
Qed.

Lemma equals_refl b : equals b (Some b) = true.
Proof. apply equals_true. split; reflexivity. Qed.
End Clone.

(** ** Boards in the store *)

Section StoreFacts.
Import Board MoveProcessor Notions.
Implicit Types (σ : gmap nat Board) (b : Board).

Lemma fresh_not_allocated σ r b : σ !! r = Some b → r ≠ fresh (dom σ).
Proof.
  intros Hr ->. apply (is_fresh (dom σ)). apply elem_of_dom. eauto.
Qed.

(** Reading and writing the object under a reference. *)
Lemma store_size σ (r : nat) b : Store.size (<[r := b]> σ) r = size b.
Proof. unfold Store.size. rewrite lookup_total_insert_eq. reflexivity. Qed.

Lemma store_getCell σ (r : nat) b row col :
  Store.getCell (<[r := b]> σ) r row col = getCell b row col.
Proof. unfold Store.getCell. rewrite lookup_total_insert_eq. reflexivity. Qed.

Lemma store_setCell σ (r : nat) b row col v :
  Store.setCell (<[r := b]> σ) r row col v = <[r := setCell b row col v]> σ.
Proof. unfold Store.setCell. rewrite alter_insert_eq. reflexivity. Qed.

(** [clone] on references: the original is read, the copy is a new
    object with the contents [Board.clone] computes. *)
Lemma store_clone σ (this : nat) b :
  σ !! this = Some b →
  Store.clone σ this
  = (<[fresh (dom σ) := clone b]> σ, fresh (dom σ)).
Proof.
  intros Hthis. unfold Store.clone, Store.alloc.
  pose proof (fresh_not_allocated σ this b Hthis) as Hfresh.
  set (nb := fresh (dom σ)) in *.
  assert (∀ b', Store.size (<[nb := b']> σ) this = size b) as Hsize.
  { intros b'. unfold Store.size.
    rewrite lookup_total_insert_ne by congruence.
    rewrite (lookup_total_correct σ this b Hthis). reflexivity. }
  assert (Store.size σ this = size b) as Hsize0.
  { unfold Store.size. rewrite (lookup_total_correct σ this b Hthis).
    reflexivity. }
  f_equal. unfold clone. rewrite Hsize, Hsize0.
  apply (for_range_sim (λ σ' b', σ' = <[nb := b']> σ)); [reflexivity|].
  intros row σ1 b1 _ ->. rewrite Hsize.
  apply (for_range_sim (λ σ' b', σ' = <[nb := b']> σ)); [reflexivity|].
  intros col σ2 b2 _ ->. rewrite store_setCell. do 2 f_equal.
  unfold Store.getCell. rewrite lookup_total_insert_ne by congruence.
  rewrite (lookup_total_correct σ this b Hthis). reflexivity.
Qed.

Lemma store_collectLine σ (r : nat) b row :
  Store.collectLine (<[r := b]> σ) r row = collectLine b row.
Proof.
  unfold Store.collectLine, collectLine. rewrite store_size.
  apply for_range_ext. intros col l _. rewrite store_getCell. reflexivity.
Qed.

Lemma store_writeLine σ (r : nat) b row l mv :
  Store.writeLine r row l (<[r := b]> σ, mv)
  = (<[r := (writeLine row l (b, mv)).1]> σ, (writeLine row l (b, mv)).2).
Proof.
  unfold Store.writeLine, writeLine. cbn [fst]. rewrite store_size.
  apply (for_range_sim
           (λ (st : gmap nat Board * bool) (st' : Board * bool),
              st = (<[r := st'.1]> σ, st'.2))); [reflexivity|].
  intros col st [b1 mv1] _ ->. cbn [fst snd].
  rewrite store_getCell, store_setCell. case_bool_decide; reflexivity.
Qed.

(** The move functions on references do to the object what the
    functions of [MoveProcessor] do to its contents. *)
Lemma store_moveLeft σ (r : nat) b :
  Store.moveLeft (<[r := b]> σ) r
  = (<[r := (moveLeft b).1]> σ, (moveLeft b).2).
Proof.
  unfold Store.moveLeft, moveLeft. rewrite store_size.
  set (loop := for_range (size b) _ (b, false, 0%Z)).
  set (loop' := for_range (size b) _ (<[r := b]> σ, false, 0%Z)).
  assert (loop' = (<[r := loop.1.1]> σ, loop.1.2, loop.2)) as ->.
  { apply (for_range_sim
             (λ (st : gmap nat Board * bool * Z) (st' : Board * bool * Z),
                st = (<[r := st'.1.1]> σ, st'.1.2, st'.2))); [reflexivity|].
    intros row st [[b1 mv1] sc1] _ ->. cbn [fst snd].
    rewrite store_collectLine, store_writeLine.
    destruct (writeLine row _ (b1, mv1)) as [b2 mv2]. reflexivity. }
  destruct loop as [[b' mv'] sc']. reflexivity.
Qed.

Lemma store_reverseRows σ (r : nat) b :
  Store.reverseRows (<[r := b]> σ) r = <[r := reverseRows b]> σ.
Proof.
  unfold Store.reverseRows, reverseRows. rewrite store_size.
  apply (for_range_sim (λ σ' b', σ' = <[r := b']> σ)); [reflexivity|].
  intros row σ1 b1 _ ->. rewrite store_size.
  apply (for_range_sim (λ σ' b', σ' = <[r := b']> σ)); [reflexivity|].
  intros col σ2 b2 _ ->. cbn zeta.
  rewrite store_size, !store_getCell, store_setCell, store_setCell.
  reflexivity.
Qed.

Lemma store_transpose σ (r : nat) b :
  Store.transpose (<[r := b]> σ) r = <[r := transpose b]> σ.
Proof.
  unfold Store.transpose, transpose. rewrite store_size.
  apply (for_range_sim (λ σ' b', σ' = <[r := b']> σ)); [reflexivity|].
  intros row σ1 b1 _ ->. rewrite store_size.
  apply (fold_left_sim (λ σ' b', σ' = <[r := b']> σ)); [reflexivity|].
  intros col σ2 b2 ->. cbn zeta.
  rewrite !store_getCell, store_setCell, store_setCell. reflexivity.
Qed.

Lemma store_moveRight σ (r : nat) b :
  Store.moveRight (<[r := b]> σ) r
  = (<[r := (moveRight b).1]> σ, (moveRight b).2).
Proof.
  unfold Store.moveRight, moveRight.
  rewrite store_reverseRows, store_moveLeft.
  destruct (moveLeft (reverseRows b)) as [b1 result]. cbn [fst snd].
  rewrite store_reverseRows. reflexivity.
Qed.

Lemma store_moveUp σ (r : nat) b :
  Store.moveUp (<[r := b]> σ) r
  = (<[r := (moveUp b).1]> σ, (moveUp b).2).
Proof.
  unfold Store.moveUp, moveUp.
  rewrite store_transpose, store_moveLeft.
  destruct (moveLeft (transpose b)) as [b1 result]. cbn [fst snd].
  rewrite store_transpose. reflexivity.
Qed.

Lemma store_moveDown σ (r : nat) b :
  Store.moveDown (<[r := b]> σ) r
  = (<[r := (moveDown b).1]> σ, (moveDown b).2).
Proof.
  unfold Store.moveDown, moveDown.
  rewrite store_transpose, store_moveRight.
  destruct (moveRight (transpose b)) as [b1 result]. cbn [fst snd].
  rewrite store_transpose. reflexivity.
Qed.

(** The two [switch] statements choose the same move. *)
Lemma store_moveOf direction :
  match Store.moveOf direction, moveOf direction with
  | Some move, Some move' =>
      ∀ σ (r : nat) b,
        move (<[r := b]> σ) r = (<[r := (move' b).1]> σ, (move' b).2)
  | None, None => True
  | _, _ => False
  end.
Proof.
  unfold Store.moveOf, moveOf.
  destruct (String.eqb direction "left"); [apply store_moveLeft|].
  destruct (String.eqb direction "right"); [apply store_moveRight|].
  destruct (String.eqb direction "up"); [apply store_moveUp|].
  destruct (String.eqb direction "down"); [apply store_moveDown|].
  exact I.
Qed.

(** [canMove] on references: the only object written is the clone,
    and the answer is the one computed from the contents. *)
Lemma store_canMove σ (board : nat) b direction :
  σ !! board = Some b →
  ∃ testBoard contents,
    Store.canMove σ board direction
    = (<[testBoard := contents]> σ, canMove b direction)
    ∧ σ !! testBoard = None.
Proof.
  intros Hb. unfold Store.canMove, canMove.
  rewrite (store_clone σ board b Hb).
  pose proof (is_fresh (dom σ)) as Hfresh. apply not_elem_of_dom in Hfresh.
  set (nb := fresh (dom σ)) in *.
  pose proof (store_moveOf direction) as Hmove.
  destruct (Store.moveOf direction) as [move|],
    (moveOf direction) as [move'|]; try contradiction.
  - rewrite Hmove. eauto.
  - eauto.
Qed.

(** On a well-formed board [canMove] is the [moved] flag of the move
    itself. *)
Lemma canMove_moved b direction move :
  wf b → moveOf direction = Some move →
  canMove b direction = moved (move b).2.
Proof.
  intros Hwf Hmove. unfold canMove. rewrite Hmove, clone_wf by assumption.
  reflexivity.
Qed.
End StoreFacts.

(** ** The engine *)

Section Engine.
Import Board MoveProcessor Notions.
Implicit Types (e : GameEngine.GameEngine) (b : Board).

Lemma validateGameState_valid e :
  (0 ≤ GameEngine.score e)%Z → (0 ≤ GameEngine.moveCount e)%Z →
  GameEngine.validateGameState e = e.
Proof.
  intros Hs Hm. unfold GameEngine.validateGameState.
  destruct (Z.ltb_spec (GameEngine.score e) 0); [lia|].
  destruct (Z.ltb_spec (GameEngine.moveCount e) 0); [lia|]. reflexivity.
Qed.

Lemma validateDirection_true direction :
  GameEngine.validateDirection direction = true →
  ∃ d move, direction = GameEngine.Str d ∧ moveOf d = Some move.
Proof.
  destruct direction as [d|]; [|discriminate]. simpl.
  intros H. apply bool_decide_eq_true in H. exists d.
  repeat (apply elem_of_cons in H as [->|H]); [eauto..|].
  apply elem_of_nil in H. contradiction.
Qed.

Lemma addRandomTile_shape b pick small :
  wf b →
  wf (addRandomTile b pick small).1
  ∧ size (addRandomTile b pick small).1 = size b.
Proof.
  intros Hwf. unfold addRandomTile.
  destruct (length (getEmptyCells b) =? 0); [split; [assumption|reflexivity]|].
  destruct (getEmptyCells b !! _) as [[row col]|]; simpl;
    [|split; [assumption|reflexivity]].
  split; [apply wf_setCell, Hwf|apply size_setCell].
Qed.

(** The scan of [checkWinCondition] finds a cell holding 2048 when
    there is one. *)
Lemma win_scan b n :
  n = size b →
  for_range n (λ row found,
    for_range n (λ col found,
      found || bool_decide (getCell b (Z.of_nat row) (Z.of_nat col)
                            = Some 2048%Z)) found) false = true
  ↔ holds b 2048.
Proof.
  intros ->. set (n := size b).
  assert (∀ k, k ≤ n →
    for_range k (λ row found,
      for_range n (λ col found,
        found || bool_decide (getCell b (Z.of_nat row) (Z.of_nat col)
                              = Some 2048%Z)) found) false = true
    ↔ ∃ r c, r < k ∧ c < n ∧ cellAt (grid b) r c = 2048%Z) as Hinv.
  { induction k as [|k IH]; intros Hk.
    - rewrite for_range_0. split; [discriminate|intros (r & c & Hr & _); lia].
    - rewrite for_range_S. specialize (IH ltac:(lia)).
      set (found0 := for_range k _ false) in *.
      assert (∀ j, j ≤ n →
        for_range j (λ col found,
          found || bool_decide (getCell b (Z.of_nat k) (Z.of_nat col)
                                = Some 2048%Z)) found0 = true
        ↔ found0 = true
          ∨ ∃ c, c < j ∧ cellAt (grid b) k c = 2048%Z) as Hrow.
      { induction j as [|j IHj]; intros Hj.
        - rewrite for_range_0. split; [tauto|intros [H|(c & Hc & _)]; [exact H|lia]].
        - rewrite for_range_S, orb_true_iff, (IHj ltac:(lia)), bool_decide_eq_true.
          rewrite getCell_inside by (fold n; lia).
          split.
          + intros [[H|(c & Hc & H)]|[= H]]; [left; exact H|right..].
            * exists c. split; [lia|exact H].
            * exists j. split; [lia|exact H].
          + intros [H|(c & Hc & H)]; [left; left; exact H|].
            destruct (decide (c = j)) as [->|].
            * right. f_equal. exact H.
            * left. right. exists c. split; [lia|exact H]. }
      rewrite (Hrow n ltac:(lia)), IH. split.
      + intros [(r & c & Hr & Hc & H)|(c & Hc & H)].
        * exists r, c. repeat split; [lia|assumption..].
        * exists k, c. repeat split; [lia|assumption..].
      + intros (r & c & Hr & Hc & H). destruct (decide (r = k)) as [->|].
        * right. eauto.
        * left. exists r, c. repeat split; [lia|assumption..]. }
  rewrite (Hinv n ltac:(lia)). unfold holds. fold n. reflexivity.
Qed.

(** [checkWinCondition] changes at most [isWin], and sets it exactly
    when a cell holds 2048. *)
Lemma checkWinCondition_spec e :
  GameEngine.size e = size (GameEngine.board e) →
  GameEngine.isWin e = false →
  ∃ w, GameEngine.checkWinCondition e = GameEngine.withIsWin e w
       ∧ (w = true ↔ holds (GameEngine.board e) 2048).
Proof.
  intros Hsize Hwin. unfold GameEngine.checkWinCondition. rewrite Hwin.
  pose proof (win_scan (GameEngine.board e) (GameEngine.size e) Hsize) as Hscan.
  destruct (for_range _ _ false) eqn:Hfound.
  - exists true. split; [reflexivity|]. rewrite <- Hscan. tauto.
  - exists false. split.
    + destruct e; simpl in *. subst. reflexivity.
    + rewrite <- Hscan. split; discriminate.
Qed.

(** [checkGameOverCondition] changes at most [isGameOver]. *)
Lemma checkGameOverCondition_spec e :
  GameEngine.isGameOver e = false →
  ∃ g, GameEngine.checkGameOverCondition e = GameEngine.withIsGameOver e g
       ∧ (g = true ↔
            GameEngine.isWin e = false
            ∧ isFull (GameEngine.board e) = true
            ∧ ∀ d, d ∈ directions → canMove (GameEngine.board e) d = false).
Proof.
  intros Hover. unfold GameEngine.checkGameOverCondition.
  assert (∀ g, g = false → e = GameEngine.withIsGameOver e g) as Hsame.
  { intros g ->. destruct e; simpl in *. subst. reflexivity. }
  destruct (GameEngine.isWin e).
  { exists false. split; [apply Hsame; reflexivity|].
    split; [discriminate|intros [? _]; discriminate]. }
  destruct (isFull (GameEngine.board e)); simpl.
  2: { exists false. split; [apply Hsame; reflexivity|].
       split; [discriminate|intros (_ & ? & _); discriminate]. }
  destruct (canMove (GameEngine.board e) "left") eqn:Hl; simpl.
  { exists false. split; [apply Hsame; reflexivity|]. split; [discriminate|].
    intros (_ & _ & H). rewrite H in Hl; [discriminate|]. unfold directions. set_solver. }
  destruct (canMove (GameEngine.board e) "right") eqn:Hr; simpl.
  { exists false. split; [apply Hsame; reflexivity|]. split; [discriminate|].
    intros (_ & _ & H). rewrite H in Hr; [discriminate|]. unfold directions. set_solver. }
  destruct (canMove (GameEngine.board e) "up") eqn:Hu; simpl.
  { exists false. split; [apply Hsame; reflexivity|]. split; [discriminate|].
    intros (_ & _ & H). rewrite H in Hu; [discriminate|]. unfold directions. set_solver. }
  destruct (canMove (GameEngine.board e) "down") eqn:Hd; simpl.
  { exists false. split; [apply Hsame; reflexivity|]. split; [discriminate|].
    intros (_ & _ & H). rewrite H in Hd; [discriminate|]. unfold directions. set_solver. }
  exists true. split; [reflexivity|]. split; [|reflexivity].
  intros _. repeat split. intros d Hin. unfold directions in Hin.
  repeat (apply elem_of_cons in Hin as [->|Hin]); try assumption.
  apply elem_of_nil in Hin. contradiction.
Qed.

(** What a call of [move] that returns [true] did. *)
Lemma move_true e direction pick small e' :
  valid e →
  GameEngine.move e direction pick small = GameEngine.Returns (e', true) →
  ∃ d move,
    direction = GameEngine.Str d ∧ moveOf d = Some move
    ∧ GameEngine.isWin e = false ∧ GameEngine.isGameOver e = false
    ∧ moved (move (GameEngine.board e)).2 = true
    ∧ (0 ≤ score (move (GameEngine.board e)).2)%Z
    ∧ GameEngine.board e'
      = (addRandomTile (move (GameEngine.board e)).1 pick small).1
    ∧ GameEngine.size e' = GameEngine.size e
    ∧ GameEngine.score e'
      = (GameEngine.score e + score (move (GameEngine.board e)).2)%Z
    ∧ GameEngine.moveCount e' = (GameEngine.moveCount e + 1)%Z
    ∧ (GameEngine.isWin e' = true ↔ holds (GameEngine.board e') 2048)
    ∧ (GameEngine.isGameOver e' = true ↔
         ¬ holds (GameEngine.board e') 2048
         ∧ isFull (GameEngine.board e') = true
         ∧ ∀ d, d ∈ directions → canMove (GameEngine.board e') d = false).
Proof.
  intros (Hsize & Hwf & Hscore & Hcount) Hmove.
  unfold GameEngine.move in Hmove.
  destruct (GameEngine.validateDirection direction) eqn:Hdir; [|discriminate].
  destruct (GameEngine.isGameOver e) eqn:Hover; [discriminate|].
  destruct (GameEngine.isWin e) eqn:Hwin; [discriminate|].
  cbn [negb orb] in Hmove.
  rewrite validateGameState_valid in Hmove by assumption.
  destruct direction as [d|]; [|discriminate].
  destruct (moveOf d) as [move|] eqn:Hd; [|discriminate].
  change (GameEngine.board (GameEngine.saveState e))
    with (GameEngine.board e) in Hmove.
  destruct (soundMove_moveOf d move Hd (GameEngine.board e) Hwf)
    as (Hwf1 & Hs1 & _ & _).
  destruct (move (GameEngine.board e)) as [b1 result] eqn:Hres.
  cbn [fst snd] in *.
  destruct (moved result) eqn:Hmoved; [|discriminate].
  destruct (GameEngine.validateMoveResult result) eqn:Hvalid; [|discriminate].
  unfold GameEngine.validateMoveResult in Hvalid.
  apply negb_true_iff, Z.ltb_ge in Hvalid.
  destruct (addRandomTile_shape b1 pick small Hwf1) as (Hwf2 & Hs2).
  match type of Hmove with
  | GameEngine.Returns (GameEngine.checkGameOverCondition
                          (GameEngine.checkWinCondition ?x), _) = _ =>
      set (e3 := x) in *
  end.
  assert (GameEngine.board e3 = (addRandomTile b1 pick small).1) as Hb3
    by reflexivity.
  destruct (checkWinCondition_spec e3) as (w & Hw & Hwiff).
  { rewrite Hb3, Hs2, Hs1. exact Hsize. }
  { exact Hwin. }
  rewrite Hw in Hmove.
  destruct (checkGameOverCondition_spec (GameEngine.withIsWin e3 w))
    as (g & Hg & Hgiff); [exact Hover|].
  rewrite Hg in Hmove. injection Hmove as <-.
  exists d, move. rewrite Hres. cbn [fst snd].
  do 10 (split; [first [reflexivity|assumption]|]). split.
  - exact Hwiff.
  - change (g = true ↔
            ¬ holds (GameEngine.board e3) 2048
            ∧ isFull (GameEngine.board e3) = true
            ∧ ∀ d0, d0 ∈ directions → canMove (GameEngine.board e3) d0 = false).
    rewrite Hgiff. cbn [GameEngine.withIsWin GameEngine.isWin GameEngine.board].
    split; intros (H1 & H2 & H3); repeat split; try assumption.
    + intros Hholds. apply Hwiff in Hholds. congruence.
    + destruct w; [|reflexivity]. exfalso. apply H1, Hwiff. reflexivity.
Qed.

Lemma nonNegative_setCell b row col v :
  nonNegative b → (0 ≤ v)%Z → nonNegative (setCell b row col v).
Proof.
  intros Hpos Hv. unfold setCell. case_match; [|exact Hpos].
  unfold nonNegative, storeAt. simpl.
  apply Forall_alter; [exact Hpos|].
  intros r _ Hr. apply Forall_insert; assumption.
Qed.

Lemma addRandomTile_nonNegative b pick small :
  nonNegative b → nonNegative (addRandomTile b pick small).1.
Proof.
  intros Hpos. unfold addRandomTile.
  destruct (length (getEmptyCells b) =? 0); [exact Hpos|].
  destruct (getEmptyCells b !! _) as [[row col]|]; [|exact Hpos].
  apply nonNegative_setCell; [exact Hpos|]. destruct small; lia.
Qed.

Lemma nonNegative_initialize b : nonNegative (initialize b).
Proof.
  unfold nonNegative. simpl. apply Forall_forall. intros r Hr.
  apply elem_of_replicate in Hr as [-> _].
  apply Forall_forall. intros v Hv.
  apply elem_of_replicate in Hv as [-> _]. reflexivity.
Qed.

(** The constructor establishes the invariant. *)
Lemma valid_new size e :
  GameEngine.new size = GameEngine.Returns e →
  valid e ∧ nonNegative (GameEngine.board e)
  ∧ 2 ≤ GameEngine.size e ≤ 10.
Proof.
  unfold GameEngine.new, GameEngine.validateSize.
  destruct (Z.ltb_spec size 2), (Z.ltb_spec 10 size); try discriminate.
  intros [= <-]. simpl. split; [|split].
  - split; [reflexivity|]. split; [apply wf_initialize|]. simpl. lia.
  - apply nonNegative_initialize.
  - lia.
Qed.

(** [initializeGame] keeps the invariant. *)
Lemma valid_initializeGame e pick1 small1 pick2 small2 e' :
  GameEngine.size e = size (GameEngine.board e) →
  GameEngine.initializeGame e pick1 small1 pick2 small2
  = GameEngine.Returns e' →
  valid e' ∧ nonNegative (GameEngine.board e')
  ∧ GameEngine.size e' = GameEngine.size e.
Proof.
  intros Hsize. unfold GameEngine.initializeGame.
  destruct (GameEngine.validateInitialization _); [|discriminate].
  intros [= <-].
  cbn [GameEngine.withBoard GameEngine.board GameEngine.size
       GameEngine.score GameEngine.moveCount].
  set (b0 := initialize (GameEngine.board (GameEngine.validateGameState e))).
  pose proof (wf_initialize (GameEngine.board (GameEngine.validateGameState e)))
    as Hwf0. fold b0 in Hwf0.
  destruct (addRandomTile_shape b0 pick1 small1 Hwf0) as [Hwf1 Hs1].
  destruct (addRandomTile_shape _ pick2 small2 Hwf1) as [Hwf2 Hs2].
  assert (GameEngine.size (GameEngine.validateGameState e) = GameEngine.size e
          ∧ GameEngine.board (GameEngine.validateGameState e)
            = GameEngine.board e) as [Hs Hb].
  { unfold GameEngine.validateGameState.
    destruct (GameEngine.score e <? 0)%Z;
      [destruct (GameEngine.moveCount (GameEngine.withScore e 0) <? 0)%Z
      |destruct (GameEngine.moveCount e <? 0)%Z];
      split; reflexivity. }
  split; [|split].
  - split; [|split; [exact Hwf2|simpl; lia]].
    simpl. rewrite Hs2, Hs1. unfold b0. simpl. congruence.
  - do 2 apply addRandomTile_nonNegative. apply nonNegative_initialize.
  - exact Hs.
Qed.

(** On an engine that satisfies the invariant and whose board has no
    negative cell, the [try] block of [move] runs to its end: the
    [catch] clause is not entered.  The engine it leaves satisfies the
    same conditions. *)
Theorem move_returns e direction pick small :
  valid e → nonNegative (GameEngine.board e) →
  ∃ e' result,
    GameEngine.move e direction pick small = GameEngine.Returns (e', result)
    ∧ valid e' ∧ nonNegative (GameEngine.board e')
    ∧ GameEngine.size e' = GameEngine.size e.
Proof.
  intros Hvalid Hpos. pose proof Hvalid as (Hsize & Hwf & Hscore & Hcount).
  unfold GameEngine.move.
  destruct (GameEngine.validateDirection direction) eqn:Hdir;
    [|exists e, false; split; [reflexivity|];
       split; [exact Hvalid|]; split; [exact Hpos|reflexivity]].
  destruct (GameEngine.isGameOver e) eqn:Hover;
    [exists e, false; split; [reflexivity|];
       split; [exact Hvalid|]; split; [exact Hpos|reflexivity]|].
  destruct (GameEngine.isWin e) eqn:Hwin;
    [exists e, false; split; [reflexivity|];
       split; [exact Hvalid|]; split; [exact Hpos|reflexivity]|].
  cbn [negb orb]. rewrite validateGameState_valid by assumption.
  destruct (validateDirection_true direction Hdir) as (d & move & -> & Hd).
  rewrite Hd.
  change (GameEngine.board (GameEngine.saveState e)) with (GameEngine.board e).
  destruct (soundMove_moveOf d move Hd (GameEngine.board e) Hwf)
    as (Hwf1 & Hs1 & _ & _ & Hpos1).
  destruct (Hpos1 Hpos) as [Hpos2 Hres]. clear Hpos1.
  destruct (move (GameEngine.board e)) as [b1 result]. cbn [fst snd] in *.
  destruct (moved result).
  - unfold GameEngine.validateMoveResult.
    destruct (Z.ltb_spec (score result) 0) as [|_]; [lia|]. cbn [negb].
    destruct (addRandomTile_shape b1 pick small Hwf1) as (Hwf2 & Hs2).
    pose proof (addRandomTile_nonNegative b1 pick small Hpos2) as Hpos3.
    match goal with
    | |- ∃ _ _, GameEngine.Returns (GameEngine.checkGameOverCondition
                                     (GameEngine.checkWinCondition ?x), _) = _ ∧ _ =>
        set (e3 := x)
    end.
    assert (GameEngine.board e3 = (addRandomTile b1 pick small).1) as Hb3
      by reflexivity.
    destruct (checkWinCondition_spec e3) as (w & -> & _);
      [rewrite Hb3, Hs2, Hs1; exact Hsize|exact Hwin|].
    destruct (checkGameOverCondition_spec (GameEngine.withIsWin e3 w))
      as (g & -> & _); [exact Hover|].
    eexists _, true. split; [reflexivity|].
    cbn [GameEngine.withIsGameOver GameEngine.withIsWin GameEngine.board
         GameEngine.size]. rewrite Hb3.
    split; [|split; [exact Hpos3|reflexivity]].
    split; [|split; [exact Hwf2|simpl; lia]].
    simpl. rewrite Hs2, Hs1. exact Hsize.
  - eexists _, false. split; [reflexivity|]. simpl.
    split; [|split; [exact Hpos2|reflexivity]].
    split; [|split; [exact Hwf1|simpl; lia]].
    simpl. rewrite Hs1. exact Hsize.
Qed.

(** Every engine a program obtains satisfies the invariant, has a
    size between 2 and 10 and no negative cell. *)
Theorem reachable_valid e :
  reachable e →
  valid e ∧ nonNegative (GameEngine.board e) ∧ 2 ≤ GameEngine.size e ≤ 10.
Proof.
  induction 1 as [size e Hnew
                 |e pick1 small1 pick2 small2 e' _ (Hvalid & Hpos & Hsize) Hinit
                 |e direction pick small e' result _ (Hvalid & Hpos & Hsize) Hmove].
  - apply (valid_new size e Hnew).
  - destruct (valid_initializeGame e pick1 small1 pick2 small2 e')
      as (H1 & H2 & H3); [apply Hvalid|exact Hinit|].
    split; [exact H1|]. split; [exact H2|]. lia.
  - destruct (move_returns e direction pick small Hvalid Hpos)
      as (e1 & r1 & Heq & H1 & H2 & H3).
    rewrite Heq in Hmove. injection Hmove as <- <-.
    split; [exact H1|]. split; [exact H2|]. lia.
Qed.
End Engine.




(** ** Empty cells and new tiles *)

Section Tiles.
Import Board MoveProcessor Notions.
Implicit Types (b : Board) (g : list (list Z)) (l : list Z).

(** [getEmptyCells] lists the positions inside the board that hold 0. *)
Lemma getEmptyCells_spec b r c :
  (r, c) ∈ getEmptyCells b
  ↔ r < size b ∧ c < size b ∧ cellAt (grid b) r c = 0%Z.
Proof.
  unfold getEmptyCells. set (n := size b).
  assert (∀ k, k ≤ n →
    (r, c) ∈ for_range k (λ row emptyCells,
      for_range n (λ col emptyCells,
        if (cellAt (grid b) row col =? 0)%Z
        then emptyCells ++ [(row, col)]
        else emptyCells) emptyCells) []
    ↔ r < k ∧ c < n ∧ cellAt (grid b) r c = 0%Z) as Hinv.
  { induction k as [|k IH]; intros Hk.
    - rewrite for_range_0. split; [intros H; inversion H|lia].
    - rewrite for_range_S. specialize (IH ltac:(lia)).
      set (acc := for_range k _ []) in *.
      assert (∀ j, j ≤ n →
        (r, c) ∈ for_range j (λ col emptyCells,
          if (cellAt (grid b) k col =? 0)%Z
          then emptyCells ++ [(k, col)]
          else emptyCells) acc
        ↔ (r, c) ∈ acc
          ∨ (r = k ∧ c < j ∧ cellAt (grid b) r c = 0%Z)) as Hrow.
      { induction j as [|j IHj]; intros Hj.
        - rewrite for_range_0. split; [tauto|intros [H|H]; [exact H|lia]].
        - rewrite for_range_S. specialize (IHj ltac:(lia)).
          destruct (Z.eqb_spec (cellAt (grid b) k j) 0) as [Hz|Hz].
          + rewrite elem_of_app, IHj, list_elem_of_singleton. split.
            * intros [[H|(-> & Hc & H)]|[= -> ->]]; [left; exact H|right..].
              -- repeat split; [lia|exact H].
              -- repeat split; [lia|exact Hz].
            * intros [H|(-> & Hc & H)]; [left; left; exact H|].
              destruct (decide (c = j)) as [->|]; [right; reflexivity|].
              left. right. repeat split; [lia|exact H].
          + rewrite IHj. split.
            * intros [H|(-> & Hc & H)]; [left; exact H|right].
              repeat split; [lia|exact H].
            * intros [H|(-> & Hc & H)]; [left; exact H|right].
              destruct (decide (c = j)) as [->|]; [contradiction|].
              repeat split; [lia|exact H]. }
      rewrite (Hrow n ltac:(lia)), IH. split.
      + intros [(Hr & Hc & H)|(-> & Hc & H)]; repeat split; try assumption; lia.
      + intros (Hr & Hc & H). destruct (decide (r = k)) as [->|].
        * right. repeat split; assumption.
        * left. repeat split; try assumption. lia. }
  apply (Hinv n). lia.
Qed.

(** With an empty cell on the board, [addRandomTile] writes a 2 or
    a 4 into an empty cell. *)
Lemma addRandomTile_spec b pick small :
  (∃ r c, r < size b ∧ c < size b ∧ cellAt (grid b) r c = 0%Z) →
  ∃ r c, r < size b ∧ c < size b ∧ cellAt (grid b) r c = 0%Z
    ∧ addRandomTile b pick small
      = (setCell b (Z.of_nat r) (Z.of_nat c) (if small then 2%Z else 4%Z),
         true).
Proof.
  intros (r0 & c0 & Hempty). apply getEmptyCells_spec in Hempty.
  unfold addRandomTile.
  destruct (getEmptyCells b) as [|cell cells] eqn:Hcells; [inversion Hempty|].
  rewrite <- Hcells. clear Hempty.
  assert (length (getEmptyCells b) ≠ 0) as Hlen by (rewrite Hcells; simpl; lia).
  destruct (Nat.eqb_spec (length (getEmptyCells b)) 0) as [|_]; [contradiction|].
  destruct (lookup_lt_is_Some_2 (getEmptyCells b)
              (pick mod length (getEmptyCells b))) as [[r c] Hpick].
  { apply Nat.mod_upper_bound. exact Hlen. }
  rewrite Hpick. exists r, c.
  assert ((r, c) ∈ getEmptyCells b) as Hin
    by (apply list_elem_of_lookup; eauto).
  apply getEmptyCells_spec in Hin as (Hr & Hc & Hz).
  repeat split; assumption.
Qed.

Lemma count_insert l col v :
  l !! col = Some 0%Z → v ≠ 0%Z →
  length (nonZero (<[col := v]> l)) = S (length (nonZero l)).
Proof.
  revert col. induction l as [|x l IH]; intros col Hcol Hv; [discriminate|].
  unfold nonZero in *. destruct col as [|col]; simpl in *.
  - injection Hcol as ->.
    rewrite filter_cons_True by assumption.
    rewrite filter_cons_False by (intros H; apply H; reflexivity).
    reflexivity.
  - destruct (decide (x = 0%Z)) as [->|Hx].
    + rewrite !filter_cons_False by (intros H; apply H; reflexivity).
      apply IH; assumption.
    + rewrite !filter_cons_True by assumption. simpl.
      rewrite IH by assumption. reflexivity.
Qed.

Lemma nonZero_app l1 l2 : nonZero (l1 ++ l2) = nonZero l1 ++ nonZero l2.
Proof. apply filter_app. Qed.

Lemma count_storeAt g row col v :
  cellAt g row col = 0%Z → v ≠ 0%Z →
  (∃ r, g !! row = Some r ∧ col < length r) →
  length (nonZero (concat (storeAt g row col v)))
  = S (length (nonZero (concat g))).
Proof.
  revert row. induction g as [|r0 g IH]; intros row Hz Hv (r & Hr & Hc);
    [discriminate|].
  destruct row as [|row]; simpl in *.
  - injection Hr as ->. unfold cellAt in Hz. simpl in Hz.
    destruct (lookup_lt_is_Some_2 r col Hc) as [x Hx].
    rewrite Hx in Hz. simpl in Hz. subst x.
    rewrite !nonZero_app, !length_app, count_insert by assumption. lia.
  - rewrite !nonZero_app, !length_app.
    rewrite (IH row); [lia|exact Hz|exact Hv|eauto].
Qed.

(** A tile written into an empty cell is one more tile. *)
Lemma tileCount_setCell b r c v :
  wf b → r < size b → c < size b →
  cellAt (grid b) r c = 0%Z → v ≠ 0%Z →
  tileCount (setCell b (Z.of_nat r) (Z.of_nat c) v) = S (tileCount b).
Proof.
  intros Hwf Hr Hc Hz Hv. rewrite setCell_inside by assumption.
  unfold tileCount. simpl. apply count_storeAt; try assumption.
  destruct (wf_lookup b r Hwf Hr) as [row Hrow]. exists row.
  split; [exact Hrow|]. rewrite (wf_row b r row Hwf Hrow). exact Hc.
Qed.

Lemma tileCount_initialize b : tileCount (initialize b) = 0.
Proof.
  unfold tileCount, initialize. simpl. generalize (size b) at 1.
  intros k. induction k as [|k IH]; [reflexivity|].
  simpl. fold (nonZero (replicate (size b) 0%Z ++ concat (replicate k (replicate (size b) 0%Z)))).
  rewrite nonZero_app, nonZero_zeros. exact IH.
Qed.

Lemma freshTiles_setCell b r c v :
  wf b → r < size b → c < size b → freshTiles b →
  v = 2%Z ∨ v = 4%Z →
  freshTiles (setCell b (Z.of_nat r) (Z.of_nat c) v).
Proof.
  intros Hwf Hr Hc Hfresh Hv row col Hrow Hcol.
  rewrite size_setCell in Hrow, Hcol.
  rewrite cellAt_setCell by assumption.
  case_decide; [intros _; exact Hv|apply Hfresh; assumption].
Qed.

Lemma freshTiles_initialize b : freshTiles (initialize b).
Proof.
  intros row col Hrow Hcol H. exfalso. apply H. simpl.
  apply cellAt_replicate; assumption.
Qed.

(** [validateInitialization] accepts a board of two tiles, each a 2
    or a 4. *)
Lemma validateInitialization_accepts (e : GameEngine.GameEngine) :
  GameEngine.size e = size (GameEngine.board e) →
  wf (GameEngine.board e) → freshTiles (GameEngine.board e) →
  tileCount (GameEngine.board e) = 2 →
  GameEngine.validateInitialization e = GameEngine.Returns tt.
Proof.
  intros Hsize Hwf Hfresh Hcount. unfold GameEngine.validateInitialization.
  rewrite Hsize. set (b := GameEngine.board e) in *. set (n := size b).
  assert (∀ k, k ≤ n →
    for_range k (λ row st,
      for_range n (λ col st,
        match st with
        | GameEngine.Throws m => GameEngine.Throws m
        | GameEngine.Returns tileCount =>
            match getCell b (Z.of_nat row) (Z.of_nat col) with
            | Some value =>
                if (value =? 0)%Z then GameEngine.Returns tileCount
                else if (value =? 2)%Z || (value =? 4)%Z
                     then GameEngine.Returns (S tileCount)
                     else GameEngine.Throws "Invalid initial tile value"
            | None => GameEngine.Throws "Invalid initial tile value"
            end
        end) st) (GameEngine.Returns 0)
    = GameEngine.Returns (length (nonZero (concat (take k (grid b))))))
    as Hinv.
  { induction k as [|k IH]; intros Hk; [reflexivity|].
    rewrite for_range_S, (IH ltac:(lia)).
    destruct (wf_lookup b k Hwf ltac:(lia)) as [row Hrow].
    assert (length row = n) as Hlen by (eapply wf_row; eassumption).
    rewrite (take_S_r _ _ row) by assumption.
    rewrite concat_app, nonZero_app, length_app. simpl. rewrite app_nil_r.
    generalize (length (nonZero (concat (take k (grid b))))). intros c0.
    assert (∀ j, j ≤ n →
      for_range j (λ col st,
        match st with
        | GameEngine.Throws m => GameEngine.Throws m
        | GameEngine.Returns tileCount =>
            match getCell b (Z.of_nat k) (Z.of_nat col) with
            | Some value =>
                if (value =? 0)%Z then GameEngine.Returns tileCount
                else if (value =? 2)%Z || (value =? 4)%Z
                     then GameEngine.Returns (S tileCount)
                     else GameEngine.Throws "Invalid initial tile value"
            | None => GameEngine.Throws "Invalid initial tile value"
            end
        end) (GameEngine.Returns c0)
      = GameEngine.Returns (c0 + length (nonZero (take j row)))) as Hrowinv.
    { induction j as [|j IHj]; intros Hj.
      - rewrite for_range_0. simpl. f_equal. lia.
      - rewrite for_range_S, (IHj ltac:(lia)).
        rewrite getCell_inside by (fold n; lia).
        destruct (lookup_lt_is_Some_2 row j ltac:(lia)) as [x Hx].
        rewrite (take_S_r _ _ x) by assumption.
        rewrite nonZero_snoc.
        pose proof (Hfresh k j ltac:(fold n; lia) ltac:(fold n; lia)) as Hx24.
        rewrite (cellAt_row _ _ row) in * by assumption.
        rewrite Hx in *. simpl in *.
        destruct (Z.eqb_spec x 0) as [->|Hnz].
        + rewrite decide_True by reflexivity. reflexivity.
        + rewrite decide_False by assumption.
          destruct (Hx24 Hnz) as [->| ->]; simpl; rewrite length_app; simpl;
            f_equal; lia. }
    rewrite (Hrowinv n ltac:(lia)), take_ge by lia. reflexivity. }
  rewrite (Hinv n ltac:(lia)).
  rewrite take_ge by (rewrite (wf_length b Hwf); fold n; lia).
  change (length (nonZero (concat (grid b)))) with (tileCount b).
  rewrite Hcount. reflexivity.
Qed.

(** [addRandomTile] leaves the board as it is, or writes a 2 or a 4
    into an empty cell. *)
Lemma addRandomTile_cases b pick small :
  (addRandomTile b pick small).1 = b
  ∨ ∃ r c, r < size b ∧ c < size b ∧ cellAt (grid b) r c = 0%Z
      ∧ (addRandomTile b pick small).1
        = setCell b (Z.of_nat r) (Z.of_nat c) (if small then 2%Z else 4%Z).
Proof.
  destruct (getEmptyCells b) as [|[r0 c0] cells] eqn:Hcells.
  - left. unfold addRandomTile. rewrite Hcells. reflexivity.
  - right. destruct (addRandomTile_spec b pick small) as (r & c & Hr & Hc & Hz & ->).
    + exists r0, c0. apply getEmptyCells_spec. rewrite Hcells. left.
    + exists r, c. repeat split; assumption.
Qed.

(** A new tile keeps the board well formed with tiles 2 and 4 only,
    and adds at most one tile. *)
Lemma addRandomTile_tiles b pick small :
  wf b → freshTiles b →
  wf (addRandomTile b pick small).1
  ∧ freshTiles (addRandomTile b pick small).1
  ∧ tileCount (addRandomTile b pick small).1 ≤ S (tileCount b).
Proof.
  intros Hwf Hfresh.
  destruct (addRandomTile_cases b pick small) as [->|(r & c & Hr & Hc & Hz & ->)].
  - repeat split; try assumption; try apply Hwf. lia.
  - split; [apply wf_setCell, Hwf|]. split.
    + apply freshTiles_setCell; try assumption. destruct small; tauto.
    + rewrite tileCount_setCell by (try assumption; destruct small; lia). lia.
Qed.

(** When [validateInitialization] accepts, it counted two tiles among
    the cells of the board. *)
Lemma validateInitialization_counted (e : GameEngine.GameEngine) :
  wf (GameEngine.board e) →
  GameEngine.validateInitialization e = GameEngine.Returns tt →
  2 ≤ tileCount (GameEngine.board e).
Proof.
  intros Hwf. unfold GameEngine.validateInitialization.
  set (b := GameEngine.board e) in *. set (m := GameEngine.size e).
  assert (∀ k,
    ∀ c, for_range k (λ row st,
      for_range m (λ col st,
        match st with
        | GameEngine.Throws msg => GameEngine.Throws msg
        | GameEngine.Returns tileCount =>
            match getCell b (Z.of_nat row) (Z.of_nat col) with
            | Some value =>
                if (value =? 0)%Z then GameEngine.Returns tileCount
                else if (value =? 2)%Z || (value =? 4)%Z
                     then GameEngine.Returns (S tileCount)
                     else GameEngine.Throws "Invalid initial tile value"
            | None => GameEngine.Throws "Invalid initial tile value"
            end
        end) st) (GameEngine.Returns 0) = GameEngine.Returns c →
    c ≤ length (nonZero (concat (take k (grid b))))) as Hinv.
  { induction k as [|k IH]; intros c.
    - rewrite for_range_0. intros [= <-]. lia.
    - rewrite for_range_S.
      destruct (for_range k _ _) as [c0|msg] eqn:Hprev.
      2: { rewrite for_range_fixed by reflexivity. discriminate. }
      specialize (IH c0 eq_refl).
      set (row := default [] (grid b !! k)).
      assert (length (nonZero (concat (take (S k) (grid b))))
              = length (nonZero (concat (take k (grid b))))
                + length (nonZero row)) as Hsplit.
      { unfold row. destruct (grid b !! k) as [r|] eqn:Hr.
        - rewrite (take_S_r _ _ r) by assumption.
          rewrite concat_app, nonZero_app, length_app. simpl.
          rewrite app_nil_r. reflexivity.
        - apply lookup_ge_None in Hr. rewrite !take_ge by lia. simpl. lia. }
      rewrite Hsplit. clear Hsplit.
      assert (∀ j c, for_range j (λ col st,
          match st with
          | GameEngine.Throws msg => GameEngine.Throws msg
          | GameEngine.Returns tileCount =>
              match getCell b (Z.of_nat k) (Z.of_nat col) with
              | Some value =>
                  if (value =? 0)%Z then GameEngine.Returns tileCount
                  else if (value =? 2)%Z || (value =? 4)%Z
                       then GameEngine.Returns (S tileCount)
                       else GameEngine.Throws "Invalid initial tile value"
              | None => GameEngine.Throws "Invalid initial tile value"
              end
          end) (GameEngine.Returns c0) = GameEngine.Returns c →
        c ≤ c0 + length (nonZero (take j row))) as Hrow.
      { induction j as [|j IHj]; intros c1.
        - rewrite for_range_0. intros [= <-]. lia.
        - rewrite for_range_S.
          destruct (for_range j _ _) as [c2|msg]; [|discriminate].
          specialize (IHj c2 eq_refl).
          unfold getCell.
          destruct (outOfBounds b (Z.of_nat k) (Z.of_nat j)) eqn:Hout;
            [discriminate|].
          unfold outOfBounds in Hout.
          apply orb_false_elim in Hout as [Hout Hj].
          apply orb_false_elim in Hout as [Hout _].
          apply orb_false_elim in Hout as [_ Hk].
          apply Z.leb_gt in Hj, Hk. rewrite !Nat2Z.id.
          destruct (wf_lookup b k Hwf ltac:(lia)) as [r Hr].
          assert (length r = size b) as Hlen by (eapply wf_row; eassumption).
          unfold row in *. rewrite Hr in *. simpl in *.
          rewrite (cellAt_row _ _ r) by assumption.
          destruct (lookup_lt_is_Some_2 r j ltac:(lia)) as [x Hx].
          rewrite Hx. simpl.
          rewrite (take_S_r _ _ x), nonZero_snoc by assumption.
          destruct (Z.eqb_spec x 0) as [->|Hnz].
          + rewrite decide_True by reflexivity. intros [= <-]. exact IHj.
          + rewrite decide_False by assumption. rewrite length_app. simpl.
            destruct ((x =? 2)%Z || (x =? 4)%Z); [|discriminate].
            intros [= <-]. lia. }
      intros H. apply Hrow in H.
      pose proof (nonZero_length (take m row)) as H1.
      assert (length (nonZero (take m row)) ≤ length (nonZero row)).
      { rewrite <- (take_drop m row) at 2.
        rewrite nonZero_app, length_app. lia. }
      lia. }
  destruct (for_range m _ _) as [c|msg] eqn:Hloop; [|discriminate].
  destruct (Nat.eqb_spec c 2) as [->|]; [|discriminate]. intros _.
  apply Hinv in Hloop.
  assert (length (nonZero (concat (take m (grid b)))) ≤ tileCount b).
  { unfold tileCount. fold (nonZero (concat (grid b))).
    rewrite <- (take_drop m (grid b)) at 2.
    rewrite concat_app, nonZero_app, length_app. lia. }
  lia.
Qed.
End Tiles.


(** * The properties of the specification *)

Section Properties.
Import Board MoveProcessor Notions Samples.

Lemma wf_firstRow r : length r = 4 → wf (firstRow r).
Proof.
  intros H. split; [reflexivity|]. simpl. repeat constructor. exact H.
Qed.

Lemma map_differs (f : list Z → list Z) (g : list (list Z)) :
  map f g ≠ g ↔ ∃ row r, g !! row = Some r ∧ f r ≠ r.
Proof.
  induction g as [|r g IH]; simpl.
  - split; [intros H; contradiction|intros (row & r & H & _); discriminate].
  - split.
    + intros Hne. destruct (decide (f r = r)) as [Heq|Hr].
      * destruct (proj1 IH) as (row & r' & H1 & H2); [congruence|].
        exists (S row), r'. split; assumption.
      * exists 0, r. split; [reflexivity|assumption].
    + intros (row & r' & H1 & H2) [= Hr Hg]. destruct row as [|row].
      * simpl in H1. congruence.
      * apply (proj2 IH); [|exact Hg]. exists row, r'. split; assumption.
Qed.

(** C1, as the specification states it, fails: on the row
    [2, 2, 4, 0] the first [moveLeft] leaves [4, 4, 0, 0], and the
    second one merges the two 4 and reports a move. *)
Lemma moveLeft_twice_counterexample :
  wf (firstRow [2; 2; 4; 0]%Z)
  ∧ grid (moveLeft (firstRow [2; 2; 4; 0]%Z)).1 !! 0 = Some [4; 4; 0; 0]%Z
  ∧ moved (moveLeft (moveLeft (firstRow [2; 2; 4; 0]%Z)).1).2 = true
  ∧ ¬ (∀ b, wf b → moved (moveLeft (moveLeft b).1).2 = false).
Proof.
  split; [apply wf_firstRow; reflexivity|].
  split; [reflexivity|]. split; [reflexivity|].
  intros H.
  specialize (H (firstRow [2; 2; 4; 0]%Z) (wf_firstRow [2; 2; 4; 0]%Z eq_refl)).
  discriminate H.
Qed.

(** C1, amended: after [moveLeft], a second [moveLeft] reports a
    move exactly when some row of the board left by the first call
    holds two horizontally adjacent equal non-zero tiles; otherwise
    the second call returns [moved = false]. *)
Theorem moveLeft_twice b :
  wf b →
  moved (moveLeft (moveLeft b).1).2 = true
  ↔ ∃ row col, row < size b ∧ S col < size b
      ∧ cellAt (grid (moveLeft b).1) row col ≠ 0%Z
      ∧ cellAt (grid (moveLeft b).1) row (S col)
        = cellAt (grid (moveLeft b).1) row col.
Proof.
  intros Hwf.
  destruct (soundMove_moveLeft b Hwf) as (Hwf1 & Hs1 & _ & _).
  rewrite (moveLeft_spec (moveLeft b).1 Hwf1). cbn [snd moved].
  rewrite bool_decide_eq_true, map_differs, Hs1.
  rewrite (moveLeft_spec b Hwf) in *. cbn [fst grid] in *.
  destruct Hwf as [Hlen Hrows]. split.
  - intros (row & r1 & Hrow & Hne).
    change (map ?f ?l) with (f <$> l) in Hrow.
    rewrite list_lookup_fmap in Hrow.
    destruct (grid b !! row) as [r0|] eqn:Hr0; [|discriminate].
    injection Hrow as <-.
    assert (length r0 = size b) as Hl0.
    { rewrite Forall_forall in Hrows. apply Hrows, list_elem_of_lookup. eauto. }
    assert (hasEqualNeighbours (slideRow (size b) r0) = true) as Heq.
    { destruct (hasEqualNeighbours _) eqn:E; [reflexivity|].
      apply slideRow_twice in E; [contradiction|assumption]. }
    apply hasEqualNeighbours_true in Heq as (col & x & H1 & H2 & Hx).
    exists row, col.
    assert (S col < size b).
    { apply lookup_lt_Some in H2. rewrite length_slideRow in H2. exact H2. }
    split; [apply lookup_lt_Some in Hr0; lia|]. split; [assumption|].
    unfold cellAt. change (map ?f ?l) with (f <$> l).
    rewrite list_lookup_fmap, Hr0. simpl. rewrite H1, H2. simpl.
    split; [assumption|reflexivity].
  - intros (row & col & Hrow & Hcol & Hnz & Heq).
    destruct (lookup_lt_is_Some_2 (grid b) row) as [r0 Hr0]; [lia|].
    assert (length r0 = size b) as Hl0.
    { rewrite Forall_forall in Hrows. apply Hrows, list_elem_of_lookup. eauto. }
    exists row, (slideRow (size b) r0). split.
    + change (map ?f ?l) with (f <$> l). rewrite list_lookup_fmap, Hr0.
      reflexivity.
    + intros Hfix. apply slideRow_twice in Hfix; [|assumption].
      apply not_true_iff_false in Hfix. apply Hfix.
      apply hasEqualNeighbours_true.
      unfold cellAt in Hnz, Heq. change (map ?f ?l) with (f <$> l) in Hnz, Heq.
      rewrite list_lookup_fmap, Hr0 in Hnz, Heq. simpl in Hnz, Heq.
      destruct (lookup_lt_is_Some_2 (slideRow (size b) r0) col) as [x Hx];
        [rewrite length_slideRow; lia|].
      destruct (lookup_lt_is_Some_2 (slideRow (size b) r0) (S col)) as [y Hy];
        [rewrite length_slideRow; lia|].
      rewrite Hx, Hy in Heq. rewrite Hx in Hnz. simpl in *. subst y.
      exists col, x. repeat split; assumption.
Qed.

Lemma moveLeft_twice_witness :
  moved (moveLeft (moveLeft (firstRow [2; 2; 2; 2]%Z)).1).2 = true
  ↔ ∃ row col, row < 4 ∧ S col < 4
      ∧ cellAt (grid (moveLeft (firstRow [2; 2; 2; 2]%Z)).1) row col ≠ 0%Z
      ∧ cellAt (grid (moveLeft (firstRow [2; 2; 2; 2]%Z)).1) row (S col)
        = cellAt (grid (moveLeft (firstRow [2; 2; 2; 2]%Z)).1) row col.
Proof.
  apply (moveLeft_twice (firstRow [2; 2; 2; 2]%Z)).
  apply wf_firstRow. reflexivity.
Defined.

(** C3: [mergeLine] makes one pass from left to right: [2, 2, 4]
    gives the line [4, 4] with score 4, and [2, 2, 2, 2] gives the
    line [4, 4] with score 8; a 4 produced by a merge is not merged
    again with the 4 that follows. *)
Theorem mergeLine_single_pass :
  mergeLine [2; 2; 4]%Z = {| line := [4; 4]%Z; lineScore := 4 |}
  ∧ mergeLine [2; 2; 2; 2]%Z = {| line := [4; 4]%Z; lineScore := 8 |}.
Proof. split; reflexivity. Qed.

(** C4: on a board of size 4 whose only non-zero row is
    [2, 0, 2, 0], [moveRight] leaves that row as [0, 0, 0, 4], the
    other rows empty, and returns [moved = true] and the score 4. *)
Theorem moveRight_example k :
  k < 4 →
  moveRight (onlyRow k [2; 0; 2; 0]%Z)
  = (onlyRow k [0; 0; 0; 4]%Z, {| moved := true; score := 4 |}).
Proof.
  intros Hk. destruct k as [|[|[|[|k]]]]; try lia; reflexivity.
Qed.

Lemma moveRight_example_witness :
  moveRight (onlyRow 2 [2; 0; 2; 0]%Z)
  = (onlyRow 2 [0; 0; 0; 4]%Z, {| moved := true; score := 4 |}).
Proof. apply (moveRight_example 2). lia. Defined.

(** C9: with [row] or [col] outside [0 .. size-1], [getCell] returns
    the null sentinel ([getCell] is a total function: there is no
    exception to raise) and [setCell] leaves the board as it is. *)
Theorem out_of_bounds_access b row col value :
  (row < 0 ∨ Z.of_nat (size b) ≤ row ∨ col < 0 ∨ Z.of_nat (size b) ≤ col)%Z →
  getCell b row col = None ∧ setCell b row col value = b.
Proof.
  intros H. unfold getCell, outOfBounds, setCell.
  destruct (Z.ltb_spec row 0), (Z.leb_spec (Z.of_nat (size b)) row),
    (Z.ltb_spec col 0), (Z.leb_spec (Z.of_nat (size b)) col),
    (Z.leb_spec 0 row), (Z.ltb_spec row (Z.of_nat (size b))),
    (Z.leb_spec 0 col), (Z.ltb_spec col (Z.of_nat (size b)));
    try lia; split; reflexivity.
Qed.

Lemma out_of_bounds_access_witness :
  getCell (firstRow [2; 0; 2; 0]%Z) 1 4 = None
  ∧ setCell (firstRow [2; 0; 2; 0]%Z) 1 4 8 = firstRow [2; 0; 2; 0]%Z.
Proof.
  apply (out_of_bounds_access (firstRow [2; 0; 2; 0]%Z) 1 4 8).
  simpl. lia.
Defined.

(** C2: [canMove(board, d)] leaves [board] as it was, for every
    direction [d] (and every other string): after the call the
    object holds the contents it held before, and [equals] finds it
    cell-wise equal to a clone taken before the call. *)
Theorem canMove_leaves_board (σ : gmap nat Board) (board : nat) b direction :
  σ !! board = Some b →
  (Store.canMove σ board direction).1 !! board = Some b
  ∧ (let before := Store.clone σ board in
     let after := Store.canMove before.1 board direction in
     after.1 !! board = Some b
     ∧ Store.equals after.1 board before.2 = true).
Proof.
  intros Hb. split.
  - destruct (store_canMove σ board b direction Hb)
      as (testBoard & contents & -> & Hfree).
    simpl. rewrite lookup_insert_ne by congruence. exact Hb.
  - cbn zeta. rewrite (store_clone σ board b Hb). cbn [fst snd].
    pose proof (fresh_not_allocated σ board b Hb) as Hfresh.
    set (snapshot := fresh (dom σ)) in *.
    assert (<[snapshot := clone b]> σ !! board = Some b) as Hb1
      by (rewrite lookup_insert_ne by congruence; exact Hb).
    destruct (store_canMove _ board b direction Hb1)
      as (testBoard & contents & -> & Hfree).
    cbn [fst].
    assert (testBoard ≠ board) by congruence.
    assert (testBoard ≠ snapshot)
      by (intros ->; rewrite lookup_insert_eq in Hfree; discriminate).
    split.
    + rewrite lookup_insert_ne by congruence. exact Hb1.
    + unfold Store.equals.
      rewrite lookup_total_insert_ne by congruence.
      rewrite (lookup_total_correct _ board b Hb1).
      rewrite lookup_insert_ne, lookup_insert_eq by congruence.
      apply equals_clone.
Qed.

Lemma canMove_leaves_board_witness :
  (Store.canMove {[ 7 := firstRow [2; 2; 4; 0]%Z ]} 7 "left").1 !! 7
  = Some (firstRow [2; 2; 4; 0]%Z)
  ∧ (let before := Store.clone {[ 7 := firstRow [2; 2; 4; 0]%Z ]} 7 in
     let after := Store.canMove before.1 7 "left" in
     after.1 !! 7 = Some (firstRow [2; 2; 4; 0]%Z)
     ∧ Store.equals after.1 7 before.2 = true).
Proof.
  apply (canMove_leaves_board {[ 7 := firstRow [2; 2; 4; 0]%Z ]} 7
           (firstRow [2; 2; 4; 0]%Z) "left").
  apply lookup_singleton_eq.
Defined.

(** C5: [move(direction)] returns [false] and leaves the board, the
    score, the move count and both flags as they were (so no tile is
    added) when [direction] is not one of the four directions, or
    the game is won or lost, or the move function of the direction
    changes no cell of the grid. *)
Theorem move_rejected (e : GameEngine.GameEngine) direction pick small :
  GameEngine.validateDirection direction = false
  ∨ GameEngine.isWin e = true
  ∨ GameEngine.isGameOver e = true
  ∨ (valid e
     ∧ ∃ d move, direction = GameEngine.Str d ∧ moveOf d = Some move
         ∧ grid (move (GameEngine.board e)).1 = grid (GameEngine.board e)) →
  ∃ e', GameEngine.move e direction pick small = GameEngine.Returns (e', false)
    ∧ GameEngine.board e' = GameEngine.board e
    ∧ GameEngine.score e' = GameEngine.score e
    ∧ GameEngine.moveCount e' = GameEngine.moveCount e
    ∧ GameEngine.isWin e' = GameEngine.isWin e
    ∧ GameEngine.isGameOver e' = GameEngine.isGameOver e.
Proof.
  intros H. unfold GameEngine.move.
  destruct (GameEngine.validateDirection direction) eqn:Hdir;
    [|exists e; repeat split; reflexivity].
  destruct (GameEngine.isGameOver e) eqn:Hover;
    [exists e; repeat split; first [reflexivity|assumption]|].
  destruct (GameEngine.isWin e) eqn:Hwin;
    [exists e; repeat split; first [reflexivity|assumption]|].
  destruct H as [H|[H|[H|(Hvalid & d & move & -> & Hd & Hsame)]]];
    try discriminate.
  destruct Hvalid as (Hsize & Hwf & Hscore & Hcount).
  cbn [negb orb]. rewrite validateGameState_valid by assumption.
  rewrite Hd.
  change (GameEngine.board (GameEngine.saveState e)) with (GameEngine.board e).
  destruct (soundMove_moveOf d move Hd (GameEngine.board e) Hwf)
    as (_ & Hs1 & Hmoved & _).
  assert ((move (GameEngine.board e)).1 = GameEngine.board e) as Hboard.
  { destruct (move (GameEngine.board e)).1, (GameEngine.board e).
    simpl in *. congruence. }
  apply Hmoved in Hboard as Hflag.
  destruct (move (GameEngine.board e)) as [b1 result]. cbn [fst snd] in *.
  rewrite Hflag. eexists. split; [reflexivity|].
  simpl. repeat split; first [assumption|symmetry; assumption].
Qed.

Lemma move_rejected_witness :
  ∃ e', GameEngine.move (playing (firstRow [2; 4; 0; 0]%Z))
          (GameEngine.Str "left") 3 true
        = GameEngine.Returns (e', false)
    ∧ GameEngine.board e' = firstRow [2; 4; 0; 0]%Z
    ∧ GameEngine.score e' = 0%Z
    ∧ GameEngine.moveCount e' = 0%Z
    ∧ GameEngine.isWin e' = false
    ∧ GameEngine.isGameOver e' = false.
Proof.
  apply (move_rejected (playing (firstRow [2; 4; 0; 0]%Z))
           (GameEngine.Str "left") 3 true).
  right. right. right. split.
  - split; [reflexivity|]. split; [apply wf_firstRow; reflexivity|].
    simpl. lia.
  - exists "left", moveLeft. repeat split; reflexivity.
Defined.

Lemma valid_playing b : size b = 4 → wf b → valid (playing b).
Proof.
  intros Hs Hwf. split; [symmetry; exact Hs|]. split; [exact Hwf|].
  simpl. lia.
Qed.

(** A won game rejects every move. *)
Lemma move_after_win e direction pick small :
  GameEngine.isWin e = true →
  GameEngine.move e direction pick small = GameEngine.Returns (e, false).
Proof.
  intros Hwin. unfold GameEngine.move.
  destruct (GameEngine.validateDirection direction); [|reflexivity].
  rewrite Hwin, orb_true_r. reflexivity.
Qed.

(** C7: when the grid holds 2048 after a move that returned [true],
    [isWinState()] is [true]; from then on every call of [move]
    returns [false] and leaves the engine as it is, whether or not
    empty cells remain; [restart()] ends the won state. *)
Theorem win_is_terminal (e : GameEngine.GameEngine) direction pick small e' :
  valid e →
  GameEngine.move e direction pick small = GameEngine.Returns (e', true) →
  holds (GameEngine.board e') 2048 →
  GameEngine.isWinState e' = true
  ∧ (∀ direction' pick' small',
       GameEngine.move e' direction' pick' small'
       = GameEngine.Returns (e', false))
  ∧ (∀ inputs e'' results,
       movesFrom e' inputs e'' results →
       e'' = e' ∧ Forall (λ result, result = false) results)
  ∧ (∀ pick1 small1 pick2 small2 e2,
       GameEngine.restart e' pick1 small1 pick2 small2 = GameEngine.Returns e2 →
       GameEngine.isWinState e2 = false).
Proof.
  intros Hvalid Hmove Hholds.
  destruct (move_true e direction pick small e' Hvalid Hmove)
    as (d & move & _ & _ & _ & _ & _ & _ & _ & _ & _ & _ & Hwin & _).
  apply Hwin in Hholds. clear Hwin Hmove.
  split; [exact Hholds|]. split; [intros; apply move_after_win, Hholds|].
  split.
  - intros inputs. induction inputs as [|[[d1 p1] s1] inputs IH];
      intros e'' results Hrun; inversion Hrun as [|? ? ? ? e1 r ? ? ? Hstep Hrest];
      subst.
    + split; [reflexivity|constructor].
    + rewrite move_after_win in Hstep by assumption.
      injection Hstep as <- <-.
      destruct (IH _ _ Hrest) as [-> Hall]. split; [reflexivity|].
      constructor; [reflexivity|exact Hall].
  - intros pick1 small1 pick2 small2 e2.
    unfold GameEngine.restart, GameEngine.initializeGame.
    destruct (GameEngine.validateInitialization _); [|discriminate].
    intros [= <-]. reflexivity.
Qed.

Lemma win_is_terminal_witness :
  let e' := after (playing (firstRow [1024; 1024; 0; 0]%Z)) "left" 0 true in
  GameEngine.isWinState e' = true
  ∧ (∀ direction' pick' small',
       GameEngine.move e' direction' pick' small'
       = GameEngine.Returns (e', false))
  ∧ (∀ inputs e'' results,
       movesFrom e' inputs e'' results →
       e'' = e' ∧ Forall (λ result, result = false) results)
  ∧ (∀ pick1 small1 pick2 small2 e2,
       GameEngine.restart e' pick1 small1 pick2 small2 = GameEngine.Returns e2 →
       GameEngine.isWinState e2 = false).
Proof.
  apply (win_is_terminal (playing (firstRow [1024; 1024; 0; 0]%Z))
           (GameEngine.Str "left") 0 true).
  - apply valid_playing; [reflexivity|apply wf_firstRow; reflexivity].
  - reflexivity.
  - exists 0, 0. split; [vm_compute; lia|]. split; [vm_compute; lia|].
    reflexivity.
Defined.

(** There the merge of the two 1024 wins the game while the grid is
    almost empty. *)
Example win_reached :
  GameEngine.board
    (after (playing (firstRow [1024; 1024; 0; 0]%Z)) "left" 0 true)
  = firstRow [2048; 2; 0; 0]%Z
  ∧ GameEngine.isWinState
      (after (playing (firstRow [1024; 1024; 0; 0]%Z)) "left" 0 true) = true
  ∧ isFull
      (GameEngine.board
         (after (playing (firstRow [1024; 1024; 0; 0]%Z)) "left" 0 true))
    = false.
Proof. repeat split; reflexivity. Qed.

(** C8: after a call of [move] that returns [true] (the game was
    neither won nor lost before), [isGameOverState()] is [true]
    exactly when no cell holds 2048, the grid is full, and [canMove]
    is [false] for each of the four directions. *)
Theorem game_over_after_move (e : GameEngine.GameEngine) direction pick small e' :
  valid e →
  GameEngine.move e direction pick small = GameEngine.Returns (e', true) →
  GameEngine.isWin e = false ∧ GameEngine.isGameOver e = false
  ∧ (GameEngine.isGameOverState e' = true ↔
       ¬ holds (GameEngine.board e') 2048
       ∧ isFull (GameEngine.board e') = true
       ∧ ∀ d, d ∈ directions → GameEngine.canMove e' d = false).
Proof.
  intros Hvalid Hmove.
  destruct (move_true e direction pick small e' Hvalid Hmove)
    as (d & move & _ & _ & Hwin & Hover & _ & _ & _ & _ & _ & _ & _ & Hiff).
  split; [exact Hwin|]. split; [exact Hover|]. exact Hiff.
Qed.

Lemma game_over_after_move_witness :
  let e := playing lastMove in
  let e' := after e "right" 0 false in
  GameEngine.isWin e = false ∧ GameEngine.isGameOver e = false
  ∧ (GameEngine.isGameOverState e' = true ↔
       ¬ holds (GameEngine.board e') 2048
       ∧ isFull (GameEngine.board e') = true
       ∧ ∀ d, d ∈ directions → GameEngine.canMove e' d = false).
Proof.
  apply (game_over_after_move (playing lastMove)
           (GameEngine.Str "right") 0 false).
  - apply valid_playing; [reflexivity|].
    split; [reflexivity|]. simpl. repeat constructor.
  - reflexivity.
Defined.

(** On that board the move to the right fills the grid and ends the
    game. *)
Example game_over_reached :
  GameEngine.board (after (playing lastMove) "right" 0 false)
  = {| size := 4;
       grid := [[2; 4; 2; 4]; [4; 2; 4; 2];
                [2; 4; 2; 4]; [4; 8; 16; 32]]%Z |}
  ∧ GameEngine.isGameOverState (after (playing lastMove) "right" 0 false)
    = true
  ∧ GameEngine.isWinState (after (playing lastMove) "right" 0 false) = false.
Proof. repeat split; reflexivity. Qed.

Lemma validateGameState_board e :
  GameEngine.board (GameEngine.validateGameState e) = GameEngine.board e
  ∧ GameEngine.size (GameEngine.validateGameState e) = GameEngine.size e
  ∧ GameEngine.maxErrors (GameEngine.validateGameState e)
    = GameEngine.maxErrors e.
Proof.
  unfold GameEngine.validateGameState.
  destruct (GameEngine.score e <? 0)%Z;
    [destruct (GameEngine.moveCount (GameEngine.withScore e 0) <? 0)%Z
    |destruct (GameEngine.moveCount e <? 0)%Z];
    repeat split; reflexivity.
Qed.

(** On an engine of a size of at least 2, the [try] block of
    [initializeGame] runs to its end and leaves two tiles. *)
Lemma initializeGame_returns (e : GameEngine.GameEngine)
    pick1 small1 pick2 small2 :
  GameEngine.size e = size (GameEngine.board e) →
  2 ≤ GameEngine.size e →
  ∃ e', GameEngine.initializeGame e pick1 small1 pick2 small2
        = GameEngine.Returns e'
    ∧ GameEngine.restart e pick1 small1 pick2 small2 = GameEngine.Returns e'
    ∧ tileCount (GameEngine.board e') = 2
    ∧ freshTiles (GameEngine.board e')
    ∧ GameEngine.score e' = 0%Z
    ∧ GameEngine.moveCount e' = 0%Z
    ∧ GameEngine.isWin e' = false
    ∧ GameEngine.isGameOver e' = false.
Proof.
  intros Hsize Hbig.
  unfold GameEngine.restart, GameEngine.initializeGame.
  destruct (validateGameState_board e) as (Hb & Hs & _).
  set (e1 := GameEngine.validateGameState e) in *.
  cbn [GameEngine.withBoard GameEngine.board GameEngine.size
       GameEngine.maxErrors].
  set (b0 := initialize (GameEngine.board e1)).
  assert (size b0 = GameEngine.size e) as Hs0 by (simpl; congruence).
  pose proof (wf_initialize (GameEngine.board e1)) as Hwf0. fold b0 in Hwf0.
  assert (∀ r c, r < size b0 → c < size b0 → cellAt (grid b0) r c = 0%Z)
    as Hzero by (intros r c Hr Hc; apply cellAt_replicate; assumption).
  destruct (addRandomTile_spec b0 pick1 small1)
    as (r1 & c1 & Hr1 & Hc1 & Hz1 & ->).
  { exists 0, 0. repeat split; [lia..|apply Hzero; lia]. }
  cbn [fst].
  set (v1 := if small1 then 2%Z else 4%Z).
  assert (v1 = 2%Z ∨ v1 = 4%Z) as Hv1 by (unfold v1; destruct small1; tauto).
  set (b1 := setCell b0 (Z.of_nat r1) (Z.of_nat c1) v1).
  assert (wf b1) as Hwf1 by apply wf_setCell, Hwf0.
  assert (size b1 = size b0) as Hs1 by apply size_setCell.
  destruct (addRandomTile_spec b1 pick2 small2)
    as (r2 & c2 & Hr2 & Hc2 & Hz2 & ->).
  { exists 0, (if decide (r1 = 0 ∧ c1 = 0) then 1 else 0).
    rewrite Hs1. split; [lia|]. split; [case_decide; lia|].
    unfold b1. rewrite cellAt_setCell by assumption.
    repeat case_decide; try (exfalso; lia); apply Hzero; lia. }
  cbn [fst].
  set (v2 := if small2 then 2%Z else 4%Z).
  assert (v2 = 2%Z ∨ v2 = 4%Z) as Hv2 by (unfold v2; destruct small2; tauto).
  set (b2 := setCell b1 (Z.of_nat r2) (Z.of_nat c2) v2).
  assert (tileCount b2 = 2) as Hcount.
  { unfold b2. rewrite tileCount_setCell by (try assumption; lia).
    unfold b1. rewrite tileCount_setCell by (try assumption; try lia; apply Hzero; assumption).
    unfold b0. rewrite tileCount_initialize. reflexivity. }
  assert (freshTiles b2) as Hfresh.
  { apply freshTiles_setCell; try assumption.
    rewrite Hs1 in Hr2, Hc2.
    apply freshTiles_setCell; try assumption. apply freshTiles_initialize. }
  rewrite validateInitialization_accepts.
  - eexists. split; [reflexivity|]. split; [reflexivity|].
    repeat split; assumption.
  - simpl. unfold b2. rewrite !size_setCell. simpl. congruence.
  - apply wf_setCell, Hwf1.
  - exact Hfresh.
  - exact Hcount.
Qed.

(** C6: when [initializeGame()] (or [restart()], which calls it)
    succeeds, the grid holds exactly two tiles, each a 2 or a 4, the
    score and the move count are 0, and the game is neither won nor
    lost.  It does succeed on every engine of a size of at least 2. *)
Theorem initializeGame_two_tiles (e : GameEngine.GameEngine)
    pick1 small1 pick2 small2 :
  (GameEngine.size e = size (GameEngine.board e) →
   2 ≤ GameEngine.size e →
   ∃ e', GameEngine.initializeGame e pick1 small1 pick2 small2
         = GameEngine.Returns e')
  ∧ (∀ e',
       GameEngine.initializeGame e pick1 small1 pick2 small2
       = GameEngine.Returns e' →
       GameEngine.restart e pick1 small1 pick2 small2 = GameEngine.Returns e'
       ∧ tileCount (GameEngine.board e') = 2
       ∧ freshTiles (GameEngine.board e')
       ∧ GameEngine.score e' = 0%Z
       ∧ GameEngine.moveCount e' = 0%Z
       ∧ GameEngine.isWin e' = false
       ∧ GameEngine.isGameOver e' = false).
Proof.
  split.
  - intros Hsize Hbig.
    destruct (initializeGame_returns e pick1 small1 pick2 small2 Hsize Hbig)
      as (e' & H & _). eauto.
  - intros e' Hinit. split; [exact Hinit|].
    unfold GameEngine.initializeGame in Hinit.
    destruct (GameEngine.validateInitialization _) eqn:Hvalidated;
      [|discriminate].
    injection Hinit as <-.
    match type of Hvalidated with
    | GameEngine.validateInitialization ?x = _ => set (e2 := x) in *
    end.
    set (b0 := initialize (GameEngine.board (GameEngine.validateGameState e))).
    assert (GameEngine.board e2
            = (addRandomTile (addRandomTile b0 pick1 small1).1
                 pick2 small2).1) as Hb2 by reflexivity.
    pose proof (wf_initialize (GameEngine.board (GameEngine.validateGameState e)))
      as Hwf0.
    pose proof (freshTiles_initialize
                  (GameEngine.board (GameEngine.validateGameState e))) as Hf0.
    pose proof (tileCount_initialize
                  (GameEngine.board (GameEngine.validateGameState e))) as Hc0.
    fold b0 in Hwf0, Hf0, Hc0.
    destruct (addRandomTile_tiles b0 pick1 small1 Hwf0 Hf0)
      as (Hwf1 & Hf1 & Hc1).
    destruct (addRandomTile_tiles _ pick2 small2 Hwf1 Hf1)
      as (Hwf2 & Hf2 & Hc2).
    rewrite <- Hb2 in Hwf2, Hf2, Hc2.
    destruct a.
    pose proof (validateInitialization_counted e2 Hwf2 Hvalidated) as Hc.
    split; [change (tileCount (GameEngine.board e2) = 2); lia|].
    split; [exact Hf2|]. repeat split; reflexivity.
Qed.

Lemma initializeGame_two_tiles_witness :
  let e := playing (firstRow [8; 8; 0; 16]%Z) in
  let e' := initialized e 5 true 20 false in
  (∃ e', GameEngine.initializeGame e 5 true 20 false = GameEngine.Returns e')
  ∧ GameEngine.restart e 5 true 20 false = GameEngine.Returns e'
  ∧ tileCount (GameEngine.board e') = 2
  ∧ freshTiles (GameEngine.board e')
  ∧ GameEngine.score e' = 0%Z
  ∧ GameEngine.moveCount e' = 0%Z
  ∧ GameEngine.isWin e' = false
  ∧ GameEngine.isGameOver e' = false.
Proof.
  split.
  - apply (initializeGame_two_tiles (playing (firstRow [8; 8; 0; 16]%Z))
             5 true 20 false).
    + reflexivity.
    + simpl. lia.
  - apply (initializeGame_two_tiles (playing (firstRow [8; 8; 0; 16]%Z))
             5 true 20 false).
    reflexivity.
Defined.
End Properties.

(** * Further properties of the code *)

(** ** Board *)

Section BoardMore.
Import Board MoveProcessor Notions MoreNotions Samples.
Implicit Types (b : Board).

(** X1: inside the board, [getCell] after [setCell] returns the value
    written at the position written and what was there before at
    every other position, whatever the indices of the read. *)
Theorem getCell_setCell b (row col : nat) v (row' col' : Z) :
  wf b → row < size b → col < size b →
  getCell (setCell b (Z.of_nat row) (Z.of_nat col) v) row' col'
  = if decide (row' = Z.of_nat row ∧ col' = Z.of_nat col) then Some v
    else getCell b row' col'.
Proof.
  intros Hwf Hr Hc. unfold getCell, outOfBounds. rewrite size_setCell.
  destruct ((row' <? 0)%Z || (Z.of_nat (size b) <=? row')%Z
            || (col' <? 0)%Z || (Z.of_nat (size b) <=? col')%Z) eqn:Hout.
  - case_decide as H; [|reflexivity]. destruct H as [-> ->]. exfalso.
    repeat (apply orb_true_iff in Hout as [Hout|Hout]);
      first [apply Z.ltb_lt in Hout|apply Z.leb_le in Hout]; lia.
  - apply orb_false_elim in Hout as [Hout H4].
    apply orb_false_elim in Hout as [Hout H3].
    apply orb_false_elim in Hout as [H1 H2].
    apply Z.ltb_ge in H1, H3. apply Z.leb_gt in H2, H4.
    replace row' with (Z.of_nat (Z.to_nat row')) at 2 by lia.
    replace col' with (Z.of_nat (Z.to_nat col')) at 2 by lia.
    rewrite cellAt_setCell by assumption.
    repeat case_decide; try reflexivity; exfalso; lia.
Qed.

Lemma getCell_setCell_witness :
  getCell (setCell (firstRow [2; 0; 2; 0]%Z) (Z.of_nat 1) (Z.of_nat 2) 8) 1 2
  = if decide ((1 = Z.of_nat 1 ∧ 2 = Z.of_nat 2)%Z) then Some 8%Z
    else getCell (firstRow [2; 0; 2; 0]%Z) 1 2.
Proof.
  apply (getCell_setCell (firstRow [2; 0; 2; 0]%Z) 1 2 8 1 2).
  - split; [reflexivity|]. simpl. repeat constructor.
  - simpl. lia.
  - simpl. lia.
Defined.

Lemma elem_of_allPositions n row col :
  (row, col) ∈ allPositions n ↔ row < n ∧ col < n.
Proof.
  unfold allPositions. rewrite list_elem_of_In, in_flat_map. split.
  - intros (r & Hr & Hc). apply in_map_iff in Hc as (c & Heq & Hc).
    apply in_seq in Hr, Hc. inversion Heq; subst. lia.
  - intros [Hr Hc]. exists row. split; [apply in_seq; lia|].
    apply in_map_iff. exists col. split; [reflexivity|apply in_seq; lia].
Qed.

Lemma length_allPositions n : length (allPositions n) = n * n.
Proof.
  unfold allPositions.
  assert (H : ∀ rows cols : list nat,
    length (flat_map (λ row, map (λ col, (row, col)) cols) rows)
    = length rows * length cols).
  { intros rows cols. induction rows as [|row rows IH]; [reflexivity|].
    cbn [flat_map]. rewrite length_app, length_map, IH. simpl. lia. }
  rewrite H, length_seq. reflexivity.
Qed.

Lemma NoDup_allPositions n : NoDup (allPositions n).
Proof.
  unfold allPositions.
  assert (H : ∀ rows cols : list nat, NoDup rows → NoDup cols →
    NoDup (flat_map (λ row, map (λ col, (row, col)) cols) rows)).
  { intros rows cols Hrows Hcols. induction Hrows as [|row rows Hnot _ IH].
    - constructor.
    - cbn [flat_map]. apply NoDup_app. split; [|split; [|exact IH]].
      + apply (NoDup_fmap_2_strong (λ col, (row, col))); [|assumption].
        intros x y _ _ Heq. inversion Heq. reflexivity.
      + intros [r c] Hin Hin'. apply list_elem_of_In, in_map_iff in Hin.
        destruct Hin as (c' & Heq & _). inversion Heq; subst.
        apply list_elem_of_In, in_flat_map in Hin'.
        destruct Hin' as (r' & Hr' & Hc'). apply in_map_iff in Hc'.
        destruct Hc' as (c'' & Heq' & _). inversion Heq'; subst.
        apply Hnot, list_elem_of_In, Hr'. }
  apply H; apply NoDup_seq.
Qed.

Lemma getEmptyCells_filter b :
  getEmptyCells b
  = filter (λ p, cellAt (grid b) p.1 p.2 = 0%Z) (allPositions (size b)).
Proof.
  unfold getEmptyCells, allPositions.
  generalize (size b) at 2 3 as m. intros m.
  assert (Hrow : ∀ row k acc,
    for_range k (λ col emptyCells,
      if (cellAt (grid b) row col =? 0)%Z
      then emptyCells ++ [(row, col)] else emptyCells) acc
    = acc ++ filter (λ p, cellAt (grid b) p.1 p.2 = 0%Z)
               (map (λ col, (row, col)) (seq 0 k))).
  { intros row k acc. induction k as [|k IH].
    - rewrite for_range_0. simpl. rewrite app_nil_r. reflexivity.
    - rewrite for_range_S, IH, seq_S, map_app, filter_app. cbn [Nat.add map].
      rewrite filter_cons, filter_nil. cbn [fst snd].
      destruct (Z.eqb_spec (cellAt (grid b) row k) 0) as [H|H];
        case_decide; try contradiction.
      + rewrite app_assoc. reflexivity.
      + rewrite !app_nil_r. reflexivity. }
  generalize (size b) as n. intros n. induction n as [|n IH].
  - rewrite for_range_0. reflexivity.
  - rewrite for_range_S, IH, Hrow, seq_S, flat_map_app, filter_app.
    cbn [Nat.add flat_map]. rewrite app_nil_r. reflexivity.
Qed.

(** X2: [getEmptyCells] lists the positions that hold 0 in row-major
    order, each of them once. *)
Theorem getEmptyCells_row_major b :
  getEmptyCells b
  = filter (λ p, cellAt (grid b) p.1 p.2 = 0%Z) (allPositions (size b))
  ∧ NoDup (getEmptyCells b).
Proof.
  rewrite getEmptyCells_filter. split; [reflexivity|].
  apply NoDup_filter, NoDup_allPositions.
Qed.

Lemma filter_all {A} (P : A → Prop) `{∀ x, Decision (P x)} (l : list A) :
  length (filter P l) = length l ↔ Forall P l.
Proof.
  induction l as [|x l IH].
  - split; [constructor|reflexivity].
  - rewrite filter_cons. pose proof (length_filter P l) as Hle.
    case_decide as Hx; cbn [length]; rewrite Forall_cons.
    + rewrite <- IH. split; [intros; split; [assumption|lia]|intros [_ ->]; lia].
    + split; [lia|tauto].
Qed.

Lemma isEmpty_cells b :
  isEmpty b = true
  ↔ ∀ row col, row < size b → col < size b → cellAt (grid b) row col = 0%Z.
Proof.
  unfold isEmpty. rewrite Nat.eqb_eq, getEmptyCells_filter,
    <- (length_allPositions (size b)), filter_all, Forall_forall. split.
  - intros H row col Hr Hc.
    apply (H (row, col)), elem_of_allPositions. auto.
  - intros H [row col] Hin. apply elem_of_allPositions in Hin as [Hr Hc].
    apply H; assumption.
Qed.

(** X3: [isFull] says that no cell holds 0, and [isEmpty] that every
    cell does. *)
Theorem isFull_isEmpty_spec b :
  (isFull b = true ↔
     ∀ row col, row < size b → col < size b → cellAt (grid b) row col ≠ 0%Z)
  ∧ (isEmpty b = true ↔
       ∀ row col, row < size b → col < size b → cellAt (grid b) row col = 0%Z).
Proof.
  split.
  - unfold isFull. rewrite Nat.eqb_eq, length_zero_iff_nil. split.
    + intros Hnil row col Hr Hc H0.
      assert (Hin : (row, col) ∈ getEmptyCells b)
        by (apply getEmptyCells_spec; auto).
      rewrite Hnil in Hin. inversion Hin.
    + intros H. destruct (getEmptyCells b) as [|[r c] l] eqn:E; [reflexivity|].
      assert (Hin : (r, c) ∈ getEmptyCells b) by (rewrite E; left).
      apply getEmptyCells_spec in Hin as (Hr & Hc & H0).
      destruct (H r c Hr Hc H0).
  - apply isEmpty_cells.
Qed.

(** X4: on a full board [addRandomTile] returns [false] and leaves
    the board as it is; otherwise it returns [true] and writes a 2 or
    a 4 into the empty cell the draw selects, changes no other cell,
    and the board has one tile more. *)
Theorem addRandomTile_full_or_spawns b pick small :
  wf b →
  (isFull b = true → addRandomTile b pick small = (b, false))
  ∧ (isFull b = false →
     ∃ row col,
       getEmptyCells b !! (pick mod length (getEmptyCells b)) = Some (row, col)
       ∧ row < size b ∧ col < size b ∧ cellAt (grid b) row col = 0%Z
       ∧ (addRandomTile b pick small).2 = true
       ∧ (∀ row' col', row' < size b → col' < size b →
            cellAt (grid (addRandomTile b pick small).1) row' col'
            = if decide (row' = row ∧ col' = col)
              then (if small then 2%Z else 4%Z)
              else cellAt (grid b) row' col')
       ∧ tileCount (addRandomTile b pick small).1 = S (tileCount b)).
Proof.
  intros Hwf. unfold isFull, addRandomTile.
  destruct (length (getEmptyCells b) =? 0) eqn:Hlen.
  - split; [reflexivity|discriminate].
  - split; [discriminate|]. intros _. apply Nat.eqb_neq in Hlen.
    destruct (lookup_lt_is_Some_2 (getEmptyCells b)
                (pick mod length (getEmptyCells b))) as [[row col] Hpick].
    { apply Nat.mod_upper_bound. assumption. }
    rewrite Hpick. exists row, col.
    pose proof (proj1 (getEmptyCells_spec b row col)
                  (list_elem_of_lookup_2 _ _ _ Hpick)) as (Hr & Hc & H0).
    cbn [fst snd]. repeat split; try assumption.
    + intros row' col' _ _. apply cellAt_setCell; assumption.
    + apply tileCount_setCell; try assumption. destruct small; discriminate.
Qed.

Lemma addRandomTile_full_or_spawns_witness :
  let b := firstRow [2; 0; 2; 0]%Z in
  (isFull b = true → addRandomTile b 3 true = (b, false))
  ∧ (isFull b = false →
     ∃ row col,
       getEmptyCells b !! (3 mod length (getEmptyCells b)) = Some (row, col)
       ∧ row < size b ∧ col < size b ∧ cellAt (grid b) row col = 0%Z
       ∧ (addRandomTile b 3 true).2 = true
       ∧ (∀ row' col', row' < size b → col' < size b →
            cellAt (grid (addRandomTile b 3 true).1) row' col'
            = if decide (row' = row ∧ col' = col) then 2%Z
              else cellAt (grid b) row' col')
       ∧ tileCount (addRandomTile b 3 true).1 = S (tileCount b)).
Proof.
  apply (addRandomTile_full_or_spawns (firstRow [2; 0; 2; 0]%Z) 3 true).
  split; [reflexivity|]. simpl. repeat constructor.
Defined.

Lemma clear_cells b :
  wf b →
  wf (clear b) ∧ size (clear b) = size b
  ∧ ∀ r c, r < size b → c < size b → cellAt (grid (clear b)) r c = 0%Z.
Proof.
  intros Hwf. unfold clear.
  pose (P := λ (i : nat) (b' : Board),
    wf b' ∧ size b' = size b
    ∧ ∀ r c, r < size b → c < size b →
        cellAt (grid b') r c
        = if decide (r < i) then 0%Z else cellAt (grid b) r c).
  assert (HP : P (size b) (for_range (size b) (λ row b,
            for_range (size b) (λ col b,
              {| size := size b; grid := storeAt (grid b) row col 0%Z |}) b) b)).
  { apply for_range_inv.
    - split; [assumption|]. split; [reflexivity|]. intros r c _ _.
      case_decide; [lia|reflexivity].
    - intros i b' Hi (Hwf' & Hsize & Hcells). rewrite Hsize.
      pose (Q := λ (j : nat) (b'' : Board),
        wf b'' ∧ size b'' = size b
        ∧ ∀ r c, r < size b → c < size b →
            cellAt (grid b'') r c
            = if decide (r < i ∨ (r = i ∧ c < j)) then 0%Z
              else cellAt (grid b) r c).
      assert (HQ : Q (size b) (for_range (size b) (λ col b,
                {| size := size b; grid := storeAt (grid b) i col 0%Z |}) b')).
      { apply for_range_inv.
        - split; [assumption|]. split; [assumption|]. intros r c Hr Hc.
          rewrite Hcells by assumption. repeat case_decide; try reflexivity; lia.
        - intros j b'' Hj (Hwf'' & Hsize'' & Hcells'').
          rewrite <- setCell_inside by lia.
          split; [apply wf_setCell; assumption|].
          split; [rewrite size_setCell; assumption|]. intros r c Hr Hc.
          rewrite cellAt_setCell by (assumption || lia).
          rewrite Hcells'' by assumption.
          repeat case_decide; try reflexivity; lia. }
      destruct HQ as (HwfQ & HsizeQ & HcellsQ).
      split; [assumption|]. split; [assumption|]. intros r c Hr Hc.
      rewrite HcellsQ by assumption. repeat case_decide; try reflexivity; lia. }
  destruct HP as (HwfP & HsizeP & HcellsP).
  split; [assumption|]. split; [assumption|]. intros r c Hr Hc.
  rewrite HcellsP by assumption. case_decide; [reflexivity|lia].
Qed.

(** X5: [clear] leaves the board that [initialize] builds: the same
    size, every cell 0. *)
Theorem clear_initialize b :
  wf b → clear b = initialize b ∧ isEmpty (clear b) = true.
Proof.
  intros Hwf. destruct (clear_cells b Hwf) as (Hwf' & Hsize & Hcells).
  assert (Heq : clear b = initialize b).
  { apply board_ext; [assumption|apply wf_initialize|rewrite Hsize; reflexivity|].
    rewrite Hsize. intros r c Hr Hc. rewrite Hcells by assumption.
    simpl. rewrite cellAt_replicate by assumption. reflexivity. }
  split; [assumption|]. apply isEmpty_cells.
  rewrite Hsize. exact Hcells.
Qed.

Lemma clear_initialize_witness :
  clear (firstRow [2; 0; 2; 0]%Z) = initialize (firstRow [2; 0; 2; 0]%Z)
  ∧ isEmpty (clear (firstRow [2; 0; 2; 0]%Z)) = true.
Proof.
  apply (clear_initialize (firstRow [2; 0; 2; 0]%Z)).
  split; [reflexivity|]. simpl. repeat constructor.
Defined.

(** X6: on boards of the right shape [equals] is equality of the
    contents: it is [true] exactly when the two boards are the same,
    it does not depend on which of the two is asked, and a missing
    board is equal to none. *)
Theorem equals_same_contents b other :
  wf b → wf other →
  (equals b (Some other) = true ↔ other = b)
  ∧ equals b (Some other) = equals other (Some b)
  ∧ equals b None = false.
Proof.
  intros Hwf Hwf'.
  assert (Hiff : ∀ b1 b2, wf b1 → wf b2 →
            (equals b1 (Some b2) = true ↔ b2 = b1)).
  { intros b1 b2 H1 H2. rewrite equals_true. split.
    - intros [Hsize Hcells]. apply board_ext; [assumption..|].
      rewrite Hsize. intros r c Hr Hc. symmetry. apply Hcells; assumption.
    - intros ->. split; reflexivity. }
  split; [apply Hiff; assumption|]. split; [|reflexivity].
  destruct (equals b (Some other)) eqn:E1, (equals other (Some b)) eqn:E2;
    try reflexivity.
  - apply Hiff in E1; [|assumption..]. subst other.
    rewrite equals_refl in E2. discriminate.
  - apply Hiff in E2; [|assumption..]. subst other.
    rewrite equals_refl in E1. discriminate.
Qed.

Lemma equals_same_contents_witness :
  (equals (firstRow [2; 0; 2; 0]%Z) (Some (firstRow [2; 0; 0; 2]%Z)) = true
   ↔ firstRow [2; 0; 0; 2]%Z = firstRow [2; 0; 2; 0]%Z)
  ∧ equals (firstRow [2; 0; 2; 0]%Z) (Some (firstRow [2; 0; 0; 2]%Z))
    = equals (firstRow [2; 0; 0; 2]%Z) (Some (firstRow [2; 0; 2; 0]%Z))
  ∧ equals (firstRow [2; 0; 2; 0]%Z) None = false.
Proof.
  apply (equals_same_contents (firstRow [2; 0; 2; 0]%Z)
           (firstRow [2; 0; 0; 2]%Z)).
  - split; [reflexivity|]. simpl. repeat constructor.
  - split; [reflexivity|]. simpl. repeat constructor.
Defined.

(** X7: the board [clone] returns is a new object with the contents
    of the original, and the two do not share storage: a [setCell]
    through either reference leaves the other board as it was. *)
Theorem clone_independent (σ : gmap nat Board) (this : nat) b row col v :
  σ !! this = Some b → wf b →
  (Store.clone σ this).2 ≠ this
  ∧ σ !! (Store.clone σ this).2 = None
  ∧ (Store.clone σ this).1 !! this = Some b
  ∧ (Store.clone σ this).1 !! (Store.clone σ this).2 = Some b
  ∧ Store.setCell (Store.clone σ this).1 (Store.clone σ this).2 row col v
      !! this = Some b
  ∧ Store.setCell (Store.clone σ this).1 this row col v
      !! (Store.clone σ this).2 = Some b.
Proof.
  intros Hthis Hwf. rewrite (store_clone σ this b Hthis). cbn [fst snd].
  rewrite (clone_wf b Hwf).
  pose proof (fresh_not_allocated σ this b Hthis) as Hne.
  assert (Hfresh : σ !! fresh (dom σ) = None).
  { apply not_elem_of_dom, is_fresh. }
  unfold Store.setCell. split; [congruence|]. split; [assumption|].
  split; [rewrite lookup_insert_ne by congruence; assumption|].
  split; [apply lookup_insert_eq|].
  split.
  - rewrite lookup_alter_ne by congruence.
    rewrite lookup_insert_ne by congruence. assumption.
  - rewrite lookup_alter_ne by congruence. apply lookup_insert_eq.
Qed.

Lemma clone_independent_witness :
  let σ : gmap nat Board := {[ 7 := firstRow [2; 2; 4; 0]%Z ]} in
  (Store.clone σ 7).2 ≠ 7
  ∧ σ !! (Store.clone σ 7).2 = None
  ∧ (Store.clone σ 7).1 !! 7 = Some (firstRow [2; 2; 4; 0]%Z)
  ∧ (Store.clone σ 7).1 !! (Store.clone σ 7).2
    = Some (firstRow [2; 2; 4; 0]%Z)
  ∧ Store.setCell (Store.clone σ 7).1 (Store.clone σ 7).2 0 3 8 !! 7
    = Some (firstRow [2; 2; 4; 0]%Z)
  ∧ Store.setCell (Store.clone σ 7).1 7 0 3 8 !! (Store.clone σ 7).2
    = Some (firstRow [2; 2; 4; 0]%Z).
Proof.
  apply (clone_independent {[ 7 := firstRow [2; 2; 4; 0]%Z ]} 7
           (firstRow [2; 2; 4; 0]%Z) 0 3 8).
  - reflexivity.
  - split; [reflexivity|]. simpl. repeat constructor.
Defined.
End BoardMore.

(** ** MoveProcessor *)

Section MovesMore.
Import Board MoveProcessor Notions MoreNotions Samples.
Implicit Types (b : Board) (l r : list Z).

(** X8: the [while] loop of [mergeLine] ends: whatever the line, the
    loop is over after at most [line.length] iterations, one more
    test of its condition, and returns the merged line and the
    score. *)
Theorem mergeLine_loop_ends l fuel :
  length l < fuel → mergeLoopAt fuel l 0 [] 0%Z = Some (mergeLine l).
Proof.
  intros Hfuel. apply (mergeLoopAt_rest l [] [] 0%Z fuel Hfuel).
Qed.

Lemma mergeLine_loop_ends_witness :
  mergeLoopAt 9 [2; 2; 4; 4; 8]%Z 0 [] 0%Z
  = Some (mergeLine [2; 2; 4; 4; 8]%Z).
Proof. apply (mergeLine_loop_ends [2; 2; 4; 4; 8]%Z 9). simpl. lia. Defined.

Lemma mergeLine_count l :
  length (line (mergeLine l)) + length (mergedValues l) = length l.
Proof.
  induction l as [|x|x t IH|x y t Hne IH] using merge_ind.
  - reflexivity.
  - reflexivity.
  - rewrite mergeLine_merge. cbn [line length mergedValues].
    rewrite Z.eqb_refl. cbn [length]. lia.
  - rewrite mergeLine_keep by assumption. cbn [line length].
    change (mergedValues (x :: y :: t))
      with (if (x =? y)%Z then (x * 2)%Z :: mergedValues t
            else mergedValues (y :: t)).
    destruct (Z.eqb_spec x y); [contradiction|]. cbn [length] in IH. lia.
Qed.

Lemma mergeLine_unmerged l :
  mergedValues l = [] → mergeLine l = {| line := l; lineScore := 0 |}.
Proof.
  induction l as [|x|x t IH|x y t Hne IH] using merge_ind; intros Hnone.
  - reflexivity.
  - reflexivity.
  - cbn [mergedValues] in Hnone. rewrite Z.eqb_refl in Hnone. discriminate.
  - change (mergedValues (x :: y :: t))
      with (if (x =? y)%Z then (x * 2)%Z :: mergedValues t
            else mergedValues (y :: t)) in Hnone.
    destruct (Z.eqb_spec x y); [contradiction|].
    rewrite mergeLine_keep by assumption. rewrite (IH Hnone). reflexivity.
Qed.

(** X9: every merge of [mergeLine] shortens the line by one: the
    merged line and the merges together count as many as the values
    given, the merged line keeps at least half of them, and a merged
    line as long as the line given is that line, with score 0. *)
Theorem mergeLine_lengths l :
  length (line (mergeLine l)) + length (mergedValues l) = length l
  ∧ length l ≤ 2 * length (line (mergeLine l))
  ∧ (length (line (mergeLine l)) = length l ↔
       mergeLine l = {| line := l; lineScore := 0 |}).
Proof.
  pose proof (mergeLine_count l) as Hcount.
  pose proof (sublist_length _ _ (mergedValues_sublist l)) as Hsub.
  split; [assumption|]. split; [lia|]. split.
  - intros Hlen. apply mergeLine_unmerged.
    apply length_zero_iff_nil. lia.
  - intros ->. reflexivity.
Qed.

(** X10: on a line of positive values the score of [mergeLine] is 0
    exactly when the line comes back unchanged. *)
Theorem mergeLine_score_zero l :
  Forall (λ v, (0 < v)%Z) l →
  lineScore (mergeLine l) = 0%Z ↔ line (mergeLine l) = l.
Proof.
  intros Hpos. split.
  - intros Hzero. rewrite mergeLine_score in Hzero.
    pose proof (mergedValues_doubles l) as Hdoubles.
    destruct (mergedValues l) as [|v vs] eqn:E.
    + rewrite (mergeLine_unmerged l E). reflexivity.
    + exfalso.
      assert (Hall : Forall (λ v, (0 < v)%Z) (v :: vs)).
      { eapply Forall_impl; [exact Hdoubles|]. simpl.
        intros w (x & Hx & ->). rewrite Forall_forall in Hpos.
        specialize (Hpos x Hx). simpl in Hpos. lia. }
      assert (Hsum : ∀ ws, Forall (λ v, (0 < v)%Z) ws → (0 ≤ sumZ ws)%Z).
      { induction 1 as [|w ws Hw _ IH]; simpl; lia. }
      inversion Hall as [|? ? Hv Hvs]; subst.
      specialize (Hsum vs Hvs). simpl in Hzero. lia.
  - intros Hline. pose proof (mergeLine_count l) as Hcount.
    rewrite Hline in Hcount.
    rewrite (mergeLine_unmerged l); [reflexivity|].
    apply length_zero_iff_nil. lia.
Qed.

Lemma mergeLine_score_zero_witness :
  lineScore (mergeLine [2; 4; 2; 8]%Z) = 0%Z
  ↔ line (mergeLine [2; 4; 2; 8]%Z) = [2; 4; 2; 8]%Z.
Proof.
  apply (mergeLine_score_zero [2; 4; 2; 8]%Z).
  repeat constructor.
Defined.

Lemma lookup_map_seq {A} (f : nat → A) n i :
  i < n → map f (seq 0 n) !! i = Some (f i).
Proof.
  intros Hi. change (map f (seq 0 n)) with (f <$> seq 0 n).
  rewrite list_lookup_fmap, lookup_seq_lt by assumption. reflexivity.
Qed.

Lemma map_seq_eq {A} (f : nat → A) n (l : list A) :
  length l = n → (∀ i, i < n → l !! i = Some (f i)) → map f (seq 0 n) = l.
Proof.
  intros Hlen Hl. apply list_eq. intros i. destruct (decide (i < n)) as [Hi|Hi].
  - rewrite lookup_map_seq, Hl by assumption. reflexivity.
  - rewrite !lookup_ge_None_2; [reflexivity|lia|].
    rewrite length_map, length_seq. lia.
Qed.

Lemma rowAt_wf n g k r : g !! k = Some r → length r = n → rowAt n g k = r.
Proof.
  intros Hk Hlen. unfold rowAt. apply map_seq_eq; [assumption|].
  intros i Hi. rewrite (cellAt_row g k r i Hk).
  destruct (lookup_lt_is_Some_2 r i) as [x Hx]; [lia|]. rewrite Hx. reflexivity.
Qed.

Lemma rows_wf b : wf b → map (rowAt (size b) (grid b)) (seq 0 (size b)) = grid b.
Proof.
  intros Hwf. apply map_seq_eq; [apply wf_length; assumption|].
  intros i Hi. destruct (wf_lookup b i Hwf Hi) as [r Hr].
  rewrite Hr, (rowAt_wf (size b) (grid b) i r Hr (wf_row b i r Hwf Hr)).
  reflexivity.
Qed.

Lemma wf_slid b :
  wf b → wf {| size := size b; grid := map (slideRow (size b)) (grid b) |}.
Proof.
  intros [Hlen Hrows]. split; simpl.
  - rewrite length_map. assumption.
  - apply Forall_forall. intros r Hin. apply list_elem_of_In, in_map_iff in Hin.
    destruct Hin as (r0 & <- & _). apply length_slideRow.
Qed.

Lemma moveRight_spec b :
  wf b →
  moveRight b
  = ({| size := size b;
        grid := map reverse (map (slideRow (size b)) (map reverse (grid b))) |},
     {| moved := bool_decide (map (slideRow (size b)) (map reverse (grid b))
                              ≠ map reverse (grid b));
        score := sumZ (map rowScore (map reverse (grid b))) |}).
Proof.
  intros Hwf. unfold moveRight.
  rewrite (reverseRows_spec b Hwf).
  pose proof (wf_map_reverse b Hwf) as Hwf1.
  rewrite (moveLeft_spec _ Hwf1). cbv beta iota zeta.
  rewrite (reverseRows_spec _ (wf_slid _ Hwf1)). reflexivity.
Qed.

Lemma moveUp_spec b :
  wf b →
  moveUp b
  = ({| size := size b;
        grid := transposed (size b)
                  (map (slideRow (size b)) (transposed (size b) (grid b))) |},
     {| moved := bool_decide (map (slideRow (size b))
                                (transposed (size b) (grid b))
                              ≠ transposed (size b) (grid b));
        score := sumZ (map rowScore (transposed (size b) (grid b))) |}).
Proof.
  intros Hwf. unfold moveUp.
  rewrite (transpose_spec b Hwf).
  pose proof (wf_transposed (size b) (grid b)) as Hwf1.
  rewrite (moveLeft_spec _ Hwf1). cbv beta iota zeta.
  rewrite (transpose_spec _ (wf_slid _ Hwf1)). reflexivity.
Qed.

Lemma moveDown_spec b :
  wf b →
  moveDown b
  = ({| size := size b;
        grid := transposed (size b)
                  (map reverse
                     (map (slideRow (size b))
                        (map reverse (transposed (size b) (grid b))))) |},
     {| moved := bool_decide (map (slideRow (size b))
                                (map reverse (transposed (size b) (grid b)))
                              ≠ map reverse (transposed (size b) (grid b)));
        score := sumZ (map rowScore
                         (map reverse (transposed (size b) (grid b)))) |}).
Proof.
  intros Hwf. unfold moveDown.
  rewrite (transpose_spec b Hwf).
  pose proof (wf_transposed (size b) (grid b)) as Hwf1.
  rewrite (moveRight_spec _ Hwf1). cbv beta iota zeta. cbn [size grid].
  pose proof (wf_map_reverse _ (wf_slid _ (wf_map_reverse _ Hwf1))) as Hwf2.
  cbn [size grid] in Hwf2.
  rewrite (transpose_spec _ Hwf2). reflexivity.
Qed.

Lemma linesTowards_left b :
  wf b → linesTowards (size b) (grid b) "left" = grid b.
Proof. intros Hwf. apply (rows_wf b Hwf). Qed.

Lemma linesTowards_right b :
  wf b → linesTowards (size b) (grid b) "right" = map reverse (grid b).
Proof.
  intros Hwf. rewrite <- (rows_wf b Hwf) at 2. rewrite map_map. reflexivity.
Qed.

Lemma linesTowards_up n g : linesTowards n g "up" = transposed n g.
Proof. reflexivity. Qed.

Lemma linesTowards_down n g :
  linesTowards n g "down" = map reverse (transposed n g).
Proof. unfold transposed. rewrite map_map. reflexivity. Qed.

Lemma move_view b direction mv :
  wf b → moveOf direction = Some mv →
  linesTowards (size b) (grid (mv b).1) direction
  = map (slideRow (size b)) (linesTowards (size b) (grid b) direction)
  ∧ moved (mv b).2
    = bool_decide (map (slideRow (size b))
                     (linesTowards (size b) (grid b) direction)
                   ≠ linesTowards (size b) (grid b) direction)
  ∧ score (mv b).2
    = sumZ (map rowScore (linesTowards (size b) (grid b) direction)).
Proof.
  intros Hwf Hmv.
  pose proof (wf_transposed (size b) (grid b)) as HwfT.
  destruct (moveOf_Some direction mv Hmv)
    as [[-> ->]|[[-> ->]|[[-> ->]|[-> ->]]]].
  - rewrite (moveLeft_spec b Hwf). cbn [fst snd grid moved score].
    rewrite (linesTowards_left b Hwf).
    pose proof (linesTowards_left _ (wf_slid b Hwf)) as H1.
    cbn [size grid] in H1. rewrite H1. auto.
  - rewrite (moveRight_spec b Hwf). cbn [fst snd grid moved score].
    rewrite (linesTowards_right b Hwf).
    pose proof (wf_map_reverse _ (wf_slid _ (wf_map_reverse b Hwf))) as Hwf2.
    pose proof (linesTowards_right _ Hwf2) as H1.
    cbn [size grid] in H1. rewrite H1.
    rewrite map_reverse_involutive. auto.
  - rewrite (moveUp_spec b Hwf). cbn [fst snd grid moved score].
    rewrite !linesTowards_up.
    pose proof (wf_slid _ HwfT) as [Hlen Hrows]. cbn [size grid] in Hlen, Hrows.
    rewrite (transposed_involutive _ _ Hlen Hrows). auto.
  - rewrite (moveDown_spec b Hwf). cbn [fst snd grid moved score].
    rewrite !linesTowards_down.
    pose proof (wf_map_reverse _ (wf_slid _ (wf_map_reverse _ HwfT)))
      as [Hlen Hrows]. cbn [size grid] in Hlen, Hrows.
    rewrite (transposed_involutive _ _ Hlen Hrows).
    rewrite map_reverse_involutive. auto.
Qed.

Lemma move_line b direction mv k :
  wf b → moveOf direction = Some mv → k < size b →
  lineTowards (size b) (grid (mv b).1) direction k
  = slideRow (size b) (lineTowards (size b) (grid b) direction k).
Proof.
  intros Hwf Hmv Hk.
  destruct (move_view b direction mv Hwf Hmv) as (Hlines & _ & _).
  assert (H : linesTowards (size b) (grid (mv b).1) direction !! k
              = map (slideRow (size b))
                  (linesTowards (size b) (grid b) direction) !! k)
    by (rewrite Hlines; reflexivity).
  unfold linesTowards in H. rewrite map_map in H.
  rewrite !lookup_map_seq in H by assumption. congruence.
Qed.

Lemma moved_line b direction mv :
  wf b → moveOf direction = Some mv →
  moved (mv b).2 = true
  ↔ ∃ k, k < size b
      ∧ slideRow (size b) (lineTowards (size b) (grid b) direction k)
        ≠ lineTowards (size b) (grid b) direction k.
Proof.
  intros Hwf Hmv.
  destruct (move_view b direction mv Hwf Hmv) as (_ & Hmoved & _).
  rewrite Hmoved, bool_decide_eq_true, map_differs. split.
  - intros (k & r & Hr & Hne).
    assert (Hk : k < size b).
    { apply lookup_lt_Some in Hr. unfold linesTowards in Hr.
      rewrite length_map, length_seq in Hr. exact Hr. }
    unfold linesTowards in Hr. rewrite lookup_map_seq in Hr by assumption.
    exists k. split; [assumption|]. congruence.
  - intros (k & Hk & Hne). exists k, (lineTowards (size b) (grid b) direction k).
    split; [unfold linesTowards; apply lookup_map_seq; assumption|assumption].
Qed.

(** X11: the four moves are one.  Read line by line from the edge
    moved to (rows from the left or the right, columns from the top
    or the bottom), every move does to each line what [moveLeft] does
    to a row: the non-zero values are merged by [mergeLine] and
    written back from that edge, padded with 0.  The score is the sum
    of the scores of the lines, and [moved] tells whether a line
    changed. *)
Theorem moves_line_by_line b direction mv :
  wf b → moveOf direction = Some mv →
  (∀ k, k < size b →
     lineTowards (size b) (grid (mv b).1) direction k
     = padLine (size b)
         (line (mergeLine
                  (nonZero (lineTowards (size b) (grid b) direction k)))))
  ∧ score (mv b).2
    = sumZ (map (λ k, lineScore (mergeLine
                   (nonZero (lineTowards (size b) (grid b) direction k))))
              (seq 0 (size b)))
  ∧ (moved (mv b).2 = true ↔
       ∃ k, k < size b
         ∧ lineTowards (size b) (grid (mv b).1) direction k
           ≠ lineTowards (size b) (grid b) direction k).
Proof.
  intros Hwf Hmv.
  destruct (move_view b direction mv Hwf Hmv) as (_ & _ & Hscore).
  split; [intros k Hk; apply (move_line b direction mv k Hwf Hmv Hk)|]. split.
  - rewrite Hscore. unfold linesTowards. rewrite map_map. reflexivity.
  - rewrite (moved_line b direction mv Hwf Hmv). split.
    + intros (k & Hk & Hne). exists k. split; [assumption|].
      rewrite (move_line b direction mv k Hwf Hmv Hk). assumption.
    + intros (k & Hk & Hne). exists k. split; [assumption|].
      rewrite <- (move_line b direction mv k Hwf Hmv Hk). assumption.
Qed.

Lemma moves_line_by_line_witness :
  let b := firstRow [2; 2; 4; 0]%Z in
  (∀ k, k < size b →
     lineTowards (size b) (grid (moveDown b).1) "down" k
     = padLine (size b)
         (line (mergeLine (nonZero (lineTowards (size b) (grid b) "down" k)))))
  ∧ score (moveDown b).2
    = sumZ (map (λ k, lineScore (mergeLine
                   (nonZero (lineTowards (size b) (grid b) "down" k))))
              (seq 0 (size b)))
  ∧ (moved (moveDown b).2 = true ↔
       ∃ k, k < size b
         ∧ lineTowards (size b) (grid (moveDown b).1) "down" k
           ≠ lineTowards (size b) (grid b) "down" k).
Proof.
  apply (moves_line_by_line (firstRow [2; 2; 4; 0]%Z) "down" moveDown).
  - split; [reflexivity|]. simpl. repeat constructor.
  - reflexivity.
Defined.

Lemma lookup_line_left n g k i :
  i < n → lineTowards n g "left" k !! i = Some (cellAt g k i).
Proof. intros Hi. apply (lookup_map_seq (λ col, cellAt g k col) n i Hi). Qed.

Lemma lookup_line_up n g k i :
  i < n → lineTowards n g "up" k !! i = Some (cellAt g i k).
Proof. intros Hi. apply (lookup_map_seq (λ row, cellAt g row k) n i Hi). Qed.

Lemma lookup_line_right n g k i :
  i < n → lineTowards n g "right" k !! i = Some (cellAt g k (n - 1 - i)).
Proof.
  intros Hi. change (lineTowards n g "right" k) with (reverse (rowAt n g k)).
  assert (Hlen : length (rowAt n g k) = n)
    by (unfold rowAt; rewrite length_map, length_seq; reflexivity).
  rewrite reverse_lookup by lia. rewrite Hlen.
  replace (n - S i) with (n - 1 - i) by lia.
  apply (lookup_map_seq (λ col, cellAt g k col)). lia.
Qed.

Lemma lookup_line_down n g k i :
  i < n → lineTowards n g "down" k !! i = Some (cellAt g (n - 1 - i) k).
Proof.
  intros Hi. change (lineTowards n g "down" k) with (reverse (column n g k)).
  assert (Hlen : length (column n g k) = n)
    by (unfold column; rewrite length_map, length_seq; reflexivity).
  rewrite reverse_lookup by lia. rewrite Hlen.
  replace (n - S i) with (n - 1 - i) by lia.
  apply (lookup_map_seq (λ row, cellAt g row k)). lia.
Qed.

Lemma length_lineTowards n g direction mv k :
  moveOf direction = Some mv → length (lineTowards n g direction k) = n.
Proof.
  intros Hmv.
  destruct (moveOf_Some direction mv Hmv)
    as [[-> _]|[[-> _]|[[-> _]|[-> _]]]];
    [change (lineTowards n g "left" k) with (rowAt n g k)
    |change (lineTowards n g "right" k) with (reverse (rowAt n g k))
    |change (lineTowards n g "up" k) with (column n g k)
    |change (lineTowards n g "down" k) with (reverse (column n g k))];
    unfold rowAt, column;
    rewrite ?length_reverse, length_map, length_seq; reflexivity.
Qed.

Lemma slideRow_tiles n r :
  length r = n →
  ∃ tiles, Forall (λ v, v ≠ 0%Z) tiles ∧ length tiles ≤ n
    ∧ slideRow n r = tiles ++ replicate (n - length tiles) 0%Z.
Proof.
  intros Hlen. exists (line (mergeLine (nonZero r))).
  split; [apply mergeLine_nonzero, nonZero_Forall|].
  split; [apply merged_fits; assumption|].
  apply padLine_short, merged_fits. assumption.
Qed.

Lemma slideRow_packed n r i j :
  length r = n → i ≤ j → j < n →
  slideRow n r !! i = Some 0%Z → slideRow n r !! j = Some 0%Z.
Proof.
  intros Hlen Hij Hj. destruct (slideRow_tiles n r Hlen) as (m & Hm & Hfit & ->).
  intros Hi. destruct (decide (i < length m)) as [Hlt|Hge].
  - rewrite lookup_app_l in Hi by assumption.
    rewrite Forall_forall in Hm. destruct (Hm 0%Z); [|reflexivity].
    eapply list_elem_of_lookup_2. exact Hi.
  - rewrite lookup_app_r by lia. apply lookup_replicate_2. lia.
Qed.

(** X12: after a move the tiles are packed against the edge moved
    to: a cell that is empty has only empty cells behind it, to the
    right after [moveLeft], to the left after [moveRight], below after
    [moveUp] and above after [moveDown]. *)
Theorem moves_pack_tiles b row col :
  wf b → row < size b → col < size b →
  (cellAt (grid (moveLeft b).1) row col = 0%Z →
   ∀ col', col ≤ col' < size b → cellAt (grid (moveLeft b).1) row col' = 0%Z)
  ∧ (cellAt (grid (moveRight b).1) row col = 0%Z →
     ∀ col', col' ≤ col → cellAt (grid (moveRight b).1) row col' = 0%Z)
  ∧ (cellAt (grid (moveUp b).1) row col = 0%Z →
     ∀ row', row ≤ row' < size b → cellAt (grid (moveUp b).1) row' col = 0%Z)
  ∧ (cellAt (grid (moveDown b).1) row col = 0%Z →
     ∀ row', row' ≤ row → cellAt (grid (moveDown b).1) row' col = 0%Z).
Proof.
  intros Hwf Hrow Hcol.
  assert (Hline : ∀ direction mv k, moveOf direction = Some mv → k < size b →
    ∀ i j, i ≤ j → j < size b →
      lineTowards (size b) (grid (mv b).1) direction k !! i = Some 0%Z →
      lineTowards (size b) (grid (mv b).1) direction k !! j = Some 0%Z).
  { intros direction mv k Hmv Hk i j Hij Hj.
    rewrite (move_line b direction mv k Hwf Hmv Hk).
    apply slideRow_packed; [|assumption..].
    apply (length_lineTowards _ _ direction mv). assumption. }
  split; [|split; [|split]].
  - intros H0 col' Hcol'.
    specialize (Hline "left" moveLeft row eq_refl Hrow col col').
    rewrite !lookup_line_left in Hline by lia.
    rewrite H0 in Hline. specialize (Hline ltac:(lia) ltac:(lia) eq_refl).
    congruence.
  - intros H0 col' Hcol'.
    specialize (Hline "right" moveRight row eq_refl Hrow
                  (size b - 1 - col) (size b - 1 - col')).
    rewrite !lookup_line_right in Hline by lia.
    replace (size b - 1 - (size b - 1 - col)) with col in Hline by lia.
    replace (size b - 1 - (size b - 1 - col')) with col' in Hline by lia.
    rewrite H0 in Hline. specialize (Hline ltac:(lia) ltac:(lia) eq_refl).
    congruence.
  - intros H0 row' Hrow'.
    specialize (Hline "up" moveUp col eq_refl Hcol row row').
    rewrite !lookup_line_up in Hline by lia.
    rewrite H0 in Hline. specialize (Hline ltac:(lia) ltac:(lia) eq_refl).
    congruence.
  - intros H0 row' Hrow'.
    specialize (Hline "down" moveDown col eq_refl Hcol
                  (size b - 1 - row) (size b - 1 - row')).
    rewrite !lookup_line_down in Hline by lia.
    replace (size b - 1 - (size b - 1 - row)) with row in Hline by lia.
    replace (size b - 1 - (size b - 1 - row')) with row' in Hline by lia.
    rewrite H0 in Hline. specialize (Hline ltac:(lia) ltac:(lia) eq_refl).
    congruence.
Qed.

Lemma moves_pack_tiles_witness :
  let b := firstRow [0; 2; 0; 4]%Z in
  (cellAt (grid (moveLeft b).1) 0 2 = 0%Z →
   ∀ col', 2 ≤ col' < size b → cellAt (grid (moveLeft b).1) 0 col' = 0%Z)
  ∧ (cellAt (grid (moveRight b).1) 0 2 = 0%Z →
     ∀ col', col' ≤ 2 → cellAt (grid (moveRight b).1) 0 col' = 0%Z)
  ∧ (cellAt (grid (moveUp b).1) 0 2 = 0%Z →
     ∀ row', 0 ≤ row' < size b → cellAt (grid (moveUp b).1) row' 2 = 0%Z)
  ∧ (cellAt (grid (moveDown b).1) 0 2 = 0%Z →
     ∀ row', row' ≤ 0 → cellAt (grid (moveDown b).1) row' 2 = 0%Z).
Proof.
  apply (moves_pack_tiles (firstRow [0; 2; 0; 4]%Z) 0 2).
  - split; [reflexivity|]. simpl. repeat constructor.
  - simpl. lia.
  - simpl. lia.
Defined.

(** X13: [canMove] answers whether the move would change the board:
    it is [true] exactly when [direction] is one of the four and the
    move of that direction leaves a board other than the one given. *)
Theorem canMove_iff_changes b direction :
  wf b →
  canMove b direction = true
  ↔ ∃ mv, moveOf direction = Some mv ∧ (mv b).1 ≠ b.
Proof.
  intros Hwf. destruct (moveOf direction) as [mv|] eqn:Hmv.
  - rewrite (canMove_moved b direction mv Hwf Hmv).
    destruct (soundMove_moveOf direction mv Hmv b Hwf)
      as (_ & _ & Hmoved & _). split.
    + intros Htrue. exists mv. split; [reflexivity|]. intros Heq.
      apply Hmoved in Heq. congruence.
    + intros (mv' & [= <-] & Hne).
      destruct (moved (mv b).2); [reflexivity|].
      destruct Hne. apply Hmoved. reflexivity.
  - unfold canMove. rewrite Hmv. split; [discriminate|].
    intros (mv & Hsome & _). discriminate.
Qed.

Lemma canMove_iff_changes_witness :
  canMove (firstRow [2; 4; 0; 0]%Z) "right" = true
  ↔ ∃ mv, moveOf "right" = Some mv
      ∧ (mv (firstRow [2; 4; 0; 0]%Z)).1 ≠ firstRow [2; 4; 0; 0]%Z.
Proof.
  apply (canMove_iff_changes (firstRow [2; 4; 0; 0]%Z) "right").
  split; [reflexivity|]. simpl. repeat constructor.
Defined.
End MovesMore.

(** ** What a move does to the tiles *)

Section Cellwise.
Import Board MoveProcessor Notions MoreNotions Samples.
Implicit Types (b : Board) (l r : list Z).

(** A property of cell values that holds of 0 and that doubling
    keeps. *)
Variable P : Z → Prop.
Hypothesis P_zero : P 0%Z.
Hypothesis P_double : ∀ v, P v → P (v * 2)%Z.

Lemma mergeLine_all l : Forall P l → Forall P (line (mergeLine l)).
Proof.
  induction l as [|x|x t IH|x y t Hne IH] using merge_ind; intros Hall.
  - constructor.
  - assumption.
  - rewrite mergeLine_merge. cbn [line].
    inversion Hall as [|? ? Hx Hrest]; subst.
    inversion Hrest as [|? ? _ Ht]; subst.
    constructor; [apply P_double, Hx|apply IH, Ht].
  - rewrite mergeLine_keep by assumption. cbn [line].
    inversion Hall as [|? ? Hx Hrest]; subst.
    constructor; [exact Hx|apply IH, Hrest].
Qed.

Lemma slideRow_all n r : Forall P r → Forall P (slideRow n r).
Proof.
  intros Hall. unfold slideRow, padLine.
  assert (Hmerged : Forall P (line (mergeLine (nonZero r)))).
  { apply mergeLine_all. unfold nonZero. apply Forall_forall. intros v Hv.
    apply list_elem_of_filter in Hv as [_ Hv].
    rewrite Forall_forall in Hall. apply Hall, Hv. }
  apply Forall_forall. intros v Hv.
  apply list_elem_of_In, in_map_iff in Hv as (col & <- & _).
  destruct (col <? length (line (mergeLine (nonZero r)))) eqn:Hcol;
    [|exact P_zero].
  apply Nat.ltb_lt in Hcol. rewrite Forall_forall in Hmerged.
  apply Hmerged, list_elem_of_In, nth_In, Hcol.
Qed.

Lemma cellAt_all g row col : Forall (Forall P) g → P (cellAt g row col).
Proof.
  intros Hall. unfold cellAt. destruct (g !! row) as [r|] eqn:Hr; [|exact P_zero].
  simpl. destruct (r !! col) as [v|] eqn:Hv; [|exact P_zero]. simpl.
  rewrite Forall_forall in Hall.
  specialize (Hall r (list_elem_of_lookup_2 _ _ _ Hr)).
  rewrite Forall_forall in Hall. apply Hall. eapply list_elem_of_lookup_2, Hv.
Qed.

Lemma map_slideRow_all n g :
  Forall (Forall P) g → Forall (Forall P) (map (slideRow n) g).
Proof.
  intros Hall. apply Forall_forall. intros r Hr.
  apply list_elem_of_In, in_map_iff in Hr as (r0 & <- & Hr0).
  apply slideRow_all. rewrite Forall_forall in Hall.
  apply Hall, list_elem_of_In, Hr0.
Qed.

Lemma map_reverse_all (g : list (list Z)) :
  Forall (Forall P) g → Forall (Forall P) (map reverse g).
Proof.
  intros Hall. apply Forall_forall. intros r Hr.
  apply list_elem_of_In, in_map_iff in Hr as (r0 & <- & Hr0).
  apply Forall_reverse. rewrite Forall_forall in Hall.
  apply Hall, list_elem_of_In, Hr0.
Qed.

Lemma transposed_all n g :
  Forall (Forall P) g → Forall (Forall P) (transposed n g).
Proof.
  intros Hall. unfold transposed. apply Forall_forall. intros r Hr.
  apply list_elem_of_In, in_map_iff in Hr as (row & <- & _).
  apply Forall_forall. intros v Hv.
  apply list_elem_of_In, in_map_iff in Hv as (col & <- & _).
  apply cellAt_all, Hall.
Qed.

Lemma move_all b direction mv :
  wf b → moveOf direction = Some mv →
  Forall (Forall P) (grid b) → Forall (Forall P) (grid (mv b).1).
Proof.
  intros Hwf Hmv Hall.
  destruct (moveOf_Some direction mv Hmv)
    as [[-> ->]|[[-> ->]|[[-> ->]|[-> ->]]]].
  - rewrite (moveLeft_spec b Hwf). cbn [fst grid].
    apply map_slideRow_all, Hall.
  - rewrite (moveRight_spec b Hwf). cbn [fst grid].
    apply map_reverse_all, map_slideRow_all, map_reverse_all, Hall.
  - rewrite (moveUp_spec b Hwf). cbn [fst grid].
    apply transposed_all, map_slideRow_all, transposed_all, Hall.
  - rewrite (moveDown_spec b Hwf). cbn [fst grid].
    apply transposed_all, map_reverse_all, map_slideRow_all,
      map_reverse_all, transposed_all, Hall.
Qed.

Lemma cells_all b :
  wf b →
  Forall (Forall P) (grid b)
  ↔ ∀ row col, row < size b → col < size b → P (cellAt (grid b) row col).
Proof.
  intros Hwf. split.
  - intros Hall row col _ _. apply cellAt_all, Hall.
  - intros Hcells. apply Forall_forall. intros r Hr.
    apply list_elem_of_lookup in Hr as [row Hr].
    apply Forall_forall. intros v Hv.
    apply list_elem_of_lookup in Hv as [col Hv].
    pose proof (lookup_lt_Some _ _ _ Hr) as Hrow.
    pose proof (lookup_lt_Some _ _ _ Hv) as Hcol.
    rewrite (wf_length b Hwf) in Hrow. rewrite (wf_row b row r Hwf Hr) in Hcol.
    specialize (Hcells row col Hrow Hcol).
    rewrite (cellAt_row _ _ _ col Hr), Hv in Hcells. exact Hcells.
Qed.

Lemma setCell_all b row col v :
  Forall (Forall P) (grid b) → P v →
  Forall (Forall P) (grid (setCell b row col v)).
Proof.
  intros Hall Hv. unfold setCell.
  destruct ((0 <=? row)%Z && (row <? Z.of_nat (size b))%Z
            && (0 <=? col)%Z && (col <? Z.of_nat (size b))%Z);
    [|assumption].
  cbn [grid]. unfold storeAt. apply Forall_alter; [assumption|].
  intros r _ Hr. apply Forall_insert; assumption.
Qed.

End Cellwise.

Section TilesMore.
Import Board MoveProcessor Notions MoreNotions Samples.
Implicit Types (b : Board) (l r : list Z).

Lemma powerOfTwo_double v :
  v = 0%Z ∨ powerOfTwo v → (v * 2)%Z = 0%Z ∨ powerOfTwo (v * 2)%Z.
Proof.
  intros [->|(k & Hk & ->)]; [left; reflexivity|right].
  exists (S k). split; [lia|].
  rewrite Nat2Z.inj_succ, Z.pow_succ_r by lia. lia.
Qed.

Lemma tilesArePowers_all b :
  wf b →
  tilesArePowers b
  ↔ Forall (Forall (λ v, v = 0%Z ∨ powerOfTwo v)) (grid b).
Proof.
  intros Hwf. symmetry.
  apply (cells_all (λ v, v = 0%Z ∨ powerOfTwo v) (or_introl eq_refl) b Hwf).
Qed.

Lemma tilesArePowers_move b direction mv :
  wf b → moveOf direction = Some mv →
  tilesArePowers b → tilesArePowers (mv b).1.
Proof.
  intros Hwf Hmv Hpow.
  destruct (soundMove_moveOf direction mv Hmv b Hwf) as (Hwf' & _).
  apply (tilesArePowers_all _ Hwf').
  apply (move_all _ (or_introl eq_refl) powerOfTwo_double b direction mv Hwf Hmv).
  apply (tilesArePowers_all b Hwf), Hpow.
Qed.

Lemma tilesArePowers_addRandomTile b pick small :
  wf b → tilesArePowers b → tilesArePowers (addRandomTile b pick small).1.
Proof.
  intros Hwf Hpow.
  destruct (addRandomTile_cases b pick small) as [->|(r & c & _ & _ & _ & ->)];
    [assumption|].
  apply (tilesArePowers_all _ (wf_setCell b _ _ _ Hwf)).
  apply setCell_all; [apply (tilesArePowers_all b Hwf), Hpow|].
  right. destruct small; [exists 1|exists 2]; split; (lia || reflexivity).
Qed.

Lemma slideRow_last n r :
  length r = n → slideRow n r ≠ r → slideRow n r !! (n - 1) = Some 0%Z.
Proof.
  intros Hlen Hne. unfold slideRow in *.
  pose proof (merged_fits n r Hlen) as Hfit.
  pose proof (mergeLine_length (nonZero r)) as H1.
  pose proof (nonZero_length r) as H2.
  destruct (decide (length (line (mergeLine (nonZero r))) = n)) as [Hfull|Hshort].
  - exfalso. apply Hne.
    assert (Hnz : nonZero r = r).
    { apply nonZero_id, (filter_all (λ v, v ≠ 0%Z) r).
      unfold nonZero in *. lia. }
    rewrite Hnz in *.
    rewrite (mergeLine_unmerged r).
    + cbn [line]. rewrite padLine_short by lia.
      rewrite Hlen, Nat.sub_diag. apply app_nil_r.
    + apply length_zero_iff_nil. pose proof (mergeLine_count r). lia.
  - rewrite padLine_short by assumption.
    rewrite lookup_app_r by lia. apply lookup_replicate_2. lia.
Qed.

Lemma moved_leaves_room b direction mv :
  wf b → moveOf direction = Some mv → moved (mv b).2 = true →
  hasEmpty (mv b).1.
Proof.
  intros Hwf Hmv Hmoved.
  apply (moved_line b direction mv Hwf Hmv) in Hmoved as (k & Hk & Hne).
  pose proof (move_line b direction mv k Hwf Hmv Hk) as Hline.
  pose proof (slideRow_last (size b) _
                (length_lineTowards (size b) (grid b) direction mv k Hmv) Hne)
    as Hlast.
  rewrite <- Hline in Hlast.
  destruct (soundMove_moveOf direction mv Hmv b Hwf) as (_ & Hsize & _).
  unfold hasEmpty. rewrite Hsize.
  destruct (moveOf_Some direction mv Hmv)
    as [[-> ->]|[[-> ->]|[[-> ->]|[-> ->]]]].
  - rewrite lookup_line_left in Hlast by lia.
    exists k, (size b - 1). repeat split; (lia || congruence).
  - rewrite lookup_line_right in Hlast by lia.
    exists k, (size b - 1 - (size b - 1)). repeat split; (lia || congruence).
  - rewrite lookup_line_up in Hlast by lia.
    exists (size b - 1), k. repeat split; (lia || congruence).
  - rewrite lookup_line_down in Hlast by lia.
    exists (size b - 1 - (size b - 1)), k. repeat split; (lia || congruence).
Qed.

(** X14: the two transforms behind the moves.  [reverseRows] mirrors
    every row, the middle column of a board of odd size staying where
    it is, and [transpose] exchanges rows and columns; each keeps the
    shape of the board and undoes itself. *)
Theorem reverseRows_and_transpose b :
  wf b →
  (wf (reverseRows b) ∧ size (reverseRows b) = size b
   ∧ (∀ row col, row < size b → col < size b →
        cellAt (grid (reverseRows b)) row col
        = cellAt (grid b) row (size b - 1 - col))
   ∧ reverseRows (reverseRows b) = b)
  ∧ (wf (transpose b) ∧ size (transpose b) = size b
     ∧ (∀ row col, row < size b → col < size b →
          cellAt (grid (transpose b)) row col = cellAt (grid b) col row)
     ∧ transpose (transpose b) = b).
Proof.
  intros Hwf. split.
  - destruct (soundTransform_reverseRows b Hwf) as (Hwf' & Hsize & Hinv & _).
    split; [assumption|]. split; [assumption|]. split; [|assumption].
    intros row col Hrow Hcol. rewrite (reverseRows_spec b Hwf). cbn [grid].
    apply cellAt_map_reverse; (assumption || apply Hwf).
  - destruct (soundTransform_transpose b Hwf) as (Hwf' & Hsize & Hinv & _).
    split; [assumption|]. split; [assumption|]. split; [|assumption].
    intros row col Hrow Hcol. rewrite (transpose_spec b Hwf). cbn [grid].
    apply cellAt_transposed; assumption.
Qed.

Lemma reverseRows_and_transpose_witness :
  let b := {| size := 3; grid := [[1; 2; 3]; [4; 5; 6]; [7; 8; 9]]%Z |} in
  (wf (reverseRows b) ∧ size (reverseRows b) = size b
   ∧ (∀ row col, row < size b → col < size b →
        cellAt (grid (reverseRows b)) row col
        = cellAt (grid b) row (size b - 1 - col))
   ∧ reverseRows (reverseRows b) = b)
  ∧ (wf (transpose b) ∧ size (transpose b) = size b
     ∧ (∀ row col, row < size b → col < size b →
          cellAt (grid (transpose b)) row col = cellAt (grid b) col row)
     ∧ transpose (transpose b) = b).
Proof.
  apply (reverseRows_and_transpose
           {| size := 3; grid := [[1; 2; 3]; [4; 5; 6]; [7; 8; 9]]%Z |}).
  split; [reflexivity|]. simpl. repeat constructor.
Defined.

Lemma line_moves n l :
  length l = n → (∃ i, l !! i = Some 0%Z) →
  (∃ j v, l !! j = Some v ∧ v ≠ 0%Z) →
  slideRow n l ≠ l ∨ slideRow n (reverse l) ≠ reverse l.
Proof.
  intros Hlen (i & Hi) (j & v & Hj & Hv).
  destruct (decide (slideRow n l = l)) as [H1|]; [|left; assumption].
  destruct (decide (slideRow n (reverse l) = reverse l)) as [H2|];
    [|right; assumption].
  exfalso.
  pose proof (lookup_lt_Some _ _ _ Hi) as Hin.
  pose proof (lookup_lt_Some _ _ _ Hj) as Hjn.
  assert (Hrev : reverse l !! (n - 1 - i) = Some 0%Z).
  { rewrite reverse_lookup by lia. rewrite Hlen.
    replace (n - S (n - 1 - i)) with i by lia. exact Hi. }
  assert (Hlenr : length (reverse l) = n) by (rewrite length_reverse; exact Hlen).
  pose proof (slideRow_packed n (reverse l) (n - 1 - i) (n - 1) Hlenr
                ltac:(lia) ltac:(lia)) as Hp.
  rewrite H2 in Hp. specialize (Hp Hrev).
  rewrite reverse_lookup in Hp by lia. rewrite Hlen in Hp.
  replace (n - S (n - 1)) with 0 in Hp by lia.
  pose proof (slideRow_packed n l 0 j Hlen ltac:(lia) ltac:(lia)) as Hq.
  rewrite H1 in Hq. specialize (Hq Hp). congruence.
Qed.

Lemma isFull_false b : isFull b = false → hasEmpty b.
Proof.
  unfold isFull. intros H. apply Nat.eqb_neq in H.
  destruct (getEmptyCells b) as [|[r c] cells] eqn:E; [contradiction|].
  assert (Hin : (r, c) ∈ getEmptyCells b) by (rewrite E; left).
  apply getEmptyCells_spec in Hin. exists r, c. exact Hin.
Qed.

Lemma isEmpty_false b :
  isEmpty b = false →
  ∃ row col, row < size b ∧ col < size b ∧ cellAt (grid b) row col ≠ 0%Z.
Proof.
  unfold isEmpty. intros H. apply Nat.eqb_neq in H.
  rewrite getEmptyCells_filter, <- (length_allPositions (size b)), filter_all in H.
  apply not_Forall_Exists in H; [|intros p; apply _].
  apply Exists_exists in H as ([row col] & Hin & Hne).
  apply elem_of_allPositions in Hin as [Hrow Hcol].
  exists row, col. auto.
Qed.

Lemma some_line_moves b :
  wf b → hasEmpty b →
  (∃ row col, row < size b ∧ col < size b ∧ cellAt (grid b) row col ≠ 0%Z) →
  ∃ d, d ∈ directions ∧ canMove b d = true.
Proof.
  intros Hwf (r0 & c0 & Hr0 & Hc0 & Hzero) (r1 & c1 & Hr1 & Hc1 & Htile).
  assert (Hcan : ∀ d mv k, moveOf d = Some mv → k < size b →
            slideRow (size b) (lineTowards (size b) (grid b) d k)
            ≠ lineTowards (size b) (grid b) d k →
            canMove b d = true).
  { intros d mv k Hmv Hk Hne. rewrite (canMove_moved b d mv Hwf Hmv).
    apply (moved_line b d mv Hwf Hmv). exists k. auto. }
  destruct (decide (cellAt (grid b) r1 c0 = 0%Z)) as [Hmid|Hmid].
  - destruct (line_moves (size b) (lineTowards (size b) (grid b) "left" r1))
      as [Hne|Hne].
    + apply (length_lineTowards _ _ "left" moveLeft). reflexivity.
    + exists c0. rewrite lookup_line_left by assumption. congruence.
    + exists c1, (cellAt (grid b) r1 c1).
      rewrite lookup_line_left by assumption. auto.
    + exists "left". split; [unfold directions; set_solver|].
      apply (Hcan "left" moveLeft r1 eq_refl Hr1 Hne).
    + exists "right". split; [unfold directions; set_solver|].
      apply (Hcan "right" moveRight r1 eq_refl Hr1 Hne).
  - destruct (line_moves (size b) (lineTowards (size b) (grid b) "up" c0))
      as [Hne|Hne].
    + apply (length_lineTowards _ _ "up" moveUp). reflexivity.
    + exists r0. rewrite lookup_line_up by assumption. congruence.
    + exists r1, (cellAt (grid b) r1 c0).
      rewrite lookup_line_up by assumption. auto.
    + exists "up". split; [unfold directions; set_solver|].
      apply (Hcan "up" moveUp c0 eq_refl Hc0 Hne).
    + exists "down". split; [unfold directions; set_solver|].
      apply (Hcan "down" moveDown c0 eq_refl Hc0 Hne).
Qed.

(** X15: a board that is neither empty nor full can move: with a tile
    and an empty cell on it, [canMove] is [true] for one of the four
    directions.  The test of [isFull] in [checkGameOverCondition]
    therefore decides nothing on a board with a tile: there the game
    is over exactly when no direction can move. *)
Theorem some_move_is_possible (e : GameEngine.GameEngine) :
  wf (GameEngine.board e) → isEmpty (GameEngine.board e) = false →
  (isFull (GameEngine.board e) = false →
   ∃ d, d ∈ directions ∧ GameEngine.canMove e d = true)
  ∧ (GameEngine.isWin e = false → GameEngine.isGameOver e = false →
     (GameEngine.isGameOver (GameEngine.checkGameOverCondition e) = true
      ↔ ∀ d, d ∈ directions → GameEngine.canMove e d = false)).
Proof.
  intros Hwf Htile. apply isEmpty_false in Htile.
  assert (Hsome : isFull (GameEngine.board e) = false →
            ∃ d, d ∈ directions ∧ GameEngine.canMove e d = true).
  { intros Hfull. apply some_line_moves; [assumption| |assumption].
    apply isFull_false, Hfull. }
  split; [exact Hsome|]. intros Hwin Hover.
  destruct (checkGameOverCondition_spec e Hover) as (g & -> & Hg).
  cbn [GameEngine.withIsGameOver GameEngine.isGameOver]. rewrite Hg. split.
  - intros (_ & _ & H). exact H.
  - intros H. split; [assumption|]. split; [|exact H].
    destruct (isFull (GameEngine.board e)) eqn:Hfull; [reflexivity|].
    destruct (Hsome eq_refl) as (d & Hd & Hcan).
    rewrite (H d Hd) in Hcan. discriminate.
Qed.

Lemma some_move_is_possible_witness :
  let e := playing lastMove in
  (isFull (GameEngine.board e) = false →
   ∃ d, d ∈ directions ∧ GameEngine.canMove e d = true)
  ∧ (GameEngine.isWin e = false → GameEngine.isGameOver e = false →
     (GameEngine.isGameOver (GameEngine.checkGameOverCondition e) = true
      ↔ ∀ d, d ∈ directions → GameEngine.canMove e d = false)).
Proof.
  apply (some_move_is_possible (playing lastMove)).
  - split; [reflexivity|]. simpl. repeat constructor.
  - reflexivity.
Defined.
End TilesMore.

(** ** GameEngine *)

Section EngineMore.
Import Board MoveProcessor Notions MoreNotions Samples.
Implicit Types (b : Board) (e : GameEngine.GameEngine).

Lemma moveOf_validateDirection d mv :
  moveOf d = Some mv → GameEngine.validateDirection (GameEngine.Str d) = true.
Proof.
  intros H.
  destruct (moveOf_Some d mv H) as [[-> _]|[[-> _]|[[-> _]|[-> _]]]];
    reflexivity.
Qed.

Lemma moveOf_None d :
  moveOf d = None → GameEngine.validateDirection (GameEngine.Str d) = false.
Proof.
  intros Hnone.
  destruct (GameEngine.validateDirection (GameEngine.Str d)) eqn:E;
    [|reflexivity].
  destruct (validateDirection_true _ E) as (d' & mv & [= <-] & Hsome).
  congruence.
Qed.

(** [move] on an engine in play, for one of the four directions. *)
Lemma move_playing e d mv pick small :
  valid e → GameEngine.isWin e = false → GameEngine.isGameOver e = false →
  moveOf d = Some mv →
  GameEngine.move e (GameEngine.Str d) pick small
  = let '(b, result) := mv (GameEngine.board e) in
    let e1 := GameEngine.withBoard (GameEngine.saveState e) b in
    if moved result then
      if GameEngine.validateMoveResult result then
        let e2 := GameEngine.withScore e1
                    (GameEngine.score e1 + score result)%Z in
        let e2 := GameEngine.withMoveCount e2 (GameEngine.moveCount e2 + 1)%Z in
        let e2 := GameEngine.withBoard e2
                    (addRandomTile (GameEngine.board e2) pick small).1 in
        GameEngine.Returns
          (GameEngine.checkGameOverCondition (GameEngine.checkWinCondition e2),
           true)
      else GameEngine.Throws "Invalid move result score"
    else GameEngine.Returns (e1, false).
Proof.
  intros (Hs & Hwf & Hsc & Hmc) Hwin Hover Hmv. unfold GameEngine.move.
  rewrite (moveOf_validateDirection d mv Hmv), Hwin, Hover. cbn [negb orb].
  rewrite validateGameState_valid by assumption. rewrite Hmv. reflexivity.
Qed.

Lemma move_false e direction pick small e' :
  valid e →
  GameEngine.move e direction pick small = GameEngine.Returns (e', false) →
  GameEngine.size e' = GameEngine.size e
  ∧ GameEngine.board e' = GameEngine.board e
  ∧ GameEngine.score e' = GameEngine.score e
  ∧ GameEngine.moveCount e' = GameEngine.moveCount e
  ∧ GameEngine.isWin e' = GameEngine.isWin e
  ∧ GameEngine.isGameOver e' = GameEngine.isGameOver e.
Proof.
  intros (Hs & Hwf & Hsc & Hmc) H. unfold GameEngine.move in H.
  destruct (GameEngine.validateDirection direction) eqn:Hdir; cbn [negb] in H;
    [|injection H as <-; repeat split; reflexivity].
  destruct (GameEngine.isGameOver e || GameEngine.isWin e) eqn:Hterm;
    [injection H as <-; repeat split; reflexivity|].
  rewrite validateGameState_valid in H by assumption.
  destruct direction as [d|]; [|injection H as <-; repeat split; reflexivity].
  destruct (moveOf d) as [mv|] eqn:Hmv;
    [|injection H as <-; repeat split; reflexivity].
  change (GameEngine.board (GameEngine.saveState e))
    with (GameEngine.board e) in H.
  destruct (soundMove_moveOf d mv Hmv (GameEngine.board e) Hwf)
    as (_ & _ & Hmoved & _).
  destruct (mv (GameEngine.board e)) as [b1 result]. cbn [fst snd] in *.
  destruct (moved result).
  - destruct (GameEngine.validateMoveResult result); discriminate.
  - injection H as <-. cbn. rewrite (proj1 Hmoved eq_refl).
    repeat split; reflexivity.
Qed.

(** X16: on an engine in play [move] returns what [canMove] answers
    for the same direction, so a caller that asks [canMove] first, as
    [GameUI.handleMove] does, and moves only on [true], always gets
    [true] from [move]. *)
Theorem move_returns_canMove e d pick small :
  valid e → nonNegative (GameEngine.board e) →
  GameEngine.isWin e = false → GameEngine.isGameOver e = false →
  ∃ e', GameEngine.move e (GameEngine.Str d) pick small
        = GameEngine.Returns (e', GameEngine.canMove e d).
Proof.
  intros Hvalid Hpos Hwin Hover. pose proof Hvalid as (Hs & Hwf & _).
  unfold GameEngine.canMove. destruct (moveOf d) as [mv|] eqn:Hmv.
  - rewrite (move_playing e d mv pick small Hvalid Hwin Hover Hmv).
    rewrite (canMove_moved (GameEngine.board e) d mv Hwf Hmv).
    destruct (soundMove_moveOf d mv Hmv (GameEngine.board e) Hwf)
      as (_ & _ & _ & _ & Hnn).
    destruct (Hnn Hpos) as [_ Hscore].
    destruct (mv (GameEngine.board e)) as [b1 result]. cbn [fst snd] in *.
    destruct (moved result); [|eexists; reflexivity].
    unfold GameEngine.validateMoveResult.
    destruct (Z.ltb_spec (score result) 0); [lia|]. cbn [negb].
    eexists; reflexivity.
  - unfold canMove. rewrite Hmv. unfold GameEngine.move.
    rewrite (moveOf_None d Hmv). exists e. reflexivity.
Qed.

Lemma move_returns_canMove_witness :
  ∃ e', GameEngine.move (playing (firstRow [2; 2; 4; 0]%Z))
          (GameEngine.Str "left") 3 true
        = GameEngine.Returns
            (e', GameEngine.canMove (playing (firstRow [2; 2; 4; 0]%Z)) "left").
Proof.
  apply (move_returns_canMove (playing (firstRow [2; 2; 4; 0]%Z)) "left" 3 true).
  - split; [reflexivity|]. split; [|simpl; lia].
    split; [reflexivity|]. simpl. repeat constructor.
  - unfold nonNegative. simpl. repeat constructor; lia.
  - reflexivity.
  - reflexivity.
Defined.

Lemma checks_previousState e :
  GameEngine.previousState
    (GameEngine.checkGameOverCondition (GameEngine.checkWinCondition e))
  = GameEngine.previousState e.
Proof.
  assert (Hwin : GameEngine.previousState (GameEngine.checkWinCondition e)
                 = GameEngine.previousState e).
  { unfold GameEngine.checkWinCondition.
    repeat match goal with
           | |- context [if ?c then _ else _] => destruct c
           end; reflexivity. }
  rewrite <- Hwin. generalize (GameEngine.checkWinCondition e). intros e1.
  unfold GameEngine.checkGameOverCondition.
  repeat match goal with
         | |- context [if ?c then _ else _] => destruct c
         end; reflexivity.
Qed.

(** X17: a call of [move] that gets past its first two tests can be
    rolled back: whatever it did, [attemptMoveRecovery] afterwards
    restores the board, the score, the move count and the flags the
    engine had before the call. *)
Theorem move_rolls_back e d mv pick small e' result :
  valid e → GameEngine.isWin e = false → GameEngine.isGameOver e = false →
  moveOf d = Some mv →
  GameEngine.move e (GameEngine.Str d) pick small
  = GameEngine.Returns (e', result) →
  Recovery.attemptMoveRecovery e' = Recovery.restoreState e'
  ∧ GameEngine.board (Recovery.restoreState e') = GameEngine.board e
  ∧ GameEngine.score (Recovery.restoreState e') = GameEngine.score e
  ∧ GameEngine.moveCount (Recovery.restoreState e') = GameEngine.moveCount e
  ∧ GameEngine.isWin (Recovery.restoreState e') = false
  ∧ GameEngine.isGameOver (Recovery.restoreState e') = false.
Proof.
  intros Hvalid Hwin Hover Hmv Hmove. pose proof Hvalid as (Hs & Hwf & _).
  assert (Hprev : GameEngine.previousState e'
                  = GameEngine.previousState (GameEngine.saveState e)).
  { rewrite (move_playing e d mv pick small Hvalid Hwin Hover Hmv) in Hmove.
    destruct (mv (GameEngine.board e)) as [b1 r].
    destruct (moved r).
    - destruct (GameEngine.validateMoveResult r); [|discriminate].
      injection Hmove as <- _. rewrite checks_previousState. reflexivity.
    - injection Hmove as <- _. reflexivity. }
  unfold Recovery.attemptMoveRecovery, Recovery.restoreState.
  rewrite Hprev. cbn. rewrite (clone_wf _ Hwf), Hwin, Hover.
  repeat split; reflexivity.
Qed.

Lemma move_rolls_back_witness :
  let e := playing (firstRow [2; 2; 4; 0]%Z) in
  let e' := after e "left" 3 true in
  Recovery.attemptMoveRecovery e' = Recovery.restoreState e'
  ∧ GameEngine.board (Recovery.restoreState e') = GameEngine.board e
  ∧ GameEngine.score (Recovery.restoreState e') = GameEngine.score e
  ∧ GameEngine.moveCount (Recovery.restoreState e') = GameEngine.moveCount e
  ∧ GameEngine.isWin (Recovery.restoreState e') = false
  ∧ GameEngine.isGameOver (Recovery.restoreState e') = false.
Proof.
  apply (move_rolls_back (playing (firstRow [2; 2; 4; 0]%Z)) "left" moveLeft
           3 true (after (playing (firstRow [2; 2; 4; 0]%Z)) "left" 3 true)
           true).
  - split; [reflexivity|]. split; [|simpl; lia].
    split; [reflexivity|]. simpl. repeat constructor.
  - reflexivity.
  - reflexivity.
  - reflexivity.
  - vm_compute. reflexivity.
Defined.

Lemma move_step e direction pick small e' result :
  valid e →
  GameEngine.move e direction pick small = GameEngine.Returns (e', result) →
  valid e'
  ∧ GameEngine.size e' = GameEngine.size e
  ∧ GameEngine.moveCount e'
    = (GameEngine.moveCount e + if result then 1 else 0)%Z
  ∧ (GameEngine.score e ≤ GameEngine.score e')%Z.
Proof.
  intros Hvalid Hmove. pose proof Hvalid as (Hs & Hwf & Hsc & Hmc).
  destruct result.
  - destruct (move_true e direction pick small e' Hvalid Hmove)
      as (d & mv & -> & Hmv & _ & _ & _ & Hpos & Hb & Hsize & Hscore & Hcount & _).
    destruct (soundMove_moveOf d mv Hmv (GameEngine.board e) Hwf)
      as (Hwf1 & Hs1 & _).
    destruct (addRandomTile_shape _ pick small Hwf1) as (Hwf2 & Hs2).
    split; [|split; [assumption|split; [assumption|lia]]].
    split; [|split; [|lia]]; rewrite Hb; [congruence|assumption].
  - destruct (move_false e direction pick small e' Hvalid Hmove)
      as (Hsize & Hb & Hscore & Hcount & _).
    split; [|split; [assumption|split; lia]].
    split; [|split; [|lia]]; rewrite Hb; [congruence|assumption].
Qed.

(** X18: along any sequence of calls of [move] the engine stays
    valid, the size does not change, the score does not decrease, and
    the move count grows by the number of calls that returned
    [true]. *)
Theorem counters_along_a_game e inputs e' results :
  valid e → movesFrom e inputs e' results →
  valid e'
  ∧ GameEngine.size e' = GameEngine.size e
  ∧ GameEngine.getMoveCount e'
    = (GameEngine.getMoveCount e
       + Z.of_nat (length (filter (λ result, result = true) results)))%Z
  ∧ (GameEngine.getScore e ≤ GameEngine.getScore e')%Z.
Proof.
  intros Hvalid Hmoves. unfold GameEngine.getMoveCount, GameEngine.getScore.
  induction Hmoves as [e|e direction pick small e1 result inputs e2 results
                         Hmove _ IH].
  - split; [assumption|]. split; [reflexivity|]. simpl. lia.
  - destruct (move_step e direction pick small e1 result Hvalid Hmove)
      as (Hvalid1 & Hsize1 & Hcount1 & Hscore1).
    destruct (IH Hvalid1) as (Hvalid2 & Hsize2 & Hcount2 & Hscore2).
    split; [assumption|]. split; [congruence|]. split; [|lia].
    rewrite Hcount2, Hcount1, filter_cons.
    destruct result; case_decide; try congruence; cbn [length]; lia.
Qed.

Lemma counters_along_a_game_witness :
  let e := playing (firstRow [2; 2; 4; 0]%Z) in
  let e1 := after e "left" 3 true in
  let e2 := after e1 "sideways" 5 false in
  let e3 := after e2 "left" 0 true in
  valid e3
  ∧ GameEngine.size e3 = GameEngine.size e
  ∧ GameEngine.getMoveCount e3
    = (GameEngine.getMoveCount e
       + Z.of_nat (length (filter (λ result, result = true)
                             [true; false; true])))%Z
  ∧ (GameEngine.getScore e ≤ GameEngine.getScore e3)%Z.
Proof.
  apply (counters_along_a_game (playing (firstRow [2; 2; 4; 0]%Z))
           [(GameEngine.Str "left", 3, true);
            (GameEngine.Str "sideways", 5, false);
            (GameEngine.Str "left", 0, true)]).
  - split; [reflexivity|]. split; [|simpl; lia].
    split; [reflexivity|]. simpl. repeat constructor.
  - eapply movesFrom_cons; [vm_compute; reflexivity|].
    eapply movesFrom_cons; [vm_compute; reflexivity|].
    eapply movesFrom_cons; [vm_compute; reflexivity|].
    apply movesFrom_nil.
Defined.

Lemma tilesArePowers_initialize b : tilesArePowers (initialize b).
Proof.
  intros row col Hrow Hcol. left. simpl in *.
  apply cellAt_replicate; assumption.
Qed.

(** X19: the invariant of the grid.  On every engine a program
    obtains from the constructor by calls of [initializeGame],
    [restart] and [move], the board is [size] rows of [size] cells and
    every tile is a power of two. *)
Theorem reachable_tiles_are_powers e :
  reachable e →
  wf (GameEngine.board e)
  ∧ size (GameEngine.board e) = GameEngine.size e
  ∧ tilesArePowers (GameEngine.board e).
Proof.
  intros Hreach.
  assert (Hshape : wf (GameEngine.board e)
                   ∧ size (GameEngine.board e) = GameEngine.size e).
  { destruct (reachable_valid e Hreach) as ((Hs & Hwf & _) & _). auto. }
  destruct Hshape as [Hwf Hs]. split; [assumption|]. split; [assumption|].
  clear Hwf Hs.
  induction Hreach as [size e Hnew|e pick1 small1 pick2 small2 e' Hreach IH Hinit
                      |e direction pick small e' result Hreach IH Hmove].
  - unfold GameEngine.new in Hnew.
    destruct (GameEngine.validateSize size); [|discriminate].
    injection Hnew as <-. apply tilesArePowers_initialize.
  - unfold GameEngine.initializeGame in Hinit.
    destruct (GameEngine.validateInitialization _); [|discriminate].
    injection Hinit as <-.
    cbn [GameEngine.withBoard GameEngine.board].
    pose proof (wf_initialize
                  (GameEngine.board (GameEngine.validateGameState e))) as Hwf0.
    destruct (addRandomTile_shape _ pick1 small1 Hwf0) as [Hwf1 _].
    apply tilesArePowers_addRandomTile; [assumption|].
    apply tilesArePowers_addRandomTile; [assumption|].
    apply tilesArePowers_initialize.
  - destruct (reachable_valid e Hreach) as (Hvalid & _).
    pose proof Hvalid as (_ & Hwf & _). destruct result.
    + destruct (move_true e direction pick small e' Hvalid Hmove)
        as (d & mv & -> & Hmv & _ & _ & _ & _ & -> & _).
      destruct (soundMove_moveOf d mv Hmv (GameEngine.board e) Hwf)
        as (Hwf1 & _).
      apply tilesArePowers_addRandomTile; [assumption|].
      apply (tilesArePowers_move (GameEngine.board e) d mv Hwf Hmv IH).
    + destruct (move_false e direction pick small e' Hvalid Hmove)
        as (_ & -> & _). exact IH.
Qed.

Lemma reachable_tiles_are_powers_witness :
  let e := initialized (playing (Board.new 4)) 5 true 20 false in
  wf (GameEngine.board (after e "left" 3 true))
  ∧ size (GameEngine.board (after e "left" 3 true))
    = GameEngine.size (after e "left" 3 true)
  ∧ tilesArePowers (GameEngine.board (after e "left" 3 true)).
Proof.
  apply (reachable_tiles_are_powers
           (after (initialized (playing (Board.new 4)) 5 true 20 false)
              "left" 3 true)).
  eapply (reachable_move
            (initialized (playing (Board.new 4)) 5 true 20 false)
            (GameEngine.Str "left") 3 true); [|vm_compute; reflexivity].
  eapply (reachable_initializeGame (playing (Board.new 4)) 5 true 20 false);
    [|vm_compute; reflexivity].
  apply (reachable_new 4). reflexivity.
Defined.

(** X20: a call of [move] that returns [true] has added a tile: the
    board it leaves is the board of the move with a 2 or a 4 written
    into a cell that the move left empty.  The case of a full board
    after the move, for which [addRandomTile] would return [false],
    does not occur. *)
Theorem move_adds_one_tile e direction pick small e' :
  valid e →
  GameEngine.move e direction pick small = GameEngine.Returns (e', true) →
  ∃ d mv row col,
    direction = GameEngine.Str d ∧ moveOf d = Some mv
    ∧ row < GameEngine.size e ∧ col < GameEngine.size e
    ∧ cellAt (grid (mv (GameEngine.board e)).1) row col = 0%Z
    ∧ GameEngine.board e'
      = setCell (mv (GameEngine.board e)).1 (Z.of_nat row) (Z.of_nat col)
          (if small then 2%Z else 4%Z)
    ∧ tileCount (GameEngine.board e')
      = S (tileCount (mv (GameEngine.board e)).1).
Proof.
  intros Hvalid Hmove. pose proof Hvalid as (Hs & Hwf & _).
  destruct (move_true e direction pick small e' Hvalid Hmove)
    as (d & mv & -> & Hmv & _ & _ & Hmoved & _ & Hb & _).
  destruct (soundMove_moveOf d mv Hmv (GameEngine.board e) Hwf)
    as (Hwf1 & Hs1 & _).
  pose proof (moved_leaves_room _ d mv Hwf Hmv Hmoved) as Hroom.
  destruct (addRandomTile_spec _ pick small Hroom)
    as (row & col & Hrow & Hcol & Hzero & Hadd).
  rewrite Hadd in Hb. cbn [fst] in Hb.
  exists d, mv, row, col. rewrite Hb.
  split; [reflexivity|]. split; [assumption|].
  split; [congruence|]. split; [congruence|]. split; [assumption|].
  split; [reflexivity|].
  apply tileCount_setCell; try assumption. destruct small; discriminate.
Qed.

Lemma move_adds_one_tile_witness :
  let e := playing (firstRow [2; 2; 4; 0]%Z) in
  ∃ d mv row col,
    GameEngine.Str "left" = GameEngine.Str d ∧ moveOf d = Some mv
    ∧ row < GameEngine.size e ∧ col < GameEngine.size e
    ∧ cellAt (grid (mv (GameEngine.board e)).1) row col = 0%Z
    ∧ GameEngine.board (after e "left" 3 true)
      = setCell (mv (GameEngine.board e)).1 (Z.of_nat row) (Z.of_nat col) 2%Z
    ∧ tileCount (GameEngine.board (after e "left" 3 true))
      = S (tileCount (mv (GameEngine.board e)).1).
Proof.
  apply (move_adds_one_tile (playing (firstRow [2; 2; 4; 0]%Z))
           (GameEngine.Str "left") 3 true
           (after (playing (firstRow [2; 2; 4; 0]%Z)) "left" 3 true)).
  - split; [reflexivity|]. split; [|simpl; lia].
    split; [reflexivity|]. simpl. repeat constructor.
  - vm_compute. reflexivity.
Defined.

Lemma empty_board_stays b direction mv :
  wf b →
  (∀ row col, row < size b → col < size b → cellAt (grid b) row col = 0%Z) →
  moveOf direction = Some mv → mv b = (b, {| moved := false; score := 0 |}).
Proof.
  intros Hwf Hzero Hmv.
  destruct (soundMove_moveOf direction mv Hmv b Hwf)
    as (Hwf1 & Hs1 & Hmoved & _).
  assert (Hall : Forall (Forall (λ v, v = 0%Z)) (grid (mv b).1)).
  { apply (move_all (λ v, v = 0%Z) eq_refl) with (direction := direction);
      try assumption.
    - intros v ->. reflexivity.
    - apply (cells_all (λ v, v = 0%Z) eq_refl b Hwf). exact Hzero. }
  assert (Hsame : (mv b).1 = b).
  { apply board_ext; try assumption. rewrite Hs1. intros row col Hrow Hcol.
    rewrite (Hzero row col Hrow Hcol).
    apply (cellAt_all (λ v, v = 0%Z) eq_refl). exact Hall. }
  apply Hmoved in Hsame as Hflag.
  destruct (move_view b direction mv Hwf Hmv) as (_ & _ & Hscore).
  assert (Hzeros : ∀ k, k < size b →
            lineTowards (size b) (grid b) direction k
            = replicate (size b) 0%Z).
  { intros k Hk.
    apply list_eq_same_length with (size b);
      [apply length_replicate
      |apply (length_lineTowards _ _ direction mv k Hmv)|].
    intros i x y Hi Hx Hy. apply lookup_replicate in Hy as [-> _].
    destruct (moveOf_Some direction mv Hmv)
      as [[-> _]|[[-> _]|[[-> _]|[-> _]]]].
    - rewrite lookup_line_left in Hx by assumption.
      rewrite Hzero in Hx by assumption. congruence.
    - rewrite lookup_line_right in Hx by assumption.
      rewrite Hzero in Hx by lia. congruence.
    - rewrite lookup_line_up in Hx by assumption.
      rewrite Hzero in Hx by assumption. congruence.
    - rewrite lookup_line_down in Hx by assumption.
      rewrite Hzero in Hx by lia. congruence. }
  assert (Hscore0 : score (mv b).2 = 0%Z).
  { rewrite Hscore. unfold linesTowards. rewrite map_map.
    rewrite <- (sumZ_map_zero (seq 0 (size b))).
    apply sumZ_map_ext_seq. intros k Hk. rewrite (Hzeros k Hk).
    unfold rowScore. rewrite nonZero_zeros. reflexivity. }
  destruct (mv b) as [b1 [m s]]. cbn [fst snd moved score] in *.
  congruence.
Qed.

Lemma move_on_empty e direction pick small :
  valid e →
  (∀ row col, row < size (GameEngine.board e) →
     col < size (GameEngine.board e) →
     cellAt (grid (GameEngine.board e)) row col = 0%Z) →
  GameEngine.isWin e = false → GameEngine.isGameOver e = false →
  ∃ e', GameEngine.move e direction pick small = GameEngine.Returns (e', false)
    ∧ valid e'
    ∧ GameEngine.board e' = GameEngine.board e
    ∧ GameEngine.isWin e' = false ∧ GameEngine.isGameOver e' = false
    ∧ GameEngine.score e' = GameEngine.score e
    ∧ GameEngine.moveCount e' = GameEngine.moveCount e.
Proof.
  intros Hvalid Hzero Hwin Hover. pose proof Hvalid as (Hs & Hwf & Hsc & Hmc).
  destruct direction as [d|];
    [|exists e; split; [reflexivity|]; split; [exact Hvalid|];
      repeat split; assumption].
  destruct (moveOf d) as [mv|] eqn:Hmv.
  - rewrite (move_playing e d mv pick small Hvalid Hwin Hover Hmv).
    rewrite (empty_board_stays (GameEngine.board e) d mv Hwf Hzero Hmv).
    cbn [moved]. eexists. split; [reflexivity|].
    split; [|repeat split; assumption].
    split; [exact Hs|]. split; [exact Hwf|]. split; assumption.
  - unfold GameEngine.move. rewrite (moveOf_None d Hmv).
    exists e. split; [reflexivity|]. split; [exact Hvalid|].
    repeat split; assumption.
Qed.

Lemma moves_on_empty e inputs e' results :
  movesFrom e inputs e' results →
  valid e →
  (∀ row col, row < size (GameEngine.board e) →
     col < size (GameEngine.board e) →
     cellAt (grid (GameEngine.board e)) row col = 0%Z) →
  GameEngine.isWin e = false → GameEngine.isGameOver e = false →
  Forall (λ result, result = false) results
  ∧ valid e'
  ∧ GameEngine.board e' = GameEngine.board e
  ∧ GameEngine.isWin e' = false ∧ GameEngine.isGameOver e' = false
  ∧ GameEngine.score e' = GameEngine.score e
  ∧ GameEngine.moveCount e' = GameEngine.moveCount e.
Proof.
  induction 1 as [e|e direction pick small e1 result inputs e2 results
                    Hmove _ IH]; intros Hvalid Hzero Hwin Hover.
  - split; [constructor|]. split; [exact Hvalid|].
    repeat split; assumption.
  - destruct (move_on_empty e direction pick small Hvalid Hzero Hwin Hover)
      as (e0 & He0 & Hvalid0 & Hb0 & Hwin0 & Hover0 & Hsc0 & Hmc0).
    rewrite He0 in Hmove. injection Hmove as <- <-.
    destruct IH as (Hall & Hvalid2 & Hb2 & Hwin2 & Hover2 & Hsc2 & Hmc2);
      [assumption|rewrite Hb0; exact Hzero|assumption..|].
    split; [constructor; [reflexivity|assumption]|].
    split; [assumption|]. split; [congruence|].
    split; [assumption|]. split; [assumption|]. split; congruence.
Qed.

(** X21: the constructor accepts the sizes 2 to 10 and throws for
    every other integer.  The engine it returns has an empty board,
    on which no move does anything: until [initializeGame] is called,
    that is after any sequence of calls of [move], the board is still
    the empty one, [canMove] is [false] in every direction, the next
    call of [move] returns [false], the score and the move count are
    0, and the game is neither won nor over. *)
Theorem new_engine (size : Z) :
  if decide (2 ≤ size ≤ 10)%Z
  then ∃ e, GameEngine.new size = GameEngine.Returns e
         ∧ GameEngine.size e = Z.to_nat size
         ∧ isEmpty (GameEngine.board e) = true
         ∧ GameEngine.isGameOverState e = false
         ∧ (∀ d, GameEngine.canMove e d = false)
         ∧ (∀ direction pick small,
              ∃ e', GameEngine.move e direction pick small
                    = GameEngine.Returns (e', false)
                ∧ GameEngine.board e' = GameEngine.board e)
         ∧ (∀ inputs e' results,
              movesFrom e inputs e' results →
              Forall (λ result, result = false) results
              ∧ GameEngine.board e' = GameEngine.board e
              ∧ isEmpty (GameEngine.board e') = true
              ∧ GameEngine.isGameOverState e' = false
              ∧ GameEngine.isWinState e' = false
              ∧ GameEngine.getScore e' = 0%Z
              ∧ GameEngine.getMoveCount e' = 0%Z
              ∧ (∀ d, GameEngine.canMove e' d = false)
              ∧ (∀ direction pick small,
                   ∃ e'', GameEngine.move e' direction pick small
                          = GameEngine.Returns (e'', false)
                     ∧ GameEngine.board e'' = GameEngine.board e
                     ∧ GameEngine.isGameOverState e'' = false))
  else GameEngine.new size = GameEngine.Throws "Invalid grid size".
Proof.
  unfold GameEngine.new, GameEngine.validateSize.
  case_decide as Hsize.
  - destruct (Z.ltb_spec size 2), (Z.ltb_spec 10 size); try lia. cbn [negb orb].
    eexists. split; [reflexivity|].
    set (e := {| GameEngine.size := Z.to_nat size |}).
    assert (Hvalid : valid e).
    { split; [reflexivity|]. split; [apply wf_initialize|]. simpl. lia. }
    pose proof Hvalid as (_ & Hwfe & _).
    assert (Hzero : ∀ row col, row < Board.size (GameEngine.board e) →
                      col < Board.size (GameEngine.board e) →
                      cellAt (grid (GameEngine.board e)) row col = 0%Z).
    { intros row col Hrow Hcol. apply cellAt_replicate; assumption. }
    assert (Hcan : ∀ b, wf b →
              (∀ row col, row < Board.size b → col < Board.size b →
                 cellAt (grid b) row col = 0%Z) →
              ∀ d, canMove b d = false).
    { intros b Hwfb Hzerob d. destruct (moveOf d) as [mv|] eqn:Hmv.
      - rewrite (canMove_moved b d mv Hwfb Hmv).
        rewrite (empty_board_stays b d mv Hwfb Hzerob Hmv). reflexivity.
      - unfold canMove. rewrite Hmv. reflexivity. }
    split; [reflexivity|].
    split; [apply isEmpty_cells; exact Hzero|].
    split; [reflexivity|].
    split; [intros d; apply (Hcan _ Hwfe Hzero)|]. split.
    + intros direction pick small.
      destruct (move_on_empty e direction pick small Hvalid Hzero eq_refl eq_refl)
        as (e' & He' & _ & Hb' & _). exists e'. auto.
    + intros inputs e' results Hmoves.
      destruct (moves_on_empty e inputs e' results Hmoves Hvalid Hzero
                  eq_refl eq_refl)
        as (Hall & Hvalid' & Hb' & Hwin' & Hover' & Hsc' & Hmc').
      assert (Hzero' : ∀ row col, row < Board.size (GameEngine.board e') →
                         col < Board.size (GameEngine.board e') →
                         cellAt (grid (GameEngine.board e')) row col = 0%Z)
        by (rewrite Hb'; exact Hzero).
      split; [assumption|]. split; [assumption|].
      split; [apply isEmpty_cells; exact Hzero'|].
      split; [assumption|]. split; [assumption|].
      split; [exact Hsc'|]. split; [exact Hmc'|].
      split; [intros d; apply (Hcan _ (proj1 (proj2 Hvalid')) Hzero')|].
      intros direction pick small.
      destruct (move_on_empty e' direction pick small Hvalid' Hzero' Hwin' Hover')
        as (e'' & He'' & _ & Hb'' & _ & Hover'' & _).
      exists e''. split; [assumption|]. split; [congruence|assumption].
  - destruct (Z.ltb_spec size 2), (Z.ltb_spec 10 size); try lia; reflexivity.
Qed.

Lemma two_fresh_tiles b pick1 small1 pick2 small2 :
  2 ≤ size b →
  wf (addRandomTile (addRandomTile (initialize b) pick1 small1).1
        pick2 small2).1
  ∧ size (addRandomTile (addRandomTile (initialize b) pick1 small1).1
            pick2 small2).1 = size b
  ∧ tileCount (addRandomTile (addRandomTile (initialize b) pick1 small1).1
                 pick2 small2).1 = 2
  ∧ freshTiles (addRandomTile (addRandomTile (initialize b) pick1 small1).1
                  pick2 small2).1.
Proof.
  intros Hbig. set (b0 := initialize b).
  assert (size b0 = size b) as Hs0 by reflexivity.
  pose proof (wf_initialize b) as Hwf0. fold b0 in Hwf0.
  assert (∀ r c, r < size b0 → c < size b0 → cellAt (grid b0) r c = 0%Z)
    as Hzero by (intros r c Hr Hc; apply cellAt_replicate; assumption).
  destruct (addRandomTile_spec b0 pick1 small1)
    as (r1 & c1 & Hr1 & Hc1 & Hz1 & ->).
  { exists 0, 0. repeat split; [lia..|apply Hzero; lia]. }
  cbn [fst].
  set (v1 := if small1 then 2%Z else 4%Z).
  assert (v1 = 2%Z ∨ v1 = 4%Z) as Hv1 by (unfold v1; destruct small1; tauto).
  set (b1 := setCell b0 (Z.of_nat r1) (Z.of_nat c1) v1).
  assert (wf b1) as Hwf1 by apply wf_setCell, Hwf0.
  assert (size b1 = size b0) as Hs1 by apply size_setCell.
  destruct (addRandomTile_spec b1 pick2 small2)
    as (r2 & c2 & Hr2 & Hc2 & Hz2 & ->).
  { exists 0, (if decide (r1 = 0 ∧ c1 = 0) then 1 else 0).
    rewrite Hs1. split; [lia|]. split; [case_decide; lia|].
    unfold b1. rewrite cellAt_setCell by assumption.
    repeat case_decide; try (exfalso; lia); apply Hzero; lia. }
  cbn [fst].
  set (v2 := if small2 then 2%Z else 4%Z).
  assert (v2 = 2%Z ∨ v2 = 4%Z) as Hv2 by (unfold v2; destruct small2; tauto).
  split; [apply wf_setCell, Hwf1|].
  split; [rewrite size_setCell, Hs1, Hs0; reflexivity|]. split.
  - rewrite tileCount_setCell by (try assumption; lia).
    unfold b1. rewrite tileCount_setCell
      by (try assumption; try lia; apply Hzero; assumption).
    unfold b0. rewrite tileCount_initialize. reflexivity.
  - apply freshTiles_setCell; try assumption.
    rewrite Hs1 in Hr2, Hc2.
    apply freshTiles_setCell; try assumption. apply freshTiles_initialize.
Qed.

(** X22: [attemptRecovery] starts the game again on the same engine:
    it leaves a board with exactly two tiles, each a 2 or a 4, which
    [validateInitialization] accepts, and both flags [false].  Unlike
    [initializeGame] it keeps the score and the move count, a negative
    one replaced by 0. *)
Theorem attemptRecovery_restarts e pick1 small1 pick2 small2 :
  GameEngine.size e = size (GameEngine.board e) → 2 ≤ GameEngine.size e →
  valid (Recovery.attemptRecovery e pick1 small1 pick2 small2)
  ∧ tileCount (GameEngine.board
                 (Recovery.attemptRecovery e pick1 small1 pick2 small2)) = 2
  ∧ freshTiles (GameEngine.board
                  (Recovery.attemptRecovery e pick1 small1 pick2 small2))
  ∧ GameEngine.validateInitialization
      (Recovery.attemptRecovery e pick1 small1 pick2 small2)
    = GameEngine.Returns tt
  ∧ GameEngine.score (Recovery.attemptRecovery e pick1 small1 pick2 small2)
    = Z.max 0 (GameEngine.score e)
  ∧ GameEngine.moveCount (Recovery.attemptRecovery e pick1 small1 pick2 small2)
    = Z.max 0 (GameEngine.moveCount e)
  ∧ GameEngine.isWin (Recovery.attemptRecovery e pick1 small1 pick2 small2)
    = false
  ∧ GameEngine.isGameOver (Recovery.attemptRecovery e pick1 small1 pick2 small2)
    = false.
Proof.
  intros Hsize Hbig.
  destruct (two_fresh_tiles (GameEngine.board e) pick1 small1 pick2 small2)
    as (Hwf & Hs & Hcount & Hfresh); [lia|].
  unfold Recovery.attemptRecovery, valid.
  cbn [GameEngine.withBoard GameEngine.withScore GameEngine.withMoveCount
       GameEngine.withIsWin GameEngine.withIsGameOver
       GameEngine.board GameEngine.size GameEngine.score GameEngine.moveCount
       GameEngine.isWin GameEngine.isGameOver].
  split; [|split; [assumption|split; [assumption|split]]].
  - split; [congruence|]. split; [assumption|]. lia.
  - apply validateInitialization_accepts;
      cbn [GameEngine.withBoard GameEngine.withScore GameEngine.withMoveCount
           GameEngine.withIsWin GameEngine.withIsGameOver
           GameEngine.board GameEngine.size];
      (assumption || congruence).
  - repeat split; reflexivity.
Qed.

Lemma attemptRecovery_restarts_witness :
  let e := GameEngine.withMoveCount
             (GameEngine.withScore (playing lastMove) 120) (-3) in
  valid (Recovery.attemptRecovery e 5 true 20 false)
  ∧ tileCount (GameEngine.board (Recovery.attemptRecovery e 5 true 20 false))
    = 2
  ∧ freshTiles (GameEngine.board (Recovery.attemptRecovery e 5 true 20 false))
  ∧ GameEngine.validateInitialization
      (Recovery.attemptRecovery e 5 true 20 false)
    = GameEngine.Returns tt
  ∧ GameEngine.score (Recovery.attemptRecovery e 5 true 20 false)
    = Z.max 0 (GameEngine.score e)
  ∧ GameEngine.moveCount (Recovery.attemptRecovery e 5 true 20 false)
    = Z.max 0 (GameEngine.moveCount e)
  ∧ GameEngine.isWin (Recovery.attemptRecovery e 5 true 20 false) = false
  ∧ GameEngine.isGameOver (Recovery.attemptRecovery e 5 true 20 false) = false.
Proof.
  apply (attemptRecovery_restarts
           (GameEngine.withMoveCount
              (GameEngine.withScore (playing lastMove) 120) (-3))
           5 true 20 false).
  - reflexivity.
  - simpl. lia.
Defined.
End EngineMore.

(** ** ScoreManager *)

Section ScoresMore.
Import Notions MoreNotions.
Import ScoreManager.
Implicit Types (m : ScoreManager) (s : Score).

Lemma findInsertIndex_spec newScore (l : list Score) :
  match findInsertIndex newScore l with
  | Some i =>
      (∃ s, l !! i = Some s ∧ (value s < newScore)%Z)
      ∧ ∀ j s, j < i → l !! j = Some s → (newScore ≤ value s)%Z
  | None => ∀ j s, l !! j = Some s → (newScore ≤ value s)%Z
  end.
Proof.
  unfold findInsertIndex.
  pose (P := λ (k : nat) (found : option nat),
    match found with
    | Some i =>
        (∃ s, l !! i = Some s ∧ (value s < newScore)%Z)
        ∧ ∀ j s, j < i → l !! j = Some s → (newScore ≤ value s)%Z
    | None => ∀ j s, j < k → l !! j = Some s → (newScore ≤ value s)%Z
    end).
  assert (HP : P (length l) (for_range (length l) (λ i insertIndex,
      match insertIndex, l !! i with
      | Some _, _ => insertIndex
      | None, Some s => if (value s <? newScore)%Z then Some i else None
      | None, None => None
      end) None)).
  { apply for_range_inv.
    - intros j s Hj. lia.
    - intros i found Hi HP. destruct found as [i0|]; [exact HP|].
      destruct (l !! i) as [s|] eqn:Hs.
      + destruct (Z.ltb_spec (value s) newScore) as [Hlt|Hge].
        * split; [exists s; auto|]. intros j s' Hj. apply HP. exact Hj.
        * intros j s' Hj Hs'. destruct (decide (j = i)) as [->|Hne].
          -- congruence.
          -- apply (HP j s'); [lia|assumption].
      + apply lookup_ge_None in Hs. lia. }
  unfold P in HP. destruct (for_range _ _ _) as [i|]; [exact HP|].
  intros j s Hs. apply (HP j s); [|assumption].
  apply lookup_lt_Some in Hs. exact Hs.
Qed.

Lemma lowestScore_full m :
  length (scores m) = maxScores m → 0 < maxScores m →
  ∃ s, scores m !! (maxScores m - 1) = Some s
    ∧ lowestScore m = GameEngine.Returns (value s).
Proof.
  intros Hlen Hmax. unfold lowestScore.
  destruct (maxScores m) as [|k] eqn:E; [lia|].
  replace (S k - 1) with k by lia.
  destruct (lookup_lt_is_Some_2 (scores m) k) as [s Hs]; [lia|].
  exists s. rewrite Hs. auto.
Qed.

Lemma lookup_spliced (l : list Score) i record n j :
  i < length l → n ≤ length l → j < n →
  take n (take i l ++ record :: drop i l) !! j
  = if decide (j < i) then l !! j
    else if decide (j = i) then Some record else l !! (j - 1).
Proof.
  intros Hi Hn Hj. rewrite lookup_take_lt by assumption.
  case_decide as Hlt.
  - rewrite lookup_app_l by (rewrite length_take; lia).
    apply lookup_take_lt. assumption.
  - rewrite lookup_app_r by (rewrite length_take; lia).
    rewrite length_take, Nat.min_l by lia.
    case_decide as Heq.
    + subst j. rewrite Nat.sub_diag. reflexivity.
    + destruct (j - i) as [|k] eqn:E; [lia|]. rewrite lookup_cons.
      rewrite lookup_drop. f_equal. lia.
Qed.

(** X23: a leaderboard with [maxScores] records in descending order
    stays one under [checkAndUpdateScore].  The rank returned is the
    place of the new record: the records above it are not smaller and
    stay where they are, the records from that place on are smaller
    and move down one place, the last one leaving the board.  Without
    a rank the board is unchanged. *)
Theorem checkAndUpdateScore_ranks m newScore today :
  length (scores m) = maxScores m → 0 < maxScores m → descending (scores m) →
  ∃ m' rank,
    checkAndUpdateScore m newScore today = GameEngine.Returns (m', rank)
    ∧ maxScores m' = maxScores m
    ∧ length (scores m') = maxScores m
    ∧ descending (scores m')
    ∧ match rank with
      | Some i =>
          scores m' !! i = Some {| value := newScore; date := today |}
          ∧ (∀ j s, j < i → scores m !! j = Some s →
               scores m' !! j = Some s ∧ (newScore ≤ value s)%Z)
          ∧ (∀ j s, i ≤ j → S j < maxScores m → scores m !! j = Some s →
               scores m' !! S j = Some s ∧ (value s < newScore)%Z)
          ∧ getBestScore m' = Z.max (getBestScore m) newScore
      | None => m' = m
      end.
Proof.
  intros Hlen Hmax Hdesc. unfold checkAndUpdateScore.
  destruct (Z.leb_spec newScore 0) as [Hle|Hpos];
    [exists m, None; repeat split; assumption|].
  destruct (lowestScore_full m Hlen Hmax) as (low & Hlow & ->).
  destruct (Z.leb_spec newScore (value low)) as [Hle|Hgt];
    [exists m, None; repeat split; assumption|].
  pose proof (findInsertIndex_spec newScore (scores m)) as Hfind.
  destruct (findInsertIndex newScore (scores m)) as [i|];
    [|exists m, None; repeat split; assumption].
  destruct Hfind as ((si & Hsi & Hlt) & Habove).
  pose proof (lookup_lt_Some _ _ _ Hsi) as Hi.
  set (record := {| value := newScore; date := today |}).
  set (spliced := take (maxScores m)
                    (take i (scores m) ++ record :: drop i (scores m))).
  assert (Hlook : ∀ j, j < maxScores m →
            spliced !! j
            = if decide (j < i) then scores m !! j
              else if decide (j = i) then Some record
                   else scores m !! (j - 1)).
  { intros j Hj. apply lookup_spliced; lia. }
  assert (Hbelow : ∀ j s, i ≤ j → scores m !! j = Some s →
            (value s < newScore)%Z).
  { intros j s Hij Hs. destruct (decide (j = i)) as [->|Hne]; [congruence|].
    specialize (Hdesc i j si s ltac:(lia) Hsi Hs). lia. }
  assert (Hlen' : length spliced = maxScores m).
  { unfold spliced. rewrite length_take, length_app, length_take.
    cbn [length]. rewrite length_drop. lia. }
  eexists _, (Some i). split; [reflexivity|]. cbn [maxScores scores].
  fold record. fold spliced.
  split; [reflexivity|]. split; [exact Hlen'|]. split; [|split; [|split; [|split]]].
  - intros j1 j2 a c Hj Ha Hc.
    pose proof (lookup_lt_Some _ _ _ Ha) as H1.
    pose proof (lookup_lt_Some _ _ _ Hc) as H2.
    rewrite Hlook in Ha, Hc by lia.
    repeat case_decide; try lia; simplify_eq; cbn [value].
    + apply (Hdesc j1 j2 a c Hj Ha Hc).
    + apply (Habove j1 a); assumption.
    + pose proof (Hbelow (j2 - 1) c ltac:(lia) Hc).
      pose proof (Habove j1 a ltac:(lia) Ha). lia.
    + pose proof (Hbelow (j2 - 1) c ltac:(lia) Hc). lia.
    + apply (Hdesc (j1 - 1) (j2 - 1) a c ltac:(lia) Ha Hc).
  - rewrite Hlook by lia. repeat case_decide; try lia. reflexivity.
  - intros j s Hj Hs. split; [|apply (Habove j s Hj Hs)].
    rewrite Hlook by lia. case_decide; [assumption|lia].
  - intros j s Hij Hj Hs. split; [|apply (Hbelow j s Hij Hs)].
    rewrite Hlook by lia. repeat case_decide; try lia.
    replace (S j - 1) with j by lia. assumption.
  - unfold getBestScore.
    assert (H0 : spliced !! 0
                 = if decide (0 < i) then scores m !! 0 else Some record).
    { rewrite Hlook by lia. repeat case_decide; try lia; reflexivity. }
    destruct spliced as [|first rest]; [simpl in Hlen'; lia|].
    cbn [lookup list_lookup] in H0. case_decide as H0i.
    + destruct (scores m) as [|s0 rest0]; [discriminate|].
      cbn [lookup list_lookup] in H0. injection H0 as ->.
      pose proof (Habove 0 s0 H0i eq_refl). cbn [scores]. lia.
    + injection H0 as ->. cbn [scores value].
      assert (i = 0) by lia. subst i.
      destruct (scores m) as [|s0 rest0]; [discriminate|].
      simpl in Hsi. injection Hsi as ->. unfold record. cbn [value]. lia.
Qed.

Lemma checkAndUpdateScore_ranks_witness :
  let m := ScoreManager.new None "2024/5/1" in
  ∃ m' rank,
    checkAndUpdateScore m 512 "2024/5/2" = GameEngine.Returns (m', rank)
    ∧ maxScores m' = maxScores m
    ∧ length (scores m') = maxScores m
    ∧ descending (scores m')
    ∧ match rank with
      | Some i =>
          scores m' !! i = Some {| value := 512; date := "2024/5/2" |}
          ∧ (∀ j s, j < i → scores m !! j = Some s →
               scores m' !! j = Some s ∧ (512 ≤ value s)%Z)
          ∧ (∀ j s, i ≤ j → S j < maxScores m → scores m !! j = Some s →
               scores m' !! S j = Some s ∧ (value s < 512)%Z)
          ∧ getBestScore m' = Z.max (getBestScore m) 512
      | None => m' = m
      end.
Proof.
  apply (checkAndUpdateScore_ranks (ScoreManager.new None "2024/5/1")
           512 "2024/5/2").
  - reflexivity.
  - simpl. lia.
  - intros i j a c Hij Ha Hc.
    apply list_elem_of_lookup_2, elem_of_replicate in Ha as [-> _].
    apply list_elem_of_lookup_2, elem_of_replicate in Hc as [-> _].
    simpl. lia.
Defined.

(** X24: asking first is safe.  On a leaderboard with [maxScores]
    records and for a score that is a whole number,
    [checkAndUpdateScore] returns a rank exactly when
    [canEnterLeaderboard] answers [true] for the same score; its last
    [return null] is not reached. *)
Theorem canEnterLeaderboard_agrees m newScore today :
  length (scores m) = maxScores m → 0 < maxScores m →
  ∃ m' rank,
    checkAndUpdateScore m newScore today = GameEngine.Returns (m', rank)
    ∧ canEnterLeaderboard m newScore
      = GameEngine.Returns (bool_decide (is_Some rank)).
Proof.
  intros Hlen Hmax. unfold checkAndUpdateScore, canEnterLeaderboard.
  destruct (Z.leb_spec newScore 0) as [Hle|Hpos].
  { exists m, None. split; reflexivity. }
  destruct (lowestScore_full m Hlen Hmax) as (low & Hlow & ->).
  destruct (Z.leb_spec newScore (value low)) as [Hle|Hgt].
  { exists m, None. split; [reflexivity|].
    destruct (Z.ltb_spec (value low) newScore); [lia|]. reflexivity. }
  pose proof (findInsertIndex_spec newScore (scores m)) as Hfind.
  destruct (findInsertIndex newScore (scores m)) as [i|].
  - eexists _, (Some i). split; [reflexivity|].
    destruct (Z.ltb_spec (value low) newScore); [|lia]. reflexivity.
  - specialize (Hfind _ _ Hlow). lia.
Qed.

Lemma canEnterLeaderboard_agrees_witness :
  ∃ m' rank,
    checkAndUpdateScore (ScoreManager.new None "2024/5/1") 512 "2024/5/2"
    = GameEngine.Returns (m', rank)
    ∧ canEnterLeaderboard (ScoreManager.new None "2024/5/1") 512
      = GameEngine.Returns (bool_decide (is_Some rank)).
Proof.
  apply (canEnterLeaderboard_agrees (ScoreManager.new None "2024/5/1")
           512 "2024/5/2").
  - reflexivity.
  - simpl. lia.
Defined.

(** X25: a leaderboard loaded from a stored array with fewer than
    [maxScores] records, the empty array for one, is not repaired:
    for every positive score [checkAndUpdateScore] and
    [canEnterLeaderboard] throw a [TypeError] at
    [this.scores[this.maxScores - 1].value]; a score that is not
    positive is turned away before that line. *)
Theorem short_leaderboard_throws (saved : list Score) today newScore :
  length saved < 3 →
  scores (ScoreManager.new (Some saved) today) = saved
  ∧ checkAndUpdateScore (ScoreManager.new (Some saved) today) newScore today
    = (if (newScore <=? 0)%Z
       then GameEngine.Returns (ScoreManager.new (Some saved) today, None)
       else GameEngine.Throws "TypeError")
  ∧ canEnterLeaderboard (ScoreManager.new (Some saved) today) newScore
    = (if (newScore <=? 0)%Z then GameEngine.Returns false
       else GameEngine.Throws "TypeError").
Proof.
  intros Hshort.
  assert (Hsaved : scores (ScoreManager.new (Some saved) today) = saved).
  { unfold ScoreManager.new, loadScores. cbn [scores].
    apply take_ge. lia. }
  split; [exact Hsaved|].
  assert (Hlow : lowestScore (ScoreManager.new (Some saved) today)
                 = GameEngine.Throws "TypeError").
  { unfold lowestScore. rewrite Hsaved. cbn [maxScores ScoreManager.new].
    rewrite lookup_ge_None_2 by lia. reflexivity. }
  unfold checkAndUpdateScore, canEnterLeaderboard. rewrite Hlow.
  destruct (newScore <=? 0)%Z; split; reflexivity.
Qed.

Lemma short_leaderboard_throws_witness :
  scores (ScoreManager.new (Some []) "2024/5/1") = []
  ∧ checkAndUpdateScore (ScoreManager.new (Some []) "2024/5/1") 512 "2024/5/1"
    = (if (512 <=? 0)%Z
       then GameEngine.Returns (ScoreManager.new (Some []) "2024/5/1", None)
       else GameEngine.Throws "TypeError")
  ∧ canEnterLeaderboard (ScoreManager.new (Some []) "2024/5/1") 512
    = (if (512 <=? 0)%Z then GameEngine.Returns false
       else GameEngine.Throws "TypeError").
Proof.
  apply (short_leaderboard_throws [] "2024/5/1" 512). simpl. lia.
Defined.

(** X26: [clearScores] leaves [maxScores] records of value 0: the
    best score is 0 again, and the next positive score enters at
    rank 0 and is the best score from then on. *)
Theorem clearScores_resets m today newScore today' :
  0 < maxScores m → (0 < newScore)%Z →
  length (scores (clearScores m today)) = maxScores m
  ∧ getBestScore (clearScores m today) = 0%Z
  ∧ canEnterLeaderboard (clearScores m today) newScore
    = GameEngine.Returns true
  ∧ ∃ m', checkAndUpdateScore (clearScores m today) newScore today'
          = GameEngine.Returns (m', Some 0)
      ∧ getBestScore m' = newScore.
Proof.
  intros Hmax Hpos. unfold clearScores, emptyScores.
  set (zero := {| value := 0; date := today |}).
  assert (Hlow : lowestScore
                   {| maxScores := maxScores m;
                      scores := replicate (maxScores m) zero |}
                 = GameEngine.Returns 0%Z).
  { unfold lowestScore. cbn [maxScores scores].
    destruct (maxScores m) as [|k]; [lia|].
    rewrite lookup_replicate_2 by lia. reflexivity. }
  split; [apply length_replicate|]. split; [|split].
  - unfold getBestScore. cbn [scores].
    destruct (maxScores m); [lia|]. reflexivity.
  - unfold canEnterLeaderboard. rewrite Hlow.
    destruct (Z.leb_spec newScore 0); [lia|].
    destruct (Z.ltb_spec 0 newScore); [reflexivity|lia].
  - unfold checkAndUpdateScore. rewrite Hlow.
    destruct (Z.leb_spec newScore 0); [lia|]. cbn [scores maxScores].
    pose proof (findInsertIndex_spec newScore (replicate (maxScores m) zero))
      as Hfind.
    destruct (findInsertIndex newScore (replicate (maxScores m) zero))
      as [i|].
    + destruct Hfind as [_ Habove].
      assert (i = 0) as ->.
      { destruct i as [|i]; [reflexivity|].
        specialize (Habove 0 zero ltac:(lia)).
        rewrite lookup_replicate_2 in Habove by lia.
        specialize (Habove eq_refl). simpl in Habove. lia. }
      eexists. split; [reflexivity|]. unfold getBestScore. cbn [scores].
      destruct (maxScores m); [lia|]. reflexivity.
    + specialize (Hfind 0 zero). rewrite lookup_replicate_2 in Hfind by lia.
      specialize (Hfind eq_refl). simpl in Hfind. lia.
Qed.

Lemma clearScores_resets_witness :
  let m := ScoreManager.new (Some [{| value := 900; date := "2024/4/1" |}])
             "2024/5/1" in
  length (scores (clearScores m "2024/5/1")) = maxScores m
  ∧ getBestScore (clearScores m "2024/5/1") = 0%Z
  ∧ canEnterLeaderboard (clearScores m "2024/5/1") 4
    = GameEngine.Returns true
  ∧ ∃ m', checkAndUpdateScore (clearScores m "2024/5/1") 4 "2024/5/2"
          = GameEngine.Returns (m', Some 0)
      ∧ getBestScore m' = 4%Z.
Proof.
  apply (clearScores_resets
           (ScoreManager.new (Some [{| value := 900; date := "2024/4/1" |}])
              "2024/5/1") "2024/5/1" 4 "2024/5/2").
  - simpl. lia.
  - lia.
Defined.
End ScoresMore.

(** ** InputHandler *)

Section InputMore.
Import Notions MoreNotions.

(** X27: [handleSwipe] drops a swipe exactly when it is shorter than
    [minSwipeDistance] on both axes.  Otherwise the larger
    displacement decides the axis, the vertical one when they are
    equal, and its sign the direction; with a positive
    [minSwipeDistance] the swipe the other way gives the opposite
    direction. *)
Theorem handleSwipe_direction (minSwipeDistance deltaX deltaY : Z) :
  (InputHandler.handleSwipe minSwipeDistance deltaX deltaY = None
   ↔ (Z.abs deltaX < minSwipeDistance ∧ Z.abs deltaY < minSwipeDistance)%Z)
  ∧ (InputHandler.handleSwipe minSwipeDistance deltaX deltaY = Some "right"
     ↔ (minSwipeDistance ≤ deltaX ∧ Z.abs deltaY < deltaX)%Z)
  ∧ (InputHandler.handleSwipe minSwipeDistance deltaX deltaY = Some "left"
     ↔ (minSwipeDistance ≤ - deltaX ∧ Z.abs deltaY < - deltaX)%Z)
  ∧ (InputHandler.handleSwipe minSwipeDistance deltaX deltaY = Some "down"
     ↔ (minSwipeDistance ≤ deltaY ∧ Z.abs deltaX ≤ deltaY ∧ 0 < deltaY)%Z)
  ∧ (InputHandler.handleSwipe minSwipeDistance deltaX deltaY = Some "up"
     ↔ (minSwipeDistance ≤ - deltaY ∧ Z.abs deltaX ≤ - deltaY)%Z)
  ∧ ((0 < minSwipeDistance)%Z →
     InputHandler.handleSwipe minSwipeDistance (- deltaX) (- deltaY)
     = opposite <$> InputHandler.handleSwipe minSwipeDistance deltaX deltaY).
Proof.
  unfold InputHandler.handleSwipe. cbv zeta. rewrite !Z.abs_opp.
  destruct (Z.ltb_spec (Z.max (Z.abs deltaX) (Z.abs deltaY)) minSwipeDistance);
    [repeat split; first [discriminate|lia|reflexivity]|].
  destruct (Z.ltb_spec (Z.abs deltaY) (Z.abs deltaX));
    destruct (Z.ltb_spec 0 deltaX); destruct (Z.ltb_spec 0 deltaY);
    destruct (Z.ltb_spec 0 (- deltaX)); destruct (Z.ltb_spec 0 (- deltaY));
    try lia;
    repeat split; first [discriminate|lia|reflexivity|intros _; lia].
Qed.

(** X28: whatever the key pressed or the swipe made, a direction that
    the keyboard handler or [handleSwipe] passes to [handleMove] is
    one of the four: [validateDirection] of [InputHandler] and of
    [GameEngine] both accept it, and the [switch] of [move] has a case
    for it.  While the input is disabled or blocked no key gives a
    direction. *)
Theorem inputs_are_directions (inputDisabled isInputBlocked : bool)
    (key : string) (minSwipeDistance deltaX deltaY : Z) (direction : string) :
  (InputHandler.handleKeyboard inputDisabled isInputBlocked key
   = Some direction
   ∨ InputHandler.handleSwipe minSwipeDistance deltaX deltaY = Some direction →
   InputHandler.validateDirection (GameEngine.Str direction) = true
   ∧ GameEngine.validateDirection (GameEngine.Str direction) = true
   ∧ is_Some (MoveProcessor.moveOf direction))
  ∧ (inputDisabled || isInputBlocked = true →
     InputHandler.handleKeyboard inputDisabled isInputBlocked key = None).
Proof.
  split.
  - assert (Hfour : direction ∈ ["left"; "right"; "up"; "down"] →
      InputHandler.validateDirection (GameEngine.Str direction) = true
      ∧ GameEngine.validateDirection (GameEngine.Str direction) = true
      ∧ is_Some (MoveProcessor.moveOf direction)).
    { intros Hin.
      repeat (apply elem_of_cons in Hin as [->|Hin]);
        [repeat split; (reflexivity || (eexists; reflexivity))..|].
      apply elem_of_nil in Hin. contradiction. }
    intros [Hkey|Hswipe]; apply Hfour.
    + unfold InputHandler.handleKeyboard in Hkey.
      destruct (inputDisabled || isInputBlocked); [discriminate|].
      repeat match type of Hkey with
             | (if ?c then _ else _) = _ => destruct c
             end; try discriminate; injection Hkey as <-; repeat constructor.
    + unfold InputHandler.handleSwipe in Hswipe. cbv zeta in Hswipe.
      repeat match type of Hswipe with
             | context [if ?c then _ else _] => destruct c
             end; try discriminate; injection Hswipe as <-; repeat constructor.
  - intros Hoff. unfold InputHandler.handleKeyboard. rewrite Hoff. reflexivity.
Qed.
End InputMore.

(** ** GameUI: following a tile through a move *)

Section TrackingMore.
Import Board MoveProcessor Notions MoreNotions Samples.
Import GameUI.
Implicit Types (b : Board) (l r : list Z).

Lemma first_match_stays {A B} (f : A → option B) (l : list A) (q : B) :
  fold_left (λ found pos,
    match found with Some _ => found | None => f pos end) l (Some q) = Some q.
Proof. induction l as [|x l IH]; [reflexivity|exact IH]. Qed.

Lemma first_match_spec {A B} (f : A → option B) (l : list A) :
  match fold_left (λ found pos,
          match found with Some _ => found | None => f pos end) l None with
  | Some q =>
      ∃ k pos, l !! k = Some pos ∧ f pos = Some q
        ∧ ∀ j pos', j < k → l !! j = Some pos' → f pos' = None
  | None => ∀ pos, pos ∈ l → f pos = None
  end.
Proof.
  induction l as [|x l IH].
  - simpl. intros pos Hin. inversion Hin.
  - cbn [fold_left]. destruct (f x) as [q|] eqn:Hx.
    + rewrite first_match_stays. exists 0, x.
      split; [reflexivity|]. split; [assumption|]. intros j pos' Hj. lia.
    + destruct (fold_left _ l None) as [q|].
      * destruct IH as (k & pos & Hk & Hpos & Hfirst).
        exists (S k), pos. split; [exact Hk|]. split; [assumption|].
        intros [|j] pos' Hj Hpos'.
        -- simpl in Hpos'. congruence.
        -- apply (Hfirst j pos'); [lia|exact Hpos'].
      * intros pos Hin. apply elem_of_cons in Hin as [->|Hin];
          [assumption|apply IH, Hin].
Qed.

Lemma matches_spec tile after pos q :
  matches tile after pos = Some q
  ↔ getCell after pos.1 pos.2 = Some (newValue q)
    ∧ (0 < newValue q)%Z
    ∧ (newValue q = value tile ∨ newValue q = (value tile * 2)%Z)
    ∧ newRow q = pos.1 ∧ newCol q = pos.2
    ∧ isMerged q = bool_decide (newValue q ≠ value tile).
Proof.
  unfold matches.
  assert (Hneg : ∀ a c : Z, negb (a =? c)%Z = bool_decide (a ≠ c)).
  { intros a c. destruct (Z.eqb_spec a c); symmetry;
      [apply bool_decide_eq_false; auto|apply bool_decide_eq_true; auto]. }
  destruct (getCell after pos.1 pos.2) as [v|];
    [|split; [discriminate|intros [? _]; discriminate]].
  rewrite Hneg. destruct q as [qr qc qv qm].
  cbn [newRow newCol newValue isMerged].
  destruct (Z.ltb_spec 0 v) as [Hpos|Hneg0]; cbn [andb].
  - destruct (Z.eqb_spec v (value tile)) as [Heq|Hne]; cbn [orb].
    + split.
      * intros [= <- <- <- <-]. repeat split; auto.
      * intros ([= <-] & _ & _ & -> & -> & ->). reflexivity.
    + destruct (Z.eqb_spec v (value tile * 2)) as [Heq2|Hne2].
      * split.
        -- intros [= <- <- <- <-]. repeat split; auto.
        -- intros ([= <-] & _ & _ & -> & -> & ->). reflexivity.
      * split; [discriminate|]. intros ([= <-] & _ & [?|?] & _); congruence.
  - split; [discriminate|]. intros ([= <-] & ? & _). lia.
Qed.

(** X29: [findNewPosition] returns the first position of the search
    order at which the board after the move holds a positive value
    that is the value of the tile or its double, with that value, and
    [isMerged] telling whether it is the double; it returns [null]
    when the search order has no such position. *)
Theorem findNewPosition_first_match tile after direction :
  match findNewPosition tile after direction with
  | Some p =>
      ∃ k, getSearchOrder (row tile) (col tile) direction !! k
           = Some (newRow p, newCol p)
        ∧ getCell after (newRow p) (newCol p) = Some (newValue p)
        ∧ (0 < newValue p)%Z
        ∧ (newValue p = value tile ∨ newValue p = (value tile * 2)%Z)
        ∧ isMerged p = bool_decide (newValue p ≠ value tile)
        ∧ ∀ j pos, j < k →
            getSearchOrder (row tile) (col tile) direction !! j = Some pos →
            matches tile after pos = None
  | None =>
      ∀ pos, pos ∈ getSearchOrder (row tile) (col tile) direction →
        matches tile after pos = None
  end.
Proof.
  unfold findNewPosition.
  pose proof (first_match_spec (matches tile after)
                (getSearchOrder (row tile) (col tile) direction)) as H.
  destruct (fold_left _ _ None) as [p|]; [|exact H].
  destruct H as (k & pos & Hk & Hpos & Hfirst).
  apply matches_spec in Hpos as (Hcell & Hpositive & Hvalue & Hr & Hc & Hm).
  exists k. rewrite Hr, Hc. destruct pos as [pr pc]. cbn [fst snd] in *.
  repeat split; assumption.
Qed.

Lemma findNewPosition_finds tile after direction pos q :
  pos ∈ getSearchOrder (row tile) (col tile) direction →
  matches tile after pos = Some q →
  ∃ p, findNewPosition tile after direction = Some p
    ∧ (newRow p, newCol p) ∈ getSearchOrder (row tile) (col tile) direction.
Proof.
  intros Hin Hq. unfold findNewPosition.
  pose proof (first_match_spec (matches tile after)
                (getSearchOrder (row tile) (col tile) direction)) as H.
  destruct (fold_left _ _ None) as [p|].
  - exists p. split; [reflexivity|].
    destruct H as (k & [pr pc] & Hk & Hpos & _).
    apply matches_spec in Hpos as (_ & _ & _ & -> & -> & _).
    apply (list_elem_of_lookup_2 _ k). exact Hk.
  - rewrite (H pos Hin) in Hq. discriminate.
Qed.

Lemma elem_upTo (from to x : Z) : (from ≤ x ≤ to)%Z → x ∈ upTo from to.
Proof.
  intros Hx. unfold upTo. apply list_elem_of_In, in_map_iff.
  exists (Z.to_nat (x - from)). split; [lia|]. apply in_seq. lia.
Qed.

Lemma elem_downTo (from to x : Z) : (to ≤ x ≤ from)%Z → x ∈ downTo from to.
Proof.
  intros Hx. unfold downTo. apply list_elem_of_In, in_map_iff.
  exists (Z.to_nat (from - x)). split; [lia|]. apply in_seq. lia.
Qed.

Lemma mergeLine_tracks l : ∀ k v,
  l !! k = Some v →
  ∃ k', k' ≤ k
    ∧ (line (mergeLine l) !! k' = Some v
       ∨ line (mergeLine l) !! k' = Some (v * 2)%Z).
Proof.
  induction l as [|x|x t IH|x y t Hne IH] using merge_ind; intros k v Hk.
  - discriminate.
  - destruct k as [|k]; [|discriminate]. exists 0. split; [lia|]. left. exact Hk.
  - rewrite mergeLine_merge. cbn [line].
    destruct k as [|[|k]].
    + injection Hk as ->. exists 0. split; [lia|]. right. reflexivity.
    + injection Hk as ->. exists 0. split; [lia|]. right. reflexivity.
    + destruct (IH k v Hk) as (k' & Hle & Hk'). exists (S k').
      split; [lia|]. exact Hk'.
  - rewrite mergeLine_keep by assumption. cbn [line].
    destruct k as [|k].
    + injection Hk as ->. exists 0. split; [lia|]. left. reflexivity.
    + destruct (IH k v Hk) as (k' & Hle & Hk'). exists (S k').
      split; [lia|]. exact Hk'.
Qed.

Lemma nonZero_tracks r i v :
  r !! i = Some v → v ≠ 0%Z → ∃ k, k ≤ i ∧ nonZero r !! k = Some v.
Proof.
  intros Hi Hv. exists (length (nonZero (take i r))). split.
  - etransitivity; [apply nonZero_length|]. rewrite length_take. lia.
  - rewrite <- (take_drop_middle r i v Hi) at 2.
    rewrite nonZero_app. rewrite lookup_app_r by lia.
    rewrite Nat.sub_diag. unfold nonZero at 1. rewrite filter_cons.
    case_decide; [reflexivity|contradiction].
Qed.

Lemma slideRow_tracks n r i v :
  length r = n → r !! i = Some v → v ≠ 0%Z →
  ∃ i', i' ≤ i
    ∧ (slideRow n r !! i' = Some v ∨ slideRow n r !! i' = Some (v * 2)%Z).
Proof.
  intros Hlen Hi Hv.
  destruct (nonZero_tracks r i v Hi Hv) as (k & Hk & Hnz).
  destruct (mergeLine_tracks (nonZero r) k v Hnz) as (k' & Hk' & Hmerged).
  exists k'. split; [lia|]. unfold slideRow.
  rewrite padLine_short by (apply merged_fits; assumption).
  assert (Hin : k' < length (line (mergeLine (nonZero r)))).
  { destruct Hmerged as [H|H]; apply lookup_lt_Some in H; exact H. }
  rewrite lookup_app_l by assumption. exact Hmerged.
Qed.

Lemma tile_tracked b direction mv (row col : nat) :
  wf b → moveOf direction = Some mv → row < size b → col < size b →
  cellAt (grid b) row col ≠ 0%Z →
  (direction = "right" ∨ direction = "down" → size b ≤ 4) →
  ∃ pr pc : nat,
    pr < size b ∧ pc < size b
    ∧ (Z.of_nat pr, Z.of_nat pc)
      ∈ getSearchOrder (Z.of_nat row) (Z.of_nat col) direction
    ∧ (cellAt (grid (mv b).1) pr pc = cellAt (grid b) row col
       ∨ cellAt (grid (mv b).1) pr pc = (cellAt (grid b) row col * 2)%Z).
Proof.
  intros Hwf Hmv Hrow Hcol Hpos Hsmall.
  set (v := cellAt (grid b) row col) in *.
  assert (Htrack : ∀ k i,
    k < size b → i < size b →
    lineTowards (size b) (grid b) direction k !! i = Some v →
    ∃ i', i' ≤ i
      ∧ (lineTowards (size b) (grid (mv b).1) direction k !! i' = Some v
         ∨ lineTowards (size b) (grid (mv b).1) direction k !! i'
           = Some (v * 2)%Z)).
  { intros k i Hk Hi Hline.
    rewrite (move_line b direction mv k Hwf Hmv Hk).
    apply slideRow_tracks; [|assumption..].
    apply (length_lineTowards _ _ direction mv k Hmv). }
  destruct (moveOf_Some direction mv Hmv)
    as [[-> ->]|[[-> ->]|[[-> ->]|[-> ->]]]].
  - destruct (Htrack row col Hrow Hcol) as (i' & Hi' & Hline).
    { apply lookup_line_left. assumption. }
    rewrite lookup_line_left in Hline by lia.
    exists row, i'. split; [assumption|]. split; [lia|]. split.
    + apply list_elem_of_In, in_map_iff. exists (Z.of_nat i').
      split; [reflexivity|]. apply list_elem_of_In, elem_upTo. lia.
    + destruct Hline as [[= ->]|[= ->]]; auto.
  - destruct (Htrack row (size b - 1 - col) Hrow ltac:(lia))
      as (i' & Hi' & Hline).
    { rewrite lookup_line_right by lia. f_equal. unfold v. f_equal. lia. }
    rewrite lookup_line_right in Hline by lia.
    exists row, (size b - 1 - i'). split; [assumption|]. split; [lia|]. split.
    + apply list_elem_of_In, in_map_iff. exists (Z.of_nat (size b - 1 - i')).
      split; [reflexivity|]. apply list_elem_of_In, elem_downTo.
      specialize (Hsmall (or_introl eq_refl)). lia.
    + destruct Hline as [[= ->]|[= ->]]; auto.
  - destruct (Htrack col row Hcol Hrow) as (i' & Hi' & Hline).
    { apply lookup_line_up. assumption. }
    rewrite lookup_line_up in Hline by lia.
    exists i', col. split; [lia|]. split; [assumption|]. split.
    + apply list_elem_of_In, in_map_iff. exists (Z.of_nat i').
      split; [reflexivity|]. apply list_elem_of_In, elem_upTo. lia.
    + destruct Hline as [[= ->]|[= ->]]; auto.
  - destruct (Htrack col (size b - 1 - row) Hcol ltac:(lia))
      as (i' & Hi' & Hline).
    { rewrite lookup_line_down by lia. f_equal. unfold v. f_equal. lia. }
    rewrite lookup_line_down in Hline by lia.
    exists (size b - 1 - i'), col. split; [lia|]. split; [assumption|]. split.
    + apply list_elem_of_In, in_map_iff. exists (Z.of_nat (size b - 1 - i')).
      split; [reflexivity|]. apply list_elem_of_In, elem_downTo.
      specialize (Hsmall (or_intror eq_refl)). lia.
    + destruct Hline as [[= ->]|[= ->]]; auto.
Qed.

(** X30: the animation finds every tile.  When [move] has returned
    [true], [findNewPosition] called with the board of the engine
    (moved, and with the new tile on it) for a tile of the board
    before the move returns a position, one of the search order of
    that tile: no tile is taken for removed.  For "right" and "down"
    the search starts at index 3, and the statement needs a board of
    size 4 at most. *)
Theorem moved_tile_is_found (e : GameEngine.GameEngine) direction pick small e'
    (row col : nat) :
  valid e →
  GameEngine.move e (GameEngine.Str direction) pick small
  = GameEngine.Returns (e', true) →
  row < GameEngine.size e → col < GameEngine.size e →
  (0 < cellAt (grid (GameEngine.board e)) row col)%Z →
  (direction = "right" ∨ direction = "down" → GameEngine.size e ≤ 4) →
  ∃ p,
    findNewPosition
      {| GameUI.row := Z.of_nat row; GameUI.col := Z.of_nat col;
         value := cellAt (grid (GameEngine.board e)) row col |}
      (GameEngine.getBoard e') direction
    = Some p
    ∧ (newRow p, newCol p)
      ∈ getSearchOrder (Z.of_nat row) (Z.of_nat col) direction.
Proof.
  intros Hvalid Hmove Hrow Hcol Hpos Hsmall.
  pose proof Hvalid as (Hs & Hwf & _). rewrite Hs in Hrow, Hcol, Hsmall.
  destruct (move_true e _ pick small e' Hvalid Hmove)
    as (d & mv & [= <-] & Hmv & _ & _ & Hmoved & _ & Hb & _).
  destruct (soundMove_moveOf direction mv Hmv _ Hwf) as (Hwf1 & Hs1 & _).
  destruct (tile_tracked _ direction mv row col Hwf Hmv Hrow Hcol
              ltac:(lia) Hsmall) as (pr & pc & Hpr & Hpc & Hin & Hcell).
  unfold GameEngine.getBoard. rewrite Hb.
  set (v := cellAt (grid (GameEngine.board e)) row col) in *.
  set (after := (addRandomTile (mv (GameEngine.board e)).1 pick small).1).
  assert (Hafter : cellAt (grid after) pr pc
                   = cellAt (grid (mv (GameEngine.board e)).1) pr pc).
  { unfold after.
    destruct (addRandomTile_cases (mv (GameEngine.board e)).1 pick small)
      as [->|(r0 & c0 & Hr0 & Hc0 & Hzero & ->)]; [reflexivity|].
    rewrite cellAt_setCell by assumption.
    case_decide as Hsame; [|reflexivity].
    destruct Hsame as [-> ->]. rewrite Hzero in Hcell. lia. }
  destruct (addRandomTile_shape (mv (GameEngine.board e)).1 pick small Hwf1)
    as (_ & Hs2). fold after in Hs2.
  apply (findNewPosition_finds
           {| GameUI.row := Z.of_nat row; GameUI.col := Z.of_nat col;
              value := v |} after direction (Z.of_nat pr, Z.of_nat pc)
           {| newRow := Z.of_nat pr; newCol := Z.of_nat pc;
              newValue := cellAt (grid after) pr pc;
              isMerged := bool_decide (cellAt (grid after) pr pc ≠ v) |});
    [exact Hin|].
  apply matches_spec. cbn [fst snd newRow newCol newValue isMerged value].
  split; [apply getCell_inside; rewrite Hs2, Hs1; assumption|].
  rewrite Hafter. split; [destruct Hcell as [->| ->]; lia|]. auto.
Qed.

Lemma moved_tile_is_found_witness :
  let e := playing (firstRow [2; 2; 4; 0]%Z) in
  ∃ p,
    findNewPosition
      {| GameUI.row := Z.of_nat 0; GameUI.col := Z.of_nat 1;
         value := cellAt (grid (GameEngine.board e)) 0 1 |}
      (GameEngine.getBoard (after e "right" 3 true)) "right"
    = Some p
    ∧ (newRow p, newCol p) ∈ getSearchOrder (Z.of_nat 0) (Z.of_nat 1) "right".
Proof.
  apply (moved_tile_is_found (playing (firstRow [2; 2; 4; 0]%Z)) "right" 3 true
           (after (playing (firstRow [2; 2; 4; 0]%Z)) "right" 3 true) 0 1).
  - split; [reflexivity|]. split; [|simpl; lia].
    split; [reflexivity|]. simpl. repeat constructor.
  - vm_compute. reflexivity.
  - simpl. lia.
  - simpl. lia.
  - vm_compute. reflexivity.
  - intros _. simpl. lia.
Defined.
End TrackingMore.

(** ** The moves within the range of exact numbers *)

Section Exactness.
Import Board MoveProcessor Notions MoreNotions Samples.
Implicit Types (b : Board) (l r : list Z) (g : list (list Z)).

Lemma magnitude_mergeLine l :
  sumZ (map Z.abs (line (mergeLine l))) = sumZ (map Z.abs l).
Proof.
  induction l as [|x|x t IH|x y t Hne IH] using merge_ind.
  - reflexivity.
  - reflexivity.
  - rewrite mergeLine_merge. cbn [line map sumZ foldr].
    fold (sumZ (map Z.abs (line (mergeLine t)))). fold (sumZ (map Z.abs t)).
    rewrite IH. lia.
  - rewrite mergeLine_keep by assumption. cbn [line map sumZ foldr].
    fold (sumZ (map Z.abs (line (mergeLine (y :: t))))).
    rewrite IH. reflexivity.
Qed.

Lemma magnitude_sublist l1 l2 :
  sublist l1 l2 → (sumZ (map Z.abs l1) ≤ sumZ (map Z.abs l2))%Z.
Proof.
  induction 1 as [|x l1 l2 _ IH|x l1 l2 _ IH]; simpl; lia.
Qed.

Lemma magnitude_nonZero r :
  sumZ (map Z.abs (nonZero r)) = sumZ (map Z.abs r).
Proof.
  unfold nonZero. induction r as [|x r IH]; [reflexivity|].
  rewrite filter_cons. case_decide; simpl; lia.
Qed.

Lemma magnitude_zeros k : sumZ (map Z.abs (replicate k 0%Z)) = 0%Z.
Proof. induction k as [|k IH]; simpl; lia. Qed.

Lemma magnitude_slideRow n r :
  length r = n → sumZ (map Z.abs (slideRow n r)) = sumZ (map Z.abs r).
Proof.
  intros Hlen. unfold slideRow.
  rewrite padLine_short by (apply merged_fits; assumption).
  rewrite map_app, sumZ_app, magnitude_zeros, magnitude_mergeLine,
    magnitude_nonZero. lia.
Qed.

Lemma magnitude_slide n g :
  Forall (λ r, length r = n) g →
  sumZ (map sumZ (map (map Z.abs) (map (slideRow n) g)))
  = sumZ (map sumZ (map (map Z.abs) g)).
Proof.
  induction 1 as [|r g Hr _ IH]; [reflexivity|].
  cbn [map sumZ foldr]. fold (sumZ (map Z.abs (slideRow n r))).
  fold (sumZ (map Z.abs r)).
  fold (sumZ (map sumZ (map (map Z.abs) (map (slideRow n) g)))).
  fold (sumZ (map sumZ (map (map Z.abs) g))).
  rewrite IH, (magnitude_slideRow n r Hr). reflexivity.
Qed.

Lemma magnitude_reverse g :
  sumZ (map sumZ (map (map Z.abs) (map reverse g)))
  = sumZ (map sumZ (map (map Z.abs) g)).
Proof.
  assert (H : map (map Z.abs) (map reverse g)
              = map reverse (map (map Z.abs) g)).
  { rewrite !map_map. apply map_ext. intros r.
    change (map Z.abs (reverse r)) with (Z.abs <$> reverse r).
    rewrite fmap_reverse. reflexivity. }
  rewrite H. apply boardTotal_reverse.
Qed.

Lemma magnitude_transposed n g :
  length g = n → Forall (λ r, length r = n) g →
  sumZ (map sumZ (map (map Z.abs) (transposed n g)))
  = sumZ (map sumZ (map (map Z.abs) g)).
Proof.
  intros Hlen Hrows.
  assert (Hcell : ∀ row col,
            cellAt (map (map Z.abs) g) row col = Z.abs (cellAt g row col)).
  { intros row col. unfold cellAt.
    change (map (map Z.abs) g) with (map Z.abs <$> g).
    rewrite list_lookup_fmap. destruct (g !! row) as [r0|]; [|reflexivity].
    simpl. change (map Z.abs r0) with (Z.abs <$> r0).
    rewrite list_lookup_fmap. destruct (r0 !! col); reflexivity. }
  assert (H : map (map Z.abs) (transposed n g)
              = transposed n (map (map Z.abs) g)).
  { unfold transposed. rewrite map_map. apply map_ext. intros row.
    rewrite map_map. apply map_ext. intros col. symmetry. apply Hcell. }
  rewrite H. apply boardTotal_transposed.
  - rewrite length_map. assumption.
  - apply Forall_forall. intros r0 Hin.
    apply list_elem_of_In, in_map_iff in Hin as (r1 & <- & Hin).
    rewrite length_map. rewrite Forall_forall in Hrows.
    apply Hrows, list_elem_of_In, Hin.
Qed.

Lemma magnitude_move b direction mv :
  wf b → moveOf direction = Some mv →
  sumZ (map sumZ (map (map Z.abs) (grid (mv b).1)))
  = sumZ (map sumZ (map (map Z.abs) (grid b))).
Proof.
  intros Hwf Hmv. pose proof Hwf as [Hlen Hrows].
  pose proof (wf_transposed (size b) (grid b)) as HwfT.
  destruct (moveOf_Some direction mv Hmv)
    as [[-> ->]|[[-> ->]|[[-> ->]|[-> ->]]]].
  - rewrite (moveLeft_spec b Hwf). cbn [fst grid].
    apply magnitude_slide, Hrows.
  - rewrite (moveRight_spec b Hwf). cbn [fst grid].
    rewrite magnitude_reverse, magnitude_slide, magnitude_reverse;
      [reflexivity|]. apply (wf_map_reverse b Hwf).
  - rewrite (moveUp_spec b Hwf). cbn [fst grid].
    pose proof (wf_slid _ HwfT) as [Hlen1 Hrows1].
    cbn [size grid] in Hlen1, Hrows1.
    rewrite (magnitude_transposed _ _ Hlen1 Hrows1).
    rewrite magnitude_slide by apply HwfT.
    apply magnitude_transposed; assumption.
  - rewrite (moveDown_spec b Hwf). cbn [fst grid].
    pose proof (wf_map_reverse _ HwfT) as HwfR.
    pose proof (wf_map_reverse _ (wf_slid _ HwfR)) as [Hlen1 Hrows1].
    cbn [size grid] in Hlen1, Hrows1.
    rewrite (magnitude_transposed _ _ Hlen1 Hrows1).
    rewrite magnitude_reverse.
    rewrite magnitude_slide by apply HwfR.
    rewrite magnitude_reverse.
    apply magnitude_transposed; assumption.
Qed.

(** C10: within the range of exact numbers, that is for a line and a
    board whose magnitudes add up to less than 2^53, [mergeLine]
    keeps the sum of the line, its score is the sum of the values it
    produced by merging (each of them the double of a value of the
    input, and each of them in the returned line); hence each of the
    four moves keeps the total of the tiles of the board (the tile
    [GameEngine.move] adds afterwards is not part of the move
    function).  The merged line, the merged values, whose partial
    sums the score runs through, and the board after the move stay
    in that range. *)
Theorem merge_keeps_total (l : list Z) b direction move :
  exactLine l → wf b → exactBoard b → moveOf direction = Some move →
  sumZ (line (mergeLine l)) = sumZ l
  ∧ lineScore (mergeLine l) = sumZ (mergedValues l)
  ∧ sublist (mergedValues l) (line (mergeLine l))
  ∧ Forall (λ v, ∃ x, x ∈ l ∧ v = (x * 2)%Z) (mergedValues l)
  ∧ boardTotal (move b).1 = boardTotal b
  ∧ exactLine (line (mergeLine l))
  ∧ exactLine (mergedValues l)
  ∧ exactBoard (move b).1.
Proof.
  intros Hline Hwf Hboard Hmove. unfold exactLine, exactBoard in *.
  split; [apply mergeLine_sum|].
  split; [apply mergeLine_score|]. split; [apply mergedValues_sublist|].
  split; [apply mergedValues_doubles|].
  split; [apply (soundMove_moveOf direction move Hmove b Hwf)|].
  pose proof (magnitude_mergeLine l) as Hmerged.
  pose proof (magnitude_sublist _ _ (mergedValues_sublist l)) as Hsub.
  split; [lia|]. split; [lia|].
  rewrite (magnitude_move b direction move Hwf Hmove). exact Hboard.
Qed.

Lemma merge_keeps_total_witness :
  sumZ (line (mergeLine [2; 2; 4; 4; 8]%Z)) = sumZ [2; 2; 4; 4; 8]%Z
  ∧ lineScore (mergeLine [2; 2; 4; 4; 8]%Z)
    = sumZ (mergedValues [2; 2; 4; 4; 8]%Z)
  ∧ sublist (mergedValues [2; 2; 4; 4; 8]%Z)
      (line (mergeLine [2; 2; 4; 4; 8]%Z))
  ∧ Forall (λ v, ∃ x, x ∈ [2; 2; 4; 4; 8]%Z ∧ v = (x * 2)%Z)
      (mergedValues [2; 2; 4; 4; 8]%Z)
  ∧ boardTotal (moveDown (firstRow [2; 2; 4; 0]%Z)).1
    = boardTotal (firstRow [2; 2; 4; 0]%Z)
  ∧ exactLine (line (mergeLine [2; 2; 4; 4; 8]%Z))
  ∧ exactLine (mergedValues [2; 2; 4; 4; 8]%Z)
  ∧ exactBoard (moveDown (firstRow [2; 2; 4; 0]%Z)).1.
Proof.
  apply (merge_keeps_total [2; 2; 4; 4; 8]%Z (firstRow [2; 2; 4; 0]%Z)
           "down" moveDown).
  - vm_compute. reflexivity.
  - apply wf_firstRow. reflexivity.
  - vm_compute. reflexivity.
  - reflexivity.
Defined.
End Exactness.
